(** * Algorithm Visualizer: trace builders and playback controller

    A shallow embedding of
    - the Fibonacci runner ([fastDoubling], [iterativeFib],
      [fibonacciRunner.generateSteps], [fibonacciRunner.validateInput]),
    - the N-Queens runner of [src/algorithms/runners/backtracking.ts]
      ([isSafeBitmask], [isSafeTraditional], [nQueensRunner.generateSteps],
      [nQueensRunner.validateInput]),
    - the playback hook [useVisualization],
    - the handlers of the two input panels, and the step generators of the
      pages Tower of Hanoi, 0/1 Knapsack and LCS,
    followed by the properties proved about them.

    Conventions.  Integers of the source are [Z]; a JavaScript [number] that
    may leave the exactly representable range is a [Js.number].  A function
    that can throw returns an [option], [None] standing for the exception.
    A [for] loop is a structural recursion on the number of rounds it runs;
    the recursive solvers recurse on the number of rows still to fill. *)

From stdpp Require Import base numbers list strings.
From Stdlib Require Import ZArith Lia.

(** ** JavaScript values used by the runners *)

Module Js.
Local Open Scope Z_scope.

(** A JavaScript [number].  Integers are tracked exactly as long as they
    stay within [-2^53, 2^53], where IEEE-754 doubles hold every integer
    and integer addition is exact; [Untracked] stands for a double that the
    model does not follow: a fraction, [NaN], or a value out of that range. *)
Inductive number := Int (z : Z) | Untracked.

Definition MAX_EXACT : Z := 2 ^ 53.

Definition numAdd (a b : number) : number :=
  match a, b with
  | Int x, Int y => if Z.abs (x + y) <=? MAX_EXACT then Int (x + y) else Untracked
  | _, _ => Untracked
  end.

(** Payload values.  [VText v] is the text [v.toString()]. *)
#[warnings="-register-all"]
Inductive value :=
| VUndef
| VBool (b : bool)
| VNum (x : number)
| VBig (z : Z)
| VStr (s : string)
| VText (v : value)
| VArr (l : list value).

Definition num (z : Z) : value := VNum (Int z).

Definition toString (v : value) : value := VText v.

(** [a + b] on operands of type [number | bigint]: mixing the two throws a
    TypeError ([None]). *)
Definition add (a b : value) : option value :=
  match a, b with
  | VNum x, VNum y => Some (VNum (numAdd x y))
  | VBig x, VBig y => Some (VBig (x + y))
  | _, _ => None
  end.

(** The mathematical integer held by a number or a bigint. *)
Definition toZ (v : value) : option Z :=
  match v with
  | VNum (Int z) => Some z
  | VBig z => Some z
  | _ => None
  end.

(** [l[i] = v] on an array: in range it overwrites, past the end the array
    grows and the skipped slots are holes. *)
Definition arraySet {A} (hole : A) (l : list A) (i : nat) (v : A) : list A :=
  if decide (i < length l)%nat then <[i:=v]> l
  else l ++ replicate (i - length l) hole ++ [v].

(** 32-bit integer operators. *)
Definition toInt32 (z : Z) : Z :=
  let m := z mod 2 ^ 32 in if m <? 2 ^ 31 then m else m - 2 ^ 32.

Definition shl (a k : Z) : Z := toInt32 (Z.shiftl (toInt32 a) (k mod 32)).
Definition band (a b : Z) : Z := toInt32 (Z.land (toInt32 a) (toInt32 b)).
Definition bor (a b : Z) : Z := toInt32 (Z.lor (toInt32 a) (toInt32 b)).

(** [for (let i = start; ...; i++) body], run for [count] iterations. *)
Fixpoint forLoop {T} (count : nat) (i : Z) (body : Z → T → T) (s : T) : T :=
  match count with
  | O => s
  | S c => forLoop c (i + 1) body (body i s)
  end.

(** The same loop when the body may throw. *)
Fixpoint forLoopM {T} (count : nat) (i : Z) (body : Z → T → option T) (s : T)
  : option T :=
  match count with
  | O => Some s
  | S c => match body i s with
           | Some s' => forLoopM c (i + 1) body s'
           | None => None
           end
  end.
End Js.

(** ** Steps of a trace *)

(** [VisualizationStep]: [kind], [payload] (an object literal, as its list of
    fields) and [codeLine].  The display text [description] is not part of
    the model. *)
Record VisualizationStep := mkStep {
  kind : string;
  payload : list (string * Js.value);
  codeLine : Z;
}.

Abbreviation Trace := (list VisualizationStep).

(** [steps.push(s)] *)
Definition push (steps : Trace) (s : VisualizationStep) : Trace := steps ++ [s].

Definition lastKind (t : Trace) : option string := kind <$> last t.

Definition kinds (t : Trace) : list string := kind <$> t.

(** Number of steps of a given kind. *)
Definition countKind (k : string) (t : Trace) : nat :=
  length (filter (λ s, kind s = k) t).

(** A field of a payload. *)
Fixpoint field (name : string) (p : list (string * Js.value)) : option Js.value :=
  match p with
  | [] => None
  | (k, v) :: p' => if decide (k = name) then Some v else field name p'
  end.

(** The kinds that close a trace. *)
Definition terminalKind (k : string) : Prop :=
  k = "complete" ∨ k = "no-solution" ∨ k = "step-limit".

(** Result of [validateInput]: [{ valid: true }] or [{ valid: false, error }]. *)
Inductive ValidationResult := Valid | Invalid (error : string).

(** ** Fibonacci runner *)

Module Fibonacci.
Import Js.
Local Open Scope Z_scope.

Inductive Strategy := iterative | dp_array | fast_doubling.
Inductive Mode := full | condensed | computation_only.

Definition strategyName (s : Strategy) : string :=
  match s with
  | iterative => "iterative"
  | dp_array => "dp-array"
  | fast_doubling => "fast-doubling"
  end.

Definition modeName (m : Mode) : string :=
  match m with
  | full => "full"
  | condensed => "condensed"
  | computation_only => "computation-only"
  end.

(** [FibonacciInput]; [n] is an integer (any other number is rejected by
    [validateInput]), [detailLevel] an integer as in the slider. *)
Module Input.
Record t := mk {
  n : Z;
  strategy : option Strategy;
  detailLevel : option Z;
  mode : option Mode;
}.
End Input.

(** The mathematical Fibonacci numbers, as a reference. *)
Fixpoint fibPair (k : nat) : Z * Z :=
  match k with
  | O => (0, 1)
  | S k' => let '(a, b) := fibPair k' in (b, a + b)
  end.

Definition fib (k : nat) : Z := fst (fibPair k).

(** [fibHelper(k)] for [k >= 1].  In binary, [p~0] and [p~1] are the [k]
    with [Math.floor(k / 2) = p] and [k % 2] equal to [0] and [1]. *)
Fixpoint fibHelperPos (k : positive) : Z * Z :=
  match k with
  | xH => (1, 1)
  | xO p =>
      let '(a, b) := fibHelperPos p in
      let c := a * (2 * b - a) in
      let d := b * b + a * a in
      (c, d)
  | xI p =>
      let '(a, b) := fibHelperPos p in
      let c := a * (2 * b - a) in
      let d := b * b + a * a in
      (d, c + d)
  end.

Definition fibHelper (k : N) : Z * Z :=
  match k with
  | N0 => (0, 1)
  | Npos p => fibHelperPos p
  end.

(** [fastDoubling(n)].  For negative [n] the recursion of [fibHelper] never
    reaches a base case and the call stack overflows: [None]. *)
Definition fastDoubling (n : Z) : option Z :=
  if n =? 0 then Some 0
  else if n =? 1 then Some 1
  else if n <? 0 then None
  else Some (fst (fibHelper (Z.to_N n))).

(** [iterativeFib(n)]: the loop [for (i = 2; i <= n; i++)] runs [n - 1]
    times. *)
Definition iterativeFib (n : Z) : Z :=
  if n <=? 1 then n
  else snd (forLoop (Z.to_nat (n - 1)) 2 (λ _ '(a, b), (b, a + b)) (0, 1)).

(** *** The trace builder *)

Definition MAX_DETAILED_STEPS : Z := 2000.
Definition MAX_DP_ARRAY_SIZE : Z := 10000.

(** A sampling stride: [Math.max(1, Math.floor(n / d))] is [Infinity] when
    [d] is zero ([n] is positive where strides are computed). *)
Inductive Rate := Finite (r : Z) | Infinite.

(** [i % sampleRate === 0]; [i % Infinity] is [i]. *)
Definition onStride (rate : Rate) (i : Z) : bool :=
  match rate with
  | Finite r => Z.rem i r =? 0
  | Infinite => i =? 0
  end.

(** [input.strategy || 'dp-array'] *)
Definition effectiveStrategy (input : Input.t) : Strategy :=
  default dp_array (Input.strategy input).

(** [input.detailLevel || 50]: absent and [0] both give [50]. *)
Definition effectiveDetailLevel (input : Input.t) : Z :=
  match Input.detailLevel input with
  | None => 50
  | Some d => if d =? 0 then 50 else d
  end.

(** The mode, derived from [n] when [input.mode] is absent. *)
Definition effectiveMode (input : Input.t) : Mode :=
  match Input.mode input with
  | Some m => m
  | None =>
      if Input.n input <=? 50 then full
      else if Input.n input <=? 10000 then condensed
      else computation_only
  end.

Definition isFull (m : Mode) : bool := if m is full then true else false.
Definition isCondensed (m : Mode) : bool := if m is condensed then true else false.
Definition isComputationOnly (m : Mode) : bool :=
  if m is computation_only then true else false.
Definition isIterative (s : Strategy) : bool := if s is iterative then true else false.

(** Stride of the iterative path (source line 192). *)
Definition iterativeSampleRate (mode : Mode) (n detailLevel : Z) : Rate :=
  if isCondensed mode then
    if 100 - detailLevel =? 0 then Infinite
    else Finite (Z.max 1 (n / (100 - detailLevel)))
  else Finite 1.

(** Stride of the dp-array path (source lines 262-264). *)
Definition dpSampleRate (mode : Mode) (n detailLevel : Z) : Z :=
  if isCondensed mode then Z.max 1 (n / Z.max 1 ((100 - detailLevel) * 10))
  else 1.

(** [dp[i]]: [undefined] out of range. *)
Definition get (dp : list value) (i : Z) : value :=
  if i <? 0 then VUndef else default VUndef (dp !! Z.to_nat i).

(** [v.toString()] throws on [undefined]. *)
Definition toStringM (v : value) : option value :=
  match v with
  | VUndef => None
  | _ => Some (toString v)
  end.

(** [dp.map(v => v.toString())]; [map] skips holes. *)
Definition mapToString (dp : list value) : value :=
  VArr ((λ v, match v with VUndef => VUndef | _ => toString v end) <$> dp).

(** [dp[i - 1] + dp[i - 2]], the type assertions being erased at run time. *)
Definition addCells (x y : value) : option value :=
  match x, y with
  | VUndef, VUndef | VUndef, VNum _ | VNum _, VUndef => Some (VNum Untracked)
  | _, _ => add x y
  end.

(** [n * 0.001].  The double [0.001] exceeds one thousandth by less than
    2^-55 of it, so the product rounds to the integer [n / 1000] when 1000
    divides [n] (0, 1 and 20 at n = 0, 1000 and 20000); the other products
    are not followed. *)
Definition estimatedTime (n : Z) : number :=
  if (Z.rem n 1000 =? 0) && (Z.abs n <=? MAX_EXACT)
  then Int (Z.quot n 1000)
  else Untracked.

Definition initStep (n : Z) (mode : Mode) (strategy : Strategy) : VisualizationStep :=
  mkStep "init"
    [("n", num n); ("mode", VStr (modeName mode));
     ("strategy", VStr (strategyName strategy));
     ("estimatedMemory", num (n * 8));
     ("estimatedTime", VNum (estimatedTime n));
     ("warning", if n >? MAX_DP_ARRAY_SIZE
                 then VStr "Large input detected. Using computation-only mode."
                 else VUndef)]
    0.

(** One round of the iterative loop (source lines 194-231). *)
Definition iterativeBody (rate : Rate) (n : Z) (i : Z)
    (s : number * number * Trace) : number * number * Trace :=
  let '(a, b, steps) := s in
  let shouldSample := onStride rate i || (i =? n) || (i <=? 10) in
  let steps :=
    if shouldSample then
      push steps (mkStep "compute"
        [("i", num i); ("prev1", VNum b); ("prev2", VNum a);
         ("dp", VArr [VNum a; VNum b]); ("n", num n);
         ("strategy", VStr "iterative")] 10)
    else steps in
  let temp := numAdd a b in
  let a := b in
  let b := temp in
  let steps :=
    if shouldSample then
      push steps (mkStep "store"
        [("i", num i); ("value", VNum b); ("dp", VArr [VNum a; VNum b]);
         ("n", num n); ("strategy", VStr "iterative")] 11)
    else steps in
  (a, b, steps).

(** One round of the dp-array loop (source lines 266-308). *)
Definition dpBody (mode : Mode) (sampleRate n : Z) (i : Z)
    (s : list value * Trace) : option (list value * Trace) :=
  let '(dp, steps) := s in
  let shouldSample :=
    isFull mode || (Z.rem i sampleRate =? 0) || (i =? n) || (i <=? 10) in
  steps ← (if shouldSample then
             prev1 ← toStringM (get dp (i - 1));
             prev2 ← toStringM (get dp (i - 2));
             Some (push steps (mkStep "compute"
               [("i", num i); ("prev1", prev1); ("prev2", prev2);
                ("dp", mapToString dp); ("n", num n);
                ("strategy", VStr "dp-array")] 10))
           else Some steps);
  v ← addCells (get dp (i - 1)) (get dp (i - 2));
  let dp := arraySet VUndef dp (Z.to_nat i) v in
  steps ← (if shouldSample then
             txt ← toStringM (get dp i);
             Some (push steps (mkStep "store"
               [("i", num i); ("value", txt); ("dp", mapToString dp);
                ("n", num n); ("strategy", VStr "dp-array")] 11))
           else Some steps);
  Some (dp, steps).

(** The dp table as initialised in source lines 244-253. *)
Definition dpInit (n : Z) : list value :=
  let dp := replicate (Z.to_nat (Z.min (n + 1) MAX_DP_ARRAY_SIZE)) (num 0) in
  let dp := arraySet VUndef dp 0 (num 0) in
  let dp := arraySet VUndef dp 1 (num 1) in
  if n >? 78 then
    let dp := arraySet VUndef dp 0 (VBig 0) in
    arraySet VUndef dp 1 (VBig 1)
  else dp.

(** The table and the steps after the loop [for (i = 2; i <= n && i <=
    MAX_DP_ARRAY_SIZE; i++)], which runs [min(n, MAX_DP_ARRAY_SIZE) - 1]
    times (source lines 244-308). *)
Definition dpLoop (mode : Mode) (detailLevel n : Z) (steps : Trace)
    : option (list value * Trace) :=
  let dp := dpInit n in
  let useBigInt := n >? 78 in
  let steps := push steps (mkStep "init-dp"
    [("dp", mapToString dp); ("n", num n); ("strategy", VStr "dp-array");
     ("useBigInt", VBool useBigInt)] 6) in
  let sampleRate := dpSampleRate mode n detailLevel in
  forLoopM (Z.to_nat (Z.min n MAX_DP_ARRAY_SIZE - 1)) 2
           (dpBody mode sampleRate n) (dp, steps).

(** [fibonacciRunner.generateSteps]; [None] when the call throws. *)
Definition generateSteps (input : Input.t) : option Trace :=
  let steps : Trace := [] in
  let n := Input.n input in
  let strategy := effectiveStrategy input in
  let detailLevel := effectiveDetailLevel input in
  let mode := effectiveMode input in
  let steps := push steps (initStep n mode strategy) in
  if n <=? 1 then
    let steps := push steps (mkStep "base-case"
      [("n", num n); ("result", num n); ("dp", VArr [num n])] 2) in
    let steps := push steps (mkStep "complete"
      [("n", num n); ("result", num n); ("dp", VArr [num n])] 15) in
    Some steps
  else if isComputationOnly mode || (n >? MAX_DP_ARRAY_SIZE) then
    let steps := push steps (mkStep "compute-start"
      [("n", num n); ("strategy", VStr "fast-doubling")] 0) in
    result ← fastDoubling n;
    let steps := push steps (mkStep "complete"
      [("n", num n); ("result", toString (VBig result));
       ("mode", VStr "computation-only")] 0) in
    Some steps
  else if isIterative strategy then
    let steps := push steps (mkStep "init-dp"
      [("dp", VArr [num 0; num 1]); ("n", num n);
       ("strategy", VStr "iterative")] 6) in
    let sampleRate := iterativeSampleRate mode n detailLevel in
    let '(a, b, steps) :=
      forLoop (Z.to_nat (n - 1)) 2 (iterativeBody sampleRate n)
              (Int 0, Int 1, steps) in
    let steps := push steps (mkStep "complete"
      [("n", num n); ("result", VNum b); ("dp", VArr [VNum a; VNum b])] 14) in
    Some steps
  else
    '(dp, steps) ← dpLoop mode detailLevel n steps;
    if n >? MAX_DP_ARRAY_SIZE then
      result ← fastDoubling n;
      Some (push steps (mkStep "complete"
        [("n", num n); ("result", toString (VBig result));
         ("dp", mapToString dp); ("mode", VStr "computation-only")] 14))
    else
      txt ← toStringM (get dp n);
      Some (push steps (mkStep "complete"
        [("n", num n); ("result", txt); ("dp", mapToString dp)] 14)).

(** [fibonacciRunner.validateInput] *)
Definition validateInput (input : Input.t) : ValidationResult :=
  if Input.n input <? 0 then Invalid "N must be a non-negative integer"
  else if Input.n input >? 1000000 then
    Invalid "N must be less than 1,000,000 for safety"
  else match Input.detailLevel input with
       | Some d =>
           if (d <? 0) || (d >? 100)
           then Invalid "Detail level must be between 0 and 100"
           else Valid
       | None => Valid
       end.

(** The table that a run shows in its last step (the field [dp] of the
    closing step), if it shows one. *)
Definition finalTable (input : Input.t) : option (list value) :=
  t ← generateSteps input;
  s ← last t;
  match field "dp" (payload s) with
  | Some (VArr l) => Some l
  | _ => None
  end.

(** The cell at index [i] of that table: what the run has stored at index
    [i]; [None] when the run shows no table or the table has no cell [i]. *)
Definition tabulated (input : Input.t) (i : Z) : option value :=
  l ← finalTable input;
  if i <? 0 then None else l !! Z.to_nat i.

(** The [result] that a run reports in its last step. *)
Definition reported (input : Input.t) : option value :=
  t ← generateSteps input;
  s ← last t;
  field "result" (payload s).

(** A cell of the table: a bigint when [useBigInt], a number otherwise. *)
Definition cell (useBigInt : bool) (z : Z) : value :=
  if useBigInt then VBig z else num z.

(** Loop invariant of the dp-array path before round [i]: the table has its
    initial size or has grown to [i] cells, and the cells below [i] hold the
    Fibonacci numbers. *)
Definition dpInv (n i : Z) (s : list value * Trace) : Prop :=
  2 ≤ i
  ∧ length s.1
    = (Z.to_nat (Z.min (n + 1) MAX_DP_ARRAY_SIZE) `max` Z.to_nat i)%nat
  ∧ ∀ j : nat, (j < Z.to_nat i)%nat → s.1 !! j = Some (cell (n >? 78) (fib j)).

(** Numbers of [compute] and of [store] steps of a run. *)
Definition sampledSteps (input : Input.t) : option (nat * nat) :=
  (λ t, (countKind "compute" t, countKind "store" t)) <$> generateSteps input.

(** Order on strides; [Infinity] is the largest. *)
Definition rateLe (r1 r2 : Rate) : Prop :=
  match r1, r2 with
  | Finite a, Finite b => a ≤ b
  | _, Infinite => True
  | Infinite, Finite _ => False
  end.

End Fibonacci.

(** ** N-Queens runner *)

Module NQueens.
Import Js.
Local Open Scope Z_scope.

Inductive Mode := full | sampling | fast_solve.

Definition modeName (m : Mode) : string :=
  match m with
  | full => "full"
  | sampling => "sampling"
  | fast_solve => "fast-solve"
  end.

(** [NQueensInput]; [n] and [maxSolutions] are integers.  [validateInput]
    checks [Number.isInteger] for [n] only: the inputs whose [maxSolutions]
    is a fraction are outside the model. *)
Module Input.
Record t := mk {
  n : Z;
  maxSolutions : option Z;
  mode : option Mode;
  useBitmask : option bool;
}.
End Input.

Definition MAX_N : Z := 20.

(** [isSafeBitmask]; [!(x & m)] holds when the masked bits are zero. *)
Definition isSafeBitmask (row col cols diag1 diag2 : Z) : bool :=
  let colMask := shl 1 col in
  let diag1Mask := shl 1 (row - col + MAX_N) in
  let diag2Mask := shl 1 (row + col) in
  (band cols colMask =? 0) && (band diag1 diag1Mask =? 0)
  && (band diag2 diag2Mask =? 0).

(** The loop of [isSafeTraditional] from index [i], [count] rows to go.  An
    [undefined] cell compares unequal to everything. *)
Fixpoint isSafeFrom (count : nat) (i row col : Z) (board : list Z) : bool :=
  match count with
  | O => true
  | S count' =>
      match board !! Z.to_nat i with
      | Some c =>
          if c =? col then false
          else if Z.abs (c - col) =? Z.abs (i - row) then false
          else isSafeFrom count' (i + 1) row col board
      | None => isSafeFrom count' (i + 1) row col board
      end
  end.

(** [isSafeTraditional]: [for (let i = 0; i < row; i++)]. *)
Definition isSafeTraditional (row col : Z) (board : list Z) : bool :=
  isSafeFrom (Z.to_nat row) 0 row col board.

(** The variables that the two solvers close over and mutate. *)
Record Solver := mkSolver {
  board : list Z;
  solutions : list (list Z);
  steps : Trace;
  stepCount : Z;
}.

Definition emit (s : VisualizationStep) (st : Solver) : Solver :=
  mkSolver (board st) (solutions st) (push (steps st) s) (stepCount st).

(** [board[row] = col]; [row] is always an index of the board. *)
Definition setBoard (row col : Z) (st : Solver) : Solver :=
  mkSolver (<[Z.to_nat row := col]> (board st)) (solutions st) (steps st)
           (stepCount st).

(** [stepCount++] *)
Definition tick (st : Solver) : Solver :=
  mkSolver (board st) (solutions st) (steps st) (stepCount st + 1).

Definition boardValue (b : list Z) : value := VArr (num <$> b).

Definition isFull (m : Mode) : bool := if m is full then true else false.
Definition isSampling (m : Mode) : bool := if m is sampling then true else false.

Section Solvers.
Variables (n maxSolutions : Z) (mode : Mode).

Definition MAX_STEPS : Z :=
  match mode with
  | full => 100000
  | sampling => 50000
  | fast_solve => 10000
  end.

Definition samplingInterval : Z :=
  if isSampling mode then Z.max 1 (n / 4) else 1.

Definition shouldSample (row : Z) : bool :=
  isFull mode
  || (isSampling mode
      && ((Z.rem row samplingInterval =? 0) || (row =? 0) || (row =? n - 1))).

Definition shouldCheck (col : Z) : bool :=
  isFull mode || (Z.rem col (Z.max 1 (n / 4)) =? 0) || (col =? 0)
  || (col =? n - 1).

(** The branch [row === n] of both solvers. *)
Definition foundSolution (st : Solver) : bool * Solver :=
  let sols := solutions st ++ [board st] in
  let st := mkSolver (board st) sols (steps st) (stepCount st) in
  let st := emit (mkStep "solution-found"
    [("board", boardValue (board st)); ("n", num n);
     ("solutionNumber", num (Z.of_nat (length sols)))] 16) st in
  (Z.of_nat (length sols) >=? maxSolutions, st).

Definition stepLimitStep (st : Solver) : VisualizationStep :=
  mkStep "step-limit"
    [("n", num n); ("solutionsFound", num (Z.of_nat (length (solutions st))))] 0.

Definition rowStep (k : string) (row : Z) (line : Z) (st : Solver)
    : VisualizationStep :=
  mkStep k [("row", num row); ("board", boardValue (board st)); ("n", num n)] line.

Definition cellStep (k : string) (row col : Z) (line : Z) (st : Solver)
    : VisualizationStep :=
  mkStep k [("row", num row); ("col", num col);
            ("board", boardValue (board st)); ("n", num n)] line.

Definition checkSafeStep (row col : Z) (safe : bool) (st : Solver)
    : VisualizationStep :=
  mkStep "check-safe"
    [("row", num row); ("col", num col); ("safe", VBool safe);
     ("board", boardValue (board st)); ("n", num n)] 21.

Definition emitIf (b : bool) (s : Solver → VisualizationStep) (st : Solver)
    : Solver :=
  if b then emit (s st) st else st.

(** The loop [for (let col = 0; col < n; col++)] of [solveTraditional(row)],
    [left = n - col] rounds to go; [descend] is the call
    [solveTraditional(row + 1)]. *)
Fixpoint traditionalColumns (descend : Solver → bool * Solver) (row : Z)
    (sample : bool) (left : nat) (col : Z) (st : Solver) {struct left}
    : bool * Solver :=
  match left with
  | O => (false, st)
  | S left' =>
      let check := shouldCheck col in
      let st := emitIf (check && sample) (cellStep "try-col" row col 20) st in
      let safe := isSafeTraditional row col (board st) in
      let st := emitIf (check && sample) (checkSafeStep row col safe) st in
      if safe then
        let st := setBoard row col st in
        let st := emitIf sample (cellStep "place-queen" row col 22) st in
        let '(stop, st) := descend st in
        if stop then (true, st)
        else
          let st := setBoard row (-1) st in
          let st := emitIf sample (cellStep "backtrack" row col 24) st in
          traditionalColumns descend row sample left' (col + 1) st
      else traditionalColumns descend row sample left' (col + 1) st
  end.

(** [solveTraditional(row)], by recursion on the rows left: [rem = n - row],
    so that [rem = 0] is the test [row === n]. *)
Fixpoint solveTraditional (rem : nat) (st : Solver) {struct rem} : bool * Solver :=
  let row := n - Z.of_nat rem in
  match rem with
  | O => foundSolution st
  | S rem' =>
      if stepCount st >? MAX_STEPS then
        let st := tick st in
        (true, emit (stepLimitStep st) st)
      else
        let st := tick st in
        let sample := shouldSample row in
        let st := emitIf sample (rowStep "try-row" row 14) st in
        traditionalColumns (solveTraditional rem') row sample (Z.to_nat n) 0 st
  end.

(** The column loop of [solveBitmask(row, cols, diag1, diag2)]; [descend] is
    the call [solveBitmask(row + 1, newCols, newDiag1, newDiag2)]. *)
Fixpoint bitmaskColumns (descend : Z → Z → Z → Solver → bool * Solver)
    (row cols diag1 diag2 : Z) (sample : bool) (left : nat) (col : Z)
    (st : Solver) {struct left} : bool * Solver :=
  match left with
  | O => (false, st)
  | S left' =>
      if isSafeBitmask row col cols diag1 diag2 then
        let st := setBoard row col st in
        let st := emitIf sample (cellStep "place-queen" row col 22) st in
        let newCols := bor cols (shl 1 col) in
        let newDiag1 := bor diag1 (shl 1 (row - col + MAX_N)) in
        let newDiag2 := bor diag2 (shl 1 (row + col)) in
        let '(stop, st) := descend newCols newDiag1 newDiag2 st in
        if stop then (true, st)
        else
          let st := setBoard row (-1) st in
          let st := emitIf sample (cellStep "backtrack" row col 24) st in
          bitmaskColumns descend row cols diag1 diag2 sample left' (col + 1) st
      else bitmaskColumns descend row cols diag1 diag2 sample left' (col + 1) st
  end.

(** [solveBitmask(row, cols, diag1, diag2)], by the same recursion. *)
Fixpoint solveBitmask (rem : nat) (cols diag1 diag2 : Z) (st : Solver)
    {struct rem} : bool * Solver :=
  let row := n - Z.of_nat rem in
  match rem with
  | O => foundSolution st
  | S rem' =>
      if stepCount st >? MAX_STEPS then
        let st := tick st in
        (true, emit (stepLimitStep st) st)
      else
        let st := tick st in
        let sample := shouldSample row in
        let st := emitIf sample (rowStep "try-row" row 14) st in
        bitmaskColumns (solveBitmask rem') row cols diag1 diag2 sample
                       (Z.to_nat n) 0 st
  end.

End Solvers.

(** [Math.min(input.n, MAX_N)] *)
Definition effectiveN (input : Input.t) : Z := Z.min (Input.n input) MAX_N.

(** [input.maxSolutions || 1]: absent and [0] both give [1]. *)
Definition effectiveMaxSolutions (input : Input.t) : Z :=
  match Input.maxSolutions input with
  | None => 1
  | Some m => if m =? 0 then 1 else m
  end.

Definition effectiveUseBitmask (input : Input.t) : bool :=
  match Input.useBitmask input with
  | Some b => b
  | None => effectiveN input >? 12
  end.

Definition effectiveMode (input : Input.t) : Mode :=
  match Input.mode input with
  | Some m => m
  | None =>
      if effectiveN input <=? 12 then full
      else if effectiveN input <=? 16 then sampling
      else fast_solve
  end.

Definition initStep (n maxSolutions : Z) (mode : Mode) (useBitmask : bool)
    : VisualizationStep :=
  mkStep "init"
    [("n", num n); ("board", boardValue (replicate (Z.to_nat n) (-1)));
     ("mode", VStr (modeName mode)); ("maxSolutions", num maxSolutions);
     ("useBitmask", VBool useBitmask)] 0.

Definition noSolutionStep (n : Z) : VisualizationStep :=
  mkStep "no-solution" [("n", num n)] 29.

Definition completeStep (n : Z) (st : Solver) : VisualizationStep :=
  mkStep "complete"
    [("board", boardValue (match solutions st with
                           | s :: _ => s
                           | [] => board st
                           end));
     ("n", num n);
     ("solutionFound", VBool (bool_decide (0 < length (solutions st))%nat));
     ("solutionsCount", num (Z.of_nat (length (solutions st))));
     ("allSolutions", VArr (boardValue <$> solutions st))] 30.

(** The solver state after the search (source lines 64-239). *)
Definition search (n maxSolutions : Z) (mode : Mode) (useBitmask : bool)
    (steps : Trace) : Solver :=
  let st := mkSolver (replicate (Z.to_nat n) (-1)) [] steps 0 in
  if useBitmask && negb (isFull mode) then
    snd (solveBitmask n maxSolutions mode (Z.to_nat n) 0 0 0 st)
  else
    snd (solveTraditional n maxSolutions mode (Z.to_nat n) st).

(** [nQueensRunner.generateSteps]; [Array(n)] throws a RangeError for a
    negative [n]: [None]. *)
Definition generateSteps (input : Input.t) : option Trace :=
  let n := effectiveN input in
  let maxSolutions := effectiveMaxSolutions input in
  let useBitmask := effectiveUseBitmask input in
  let mode := effectiveMode input in
  if n <? 0 then None
  else
    let steps0 := push [] (initStep n maxSolutions mode useBitmask) in
    let st := search n maxSolutions mode useBitmask steps0 in
    let st := if bool_decide (length (solutions st) = 0%nat)
              then emit (noSolutionStep n) st else st in
    let st := emit (completeStep n st) st in
    Some (steps st).

(** [nQueensRunner.validateInput] *)
Definition validateInput (input : Input.t) : ValidationResult :=
  if (Input.n input =? 0) || (Input.n input <? 1) then
    Invalid "N must be a positive integer"
  else if Input.n input >? MAX_N then
    Invalid "N must be at most 20 for safety"
  else match Input.maxSolutions input with
       | Some m =>
           if (m <? 1) || (m >? 100)
           then Invalid "Max solutions must be between 1 and 100"
           else Valid
       | None => Valid
       end.

(** Number of solutions found by a run: its [solution-found] steps. *)
Definition solutionsFound (input : Input.t) : option nat :=
  countKind "solution-found" <$> generateSteps input.

(** The [solutionsCount] reported by the last step of a trace. *)
Definition reportedCount (t : Trace) : option value :=
  s ← last t; field "solutionsCount" (payload s).

(** The kinds of the last [k] steps of a trace. *)
Definition lastKinds (k : nat) (t : Trace) : list string :=
  drop (length t - k) (kinds t).

(** [st'] continues [st]: its trace is the trace of [st] followed by steps
    that all satisfy [P]. *)
Definition continues (P : VisualizationStep → Prop) (st st' : Solver) : Prop :=
  ∃ ext, steps st' = steps st ++ ext ∧ Forall P ext.

(** Number of cells of the board snapshot of a step, when it has one. *)
Definition boardSize (s : VisualizationStep) : option nat :=
  match field "board" (payload s) with
  | Some (VArr cells) => Some (length cells)
  | _ => None
  end.

(** A step that reports the board size [n], and whose board snapshot, when
    it has one, has [n] cells. *)
Definition reportsSize (n : Z) (s : VisualizationStep) : Prop :=
  field "n" (payload s) = Some (num n)
  ∧ (boardSize s = None ∨ boardSize s = Some (Z.to_nat n)).

(** The board and the solutions found so far have [n] cells each. *)
Definition sized (n : Z) (st : Solver) : Prop :=
  length (board st) = Z.to_nat n
  ∧ Forall (λ b, length b = Z.to_nat n) (solutions st).

(** From a sized state, [st'] is sized again and continues [st] with steps
    that report the size [n]. *)
Definition advances (n : Z) (st st' : Solver) : Prop :=
  sized n st → sized n st' ∧ continues (reportsSize n) st st'.

(** The input that a run really works on. *)
Definition clamped (input : Input.t) : Input.t :=
  Input.mk (effectiveN input) (Some (effectiveMaxSolutions input))
           (Input.mode input) (Input.useBitmask input).

End NQueens.

(** ** Playback controller ([useVisualization]) *)

Module Playback.
Local Open Scope Z_scope.

Record AlgorithmStep := mkAlgorithmStep {
  id : Z;
  description : string;
  data : Js.value;
  highlight : option (list Z);
  isValid : option bool;
}.

Record AlgorithmResult := mkAlgorithmResult {
  success : bool;
  message : string;
  timeComplexity : string;
  spaceComplexity : string;
  iterations : Z;
  finalValue : option Js.value;
}.

Inductive PlaybackSpeed := slow | medium | fast.

Definition SPEED_MAP (s : PlaybackSpeed) : Z :=
  match s with
  | slow => 1500
  | medium => 800
  | fast => 300
  end.

Record VisualizationState := mkState {
  isPlaying : bool;
  isPaused : bool;
  currentStep : Z;
  totalSteps : Z;
  speed : PlaybackSpeed;
  steps : list AlgorithmStep;
  result : option AlgorithmResult;
}.

Definition initialState : VisualizationState :=
  mkState false false 0 0 medium [] None.

(** Each callback is the state update it passes to [setState]. *)
Definition setSteps (new : list AlgorithmStep) (prev : VisualizationState)
    : VisualizationState :=
  mkState (isPlaying prev) (isPaused prev) 0 (Z.of_nat (length new))
          (speed prev) new None.

Definition goToStep (stepIndex : Z) (prev : VisualizationState)
    : VisualizationState :=
  mkState (isPlaying prev) (isPaused prev)
          (Z.max 0 (Z.min stepIndex (totalSteps prev - 1)))
          (totalSteps prev) (speed prev) (steps prev) (result prev).

Definition nextStep (prev : VisualizationState) : VisualizationState :=
  if currentStep prev >=? totalSteps prev - 1 then
    mkState false (isPaused prev) (currentStep prev) (totalSteps prev)
            (speed prev) (steps prev) (result prev)
  else
    mkState (isPlaying prev) (isPaused prev) (currentStep prev + 1)
            (totalSteps prev) (speed prev) (steps prev) (result prev).

Definition prevStep (prev : VisualizationState) : VisualizationState :=
  mkState (isPlaying prev) (isPaused prev) (Z.max 0 (currentStep prev - 1))
          (totalSteps prev) (speed prev) (steps prev) (result prev).

Definition play (prev : VisualizationState) : VisualizationState :=
  mkState true false (currentStep prev) (totalSteps prev) (speed prev)
          (steps prev) (result prev).

Definition pause (prev : VisualizationState) : VisualizationState :=
  mkState false true (currentStep prev) (totalSteps prev) (speed prev)
          (steps prev) (result prev).

Definition reset (prev : VisualizationState) : VisualizationState :=
  mkState false false 0 (totalSteps prev) (speed prev) (steps prev) None.

Definition setSpeed (s : PlaybackSpeed) (prev : VisualizationState)
    : VisualizationState :=
  mkState (isPlaying prev) (isPaused prev) (currentStep prev)
          (totalSteps prev) s (steps prev) (result prev).

Definition setResult (r : AlgorithmResult) (prev : VisualizationState)
    : VisualizationState :=
  mkState (isPlaying prev) (isPaused prev) (currentStep prev)
          (totalSteps prev) (speed prev) (steps prev) (Some r).

(** The auto-play effect: while playing before the last step it arms the
    timer (delay [SPEED_MAP[state.speed]], callback [nextStep]); while
    playing at or past the last step it stops playback. *)
Definition timerDelay (st : VisualizationState) : option Z :=
  if isPlaying st && (currentStep st <? totalSteps st - 1)
  then Some (SPEED_MAP (speed st)) else None.

Definition autoPlayEffect (st : VisualizationState) : VisualizationState :=
  if isPlaying st && negb (currentStep st <? totalSteps st - 1) then
    mkState false (isPaused st) (currentStep st) (totalSteps st) (speed st)
            (steps st) (result st)
  else st.

(** [state.steps[state.currentStep] || null] *)
Definition currentStepData (st : VisualizationState) : option AlgorithmStep :=
  if currentStep st <? 0 then None else steps st !! Z.to_nat (currentStep st).

(** What can happen to the controller: a call of one of its callbacks, or
    the timer firing (which calls [nextStep]). *)
Inductive Op :=
| SetSteps (new : list AlgorithmStep)
| GoToStep (stepIndex : Z)
| NextStep
| PrevStep
| Play
| Pause
| Reset
| SetSpeed (s : PlaybackSpeed)
| SetResult (r : AlgorithmResult)
| TimerFires.

Definition perform (op : Op) (st : VisualizationState) : VisualizationState :=
  match op with
  | SetSteps new => setSteps new st
  | GoToStep i => goToStep i st
  | NextStep => nextStep st
  | PrevStep => prevStep st
  | Play => play st
  | Pause => pause st
  | Reset => reset st
  | SetSpeed s => setSpeed s st
  | SetResult r => setResult r st
  | TimerFires => nextStep st
  end.

(** A state update followed by the effect it triggers. *)
Definition dispatch (st : VisualizationState) (op : Op) : VisualizationState :=
  autoPlayEffect (perform op st).

Definition run (ops : list Op) (st : VisualizationState) : VisualizationState :=
  foldl dispatch st ops.

(** The controller is idle when it is neither playing nor paused. *)
Definition idle (st : VisualizationState) : Prop :=
  isPlaying st = false ∧ isPaused st = false.

(** The cursor is an index of the trace, or [0] when the trace is empty. *)
Definition cursorInRange (st : VisualizationState) : Prop :=
  totalSteps st = Z.of_nat (length (steps st))
  ∧ ((0 ≤ currentStep st < totalSteps st)
     ∨ (steps st = [] ∧ currentStep st = 0)).

End Playback.

(** ** The runner interface *)

Module Runner.

(** [AlgorithmRunner<TInput>] *)
Record AlgorithmRunner (TInput : Type) := mkRunner {
  getInitialInput : TInput;
  generateSteps : TInput → option Trace;
  validateInput : TInput → ValidationResult;
}.
Arguments getInitialInput {_} _.
Arguments generateSteps {_} _ _.
Arguments validateInput {_} _ _.

Definition fibonacciRunner : AlgorithmRunner Fibonacci.Input.t :=
  mkRunner _
    (Fibonacci.Input.mk 20 (Some Fibonacci.dp_array) (Some 50%Z)
                        (Some Fibonacci.full))
    Fibonacci.generateSteps Fibonacci.validateInput.

Definition nQueensRunner : AlgorithmRunner NQueens.Input.t :=
  mkRunner _
    (NQueens.Input.mk 8 (Some 1%Z) (Some NQueens.full) (Some false))
    NQueens.generateSteps NQueens.validateInput.

(** Modelled from the spec: the caller of a runner, whose code (the pages
    that own the Fibonacci and N-Queens panels) is not among the sources.
    Section 6 of the spec has callers call [validateInput] first, and
    section 7 has a validation failure surface before any computation, with
    no trace produced. *)
Definition validatedTrace {TInput} (runner : AlgorithmRunner TInput)
    (input : TInput) : ValidationResult * option Trace :=
  match validateInput runner input with
  | Valid => (Valid, generateSteps runner input)
  | Invalid error => (Invalid error, None)
  end.

(** A trace is closed when it is non-empty and its last step has one of the
    kinds [complete], [no-solution], [step-limit]. *)
Definition closed (t : Trace) : Prop :=
  t ≠ [] ∧ ∃ k, lastKind t = Some k ∧ terminalKind k.

(** An input is rejected: [validateInput] answers [{ valid: false, error }]
    and the caller gets no trace. *)
Definition rejected {TInput} (runner : AlgorithmRunner TInput)
    (input : TInput) : Prop :=
  ∃ error, validateInput runner input = Invalid error
           ∧ validatedTrace runner input = (Invalid error, None).

End Runner.

(** ** What a Fibonacci trace shows *)

Module FibonacciTrace.
Import Js Fibonacci.
Local Open Scope Z_scope.

(** The kind of a step, its index [i] and the value it stores. *)
Definition Digest : Type := string * option value * option value.

Definition digest (s : VisualizationStep) : Digest :=
  (kind s, field "i" (payload s), field "value" (payload s)).

(** The test [shouldSample] of the dp-array loop and of the iterative loop. *)
Definition dpSampled (mode : Mode) (sampleRate n i : Z) : bool :=
  isFull mode || (Z.rem i sampleRate =? 0) || (i =? n) || (i <=? 10).

Definition iterativeSampled (rate : Rate) (n i : Z) : bool :=
  onStride rate i || (i =? n) || (i <=? 10).

(** The test of the loop that an input runs. *)
Definition pathSampled (input : Input.t) (i : Z) : bool :=
  let n := Input.n input in
  let mode := effectiveMode input in
  let detailLevel := effectiveDetailLevel input in
  if isIterative (effectiveStrategy input)
  then iterativeSampled (iterativeSampleRate mode n detailLevel) n i
  else dpSampled mode (dpSampleRate mode n detailLevel) n i.

(** The indices [2..n] that pass a sampling test, in increasing order. *)
Definition sampledIndices (sampled : Z → bool) (n : Z) : list Z :=
  List.filter sampled (seqZ 2 (n - 1)).

(** The two steps of a sampled round. *)
Definition round (v : Z → value) (i : Z) : list Digest :=
  [("compute", Some (num i), None); ("store", Some (num i), Some (v i))].

(** The digest of a whole trace of the dp-array or iterative path. *)
Definition expected (sampled : Z → bool) (v : Z → value) (n : Z) : list Digest :=
  [("init", None, None); ("init-dp", None, None)]
  ++ flat_map (round v) (sampledIndices sampled n)
  ++ [("complete", None, None)].

(** The kind of a step and its index [i]. *)
Definition outline (s : VisualizationStep) : string * option value :=
  (kind s, field "i" (payload s)).

Definition expectedOutline (sampled : Z → bool) (n : Z)
    : list (string * option value) :=
  [("init", None); ("init-dp", None)]
  ++ flat_map (λ i, [("compute", Some (num i)); ("store", Some (num i))])
              (sampledIndices sampled n)
  ++ [("complete", None)].

(** The stride of the loop that an input runs. *)
Definition pathStride (input : Input.t) : Rate :=
  let n := Input.n input in
  let mode := effectiveMode input in
  let detailLevel := effectiveDetailLevel input in
  if isIterative (effectiveStrategy input)
  then iterativeSampleRate mode n detailLevel
  else Finite (dpSampleRate mode n detailLevel).

(** The number of indices from 1 to [n] that a stride reaches:
    [floor(n / stride)], and none for [Infinity]. *)
Definition strideCount (rate : Rate) (n : Z) : Z :=
  match rate with
  | Finite r => n / r
  | Infinite => 0
  end.

(** A number as the model tracks it. *)
Definition tracked (z : Z) : number :=
  if Z.abs z <=? MAX_EXACT then Int z else Untracked.

(** The text of the bigint or number that holds the [i]-th Fibonacci number
    in a table for [n]. *)
Definition cellText (n i : Z) : value :=
  toString (cell (n >? 78) (fib (Z.to_nat i))).

End FibonacciTrace.

(** ** What the N-Queens search is expected to produce *)

Module QueensSpec.
Import Js NQueens.
Local Open Scope Z_scope.

(** The queens at [(r1, c1)] and [(r2, c2)], in different rows, attack each
    other: same column or same diagonal. *)
Definition attacks (r1 c1 r2 c2 : Z) : Prop :=
  c1 = c2 ∨ Z.abs (c1 - c2) = Z.abs (r1 - r2).

(** The rows below [row] of a board hold queens in columns [0..n-1], no two
    of which attack each other. *)
Definition placed (n : Z) (row : nat) (b : list Z) : Prop :=
  (∀ i c, (i < row)%nat → b !! i = Some c → 0 ≤ c < n)
  ∧ ∀ i j ci cj, (i < j < row)%nat → b !! i = Some ci → b !! j = Some cj →
                 ¬ attacks (Z.of_nat i) ci (Z.of_nat j) cj.

(** A solution of the [n]-queens problem. *)
Definition validPlacement (n : Z) (b : list Z) : Prop :=
  length b = Z.to_nat n ∧ placed n (Z.to_nat n) b.

(** Bit [k mod 32] of a mask, the bit that [1 << k] sets. *)
Definition hasBit (mask k : Z) : bool := Z.testbit mask (k mod 32).

(** The three masks cover the queens of the rows below [row]. *)
Definition covered (row : nat) (b : list Z) (cols diag1 diag2 : Z) : Prop :=
  ∀ i c, (i < row)%nat → b !! i = Some c →
         hasBit cols c = true
         ∧ hasBit diag1 (Z.of_nat i - c + MAX_N) = true
         ∧ hasBit diag2 (Z.of_nat i + c) = true.

(** What a call of a solver at row [row] may assume, and what it ensures. *)
Definition searchPre (n : Z) (row : nat) (st : Solver) : Prop :=
  length (board st) = Z.to_nat n
  ∧ placed n row (board st)
  ∧ Forall (validPlacement n) (solutions st).

Definition searchPost (n : Z) (row : nat) (st st' : Solver) : Prop :=
  length (board st') = Z.to_nat n
  ∧ take row (board st') = take row (board st)
  ∧ Forall (validPlacement n) (solutions st').

(** The kinds of step that a search emits. *)
Definition searchKinds : list string :=
  ["try-row"; "try-col"; "check-safe"; "place-queen"; "backtrack";
   "solution-found"; "step-limit"].

(** The bookkeeping of a call that starts in [st] and returns [res]: it only
    appends steps of the search, one [solution-found] step per solution it
    records, a [step-limit] step only when it stops the search, and it never
    goes past the limit [M] on solutions. *)
Definition tally (M : Z) (st : Solver) (res : bool * Solver) : Prop :=
  ∃ ext,
    steps res.2 = steps st ++ ext
    ∧ Forall (λ s, kind s ∈ searchKinds) ext
    ∧ length (solutions res.2)
      = (length (solutions st) + countKind "solution-found" ext)%nat
    ∧ (countKind "step-limit" ext ≤ if res.1 then 1 else 0)%nat
    ∧ (Z.of_nat (length (solutions st)) < M →
       if res.1 then Z.of_nat (length (solutions res.2)) ≤ M
       else Z.of_nat (length (solutions res.2)) < M).

(** The masks hold no other bit than those of the queens of the rows below
    [row]. *)
Definition exact (row : nat) (b : list Z) (cols diag1 diag2 : Z) : Prop :=
  covered row b cols diag1 diag2
  ∧ ∀ k,
      (hasBit cols k = true →
       ∃ i c, (i < row)%nat ∧ b !! i = Some c ∧ c mod 32 = k mod 32)
      ∧ (hasBit diag1 k = true →
         ∃ i c, (i < row)%nat ∧ b !! i = Some c
                ∧ (Z.of_nat i - c + MAX_N) mod 32 = k mod 32)
      ∧ (hasBit diag2 k = true →
         ∃ i c, (i < row)%nat ∧ b !! i = Some c
                ∧ (Z.of_nat i + c) mod 32 = k mod 32).

(** The kinds of step that only the traditional solver emits. *)
Definition hidden : list string := ["try-col"; "check-safe"].

(** A state [sb] of the bitmask solver and a state [st] of the traditional
    solver at the same point of the search: same board, solutions and step
    count, and the bitmask solver has emitted, after [pb], the steps that the
    traditional solver has emitted after [pt], less the hidden ones. *)
Definition sameSearch (pb pt : Trace) (sb st : Solver) : Prop :=
  board sb = board st ∧ solutions sb = solutions st
  ∧ stepCount sb = stepCount st
  ∧ ∃ ext, steps st = pt ++ ext
           ∧ steps sb = pb ++ filter (λ s, kind s ∉ hidden) ext.

Definition sameResult (pb pt : Trace) (rb rt : bool * Solver) : Prop :=
  rb.1 = rt.1 ∧ sameSearch pb pt rb.2 rt.2.

(** An input with [useBitmask] set. *)
Definition withBitmask (b : bool) (input : Input.t) : Input.t :=
  Input.mk (Input.n input) (Input.maxSolutions input) (Input.mode input) (Some b).

End QueensSpec.

(** ** Tower of Hanoi

    The page [TowerOfHanoi] (the second document of
    [src/pages/algorithms/ClosestPair.tsx]): [generateHanoiSteps] and the
    numbers that [handleStart] reports. *)

Module Hanoi.
Local Open Scope Z_scope.

Record Disk := mkDisk { diskId : Z; size : Z }.

Record HanoiState := mkHanoiState {
  pegs : list (list Disk);
  moveFrom : Z;
  moveTo : Z;
  movingDisk : option Disk;
  recursionDepth : Z;
}.

(** An [AlgorithmStep] whose [data] is a [HanoiState]; the description is a
    text for the reader and is left out. *)
Record HanoiStep := mkHanoiStep {
  id : Z;
  data : HanoiState;
  isValid : bool;
}.

(** The variables that [solve] closes over: [pegs], [steps] and [stepId]. *)
Record Solver := mkSolver {
  curPegs : list (list Disk);
  steps : list HanoiStep;
  stepId : Z;
}.

(** [Array.prototype.pop]: the last element and the rest; [None] on an empty
    array, where [pop()] gives [undefined] and reading [disk.size] throws. *)
Definition pop (l : list Disk) : option (Disk * list Disk) :=
  d ← last l; Some (d, removelast l).

(** [solve(n, from, to, aux, depth)]; [None] is a TypeError. *)
Fixpoint solve (n : nat) (from to aux : nat) (depth : Z) (st : Solver)
    : option Solver :=
  match n with
  | O => Some st
  | S n' =>
      st ← solve n' from aux to (depth + 1) st;
      src ← curPegs st !! from;
      '(disk, rest) ← pop src;
      let pegs1 := <[from := rest]> (curPegs st) in
      dst ← pegs1 !! to;
      let valid := match last dst with
                   | None => true
                   | Some top => size top >? size disk
                   end in
      let pegs2 := <[to := dst ++ [disk]]> pegs1 in
      let step := mkHanoiStep (stepId st)
                    (mkHanoiState pegs2 (Z.of_nat from) (Z.of_nat to) (Some disk)
                                  depth)
                    valid in
      solve n' aux to from (depth + 1)
            (mkSolver pegs2 (steps st ++ [step]) (stepId st + 1))
  end.

(** [Array.from({ length: n }, (_, i) => ({ id: i, size: n - i }))] *)
Definition initialPeg (n : nat) : list Disk :=
  (λ i, mkDisk i (Z.of_nat n - i)) <$> seqZ 0 (Z.of_nat n).

(** [generateHanoiSteps(n)] for a number of disks [n]; the page calls it
    with an integer from 1 to 8. *)
Definition generateHanoiSteps (n : nat) : option (list HanoiStep) :=
  let pegs0 := [initialPeg n; []; []] in
  let first := mkHanoiStep 0 (mkHanoiState pegs0 (-1) (-1) None 0) true in
  st ← solve n 0 2 1 1 (mkSolver pegs0 [first] 1);
  Some (steps st).

(** The number of disks that [handleStart] uses:
    [Math.min(Math.max(parseInt(diskCount) || 3, 1), 8)], where [parsed] is
    the result of [parseInt], [None] for [NaN]. *)
Definition diskCountOf (parsed : option Z) : Z :=
  let v := match parsed with
           | None => 3
           | Some v => if v =? 0 then 3 else v
           end in
  Z.min (Z.max v 1) 8.

(** What [handleStart] passes on: the steps for [setSteps], and the
    [iterations] ([steps.length - 1]) and the number of moves
    ([Math.pow(2, n) - 1]) of the result. *)
Record Started := mkStarted {
  started : list HanoiStep;
  iterations : Z;
  moves : Z;
}.

Definition handleStart (parsed : option Z) : option Started :=
  let n := diskCountOf parsed in
  s ← generateHanoiSteps (Z.to_nat n);
  Some (mkStarted s (Z.of_nat (length s) - 1) (2 ^ n - 1)).

(** The [k] smallest of [n] disks, as they lie on a peg: sizes [k] down to
    [1]. *)
Definition stack (n : Z) (k : nat) : list Disk :=
  (λ i, mkDisk i (n - i)) <$> seqZ (n - Z.of_nat k) (Z.of_nat k).

(** The rule of the game on one peg: no disk lies on a smaller one. *)
Definition descending (l : list Disk) : Prop :=
  ∀ i j a b, (i < j)%nat → l !! i = Some a → l !! j = Some b → size b < size a.

(** A step that the rules allow, showing pegs that respect them. *)
Definition legal (s : HanoiStep) : Prop :=
  isValid s = true ∧ Forall descending (pegs (data s)).

(** A peg on which the disks of [stack n k] may be put. *)
Definition base (k : nat) (l : list Disk) : Prop :=
  descending l ∧ Forall (λ d, Z.of_nat k < size d) l.

(** Three different pegs. *)
Definition distinct (a b c : nat) : Prop := a ≠ b ∧ a ≠ c ∧ b ≠ c.

(** The three pegs of a state. *)
Definition layout (ps : list (list Disk)) (from to aux : nat)
    (pf pt pa : list Disk) : Prop :=
  length ps = 3%nat
  ∧ ps !! from = Some pf ∧ ps !! to = Some pt ∧ ps !! aux = Some pa.

(** The last step shows the pegs as they are. *)
Definition synced (st : Solver) : Prop :=
  (λ s, pegs (data s)) <$> last (steps st) = Some (curPegs st).

End Hanoi.

(** ** Tables of the dynamic-programming pages *)

Module Table.
Local Open Scope Z_scope.

(** [dp[i][w]] as an integer; [None] when the cell does not exist (the source
    reads [undefined] there and goes on with [NaN], or throws when the row
    does not exist). *)
Definition cellAt (t : list (list Z)) (i w : Z) : option Z :=
  if (i <? 0) || (w <? 0) then None
  else row ← t !! Z.to_nat i; row !! Z.to_nat w.

(** [dp[i][w] = v]; [None] is the TypeError of a missing row.  [w] is always
    an index of the row. *)
Definition setCell (t : list (list Z)) (i w v : Z) : option (list (list Z)) :=
  row ← t !! Z.to_nat i;
  Some (<[Z.to_nat i := <[Z.to_nat w := v]> row]> t).

(** [Array(rows).fill(null).map(() => Array(cols).fill(0))] *)
Definition zeros (rows cols : nat) : list (list Z) :=
  replicate rows (replicate cols 0).

(** The cell [(r, c)] of a table that is to hold [f r c], while row [i] is
    filled up to column [w]. *)
Definition expectedCell (f : nat → nat → Z) (i : nat) (w : Z) (r c : nat) : Z :=
  if (r <? i)%nat || ((r =? i)%nat && (Z.of_nat c <? w)) then f r c else 0.

Definition tableInv (rows cols : nat) (f : nat → nat → Z) (i : nat) (w : Z)
    (t : list (list Z)) : Prop :=
  length t = rows
  ∧ (∀ r row, t !! r = Some row → length row = cols)
  ∧ ∀ r c row, t !! r = Some row → (c < cols)%nat →
               row !! c = Some (expectedCell f i w r c).

End Table.

(** ** 0/1 Knapsack

    The page [Knapsack01] of [src/pages/algorithms/Knapsack01.tsx]:
    [generateKnapsackSteps].  Weights, values and table cells are integers;
    a sum that leaves the range in which doubles are exact ends the run of
    the model. *)

Module Knapsack.
Import Js Table.
Local Open Scope Z_scope.

Record Item := mkItem { weight : Z; value : Z }.

Inductive Phase := building | backtracking | done.

Record KnapsackState := mkKnapsackState {
  items : list Item;
  dp : list (list Z);
  currentI : Z;
  currentW : Z;
  selectedItems : list Z;
  phase : Phase;
}.

(** An [AlgorithmStep] whose [data] is a [KnapsackState]; the description is
    a text for the reader and is left out. *)
Record KnapsackStep := mkKnapsackStep {
  id : Z;
  data : KnapsackState;
  isValid : bool;
}.

(** [a + b] on integers held by numbers; [None] when the sum is not tracked
    exactly. *)
Definition exactAdd (a b : Z) : option Z :=
  match numAdd (Int a) (Int b) with
  | Int s => Some s
  | Untracked => None
  end.

(** The variables that the loops update: [dp], [steps] and [stepId]. *)
Record Builder := mkBuilder {
  table : list (list Z);
  steps : list KnapsackStep;
  stepId : Z;
}.

Definition pushStep (st : KnapsackState) (b : Builder) : Builder :=
  mkBuilder (table b) (steps b ++ [mkKnapsackStep (stepId b) st true])
            (stepId b + 1).

Section Run.
Variables (its : list Item) (capacity : Z).

(** The body of the loop [for (let w = 1; w <= capacity; w++)] in row [i]. *)
Definition fillCell (i w : Z) (b : Builder) : option Builder :=
  item ← its !! Z.to_nat (i - 1);
  if weight item <=? w then
    prev ← cellAt (table b) (i - 1) (w - weight item);
    withItem ← exactAdd prev (value item);
    withoutItem ← cellAt (table b) (i - 1) w;
    t ← setCell (table b) i w (Z.max withItem withoutItem);
    cur ← cellAt t i w;
    above ← cellAt t (i - 1) w;
    let b := mkBuilder t (steps b) (stepId b) in
    if bool_decide (cur ≠ above)
    then Some (pushStep (mkKnapsackState its t i w [] building) b)
    else Some b
  else
    above ← cellAt (table b) (i - 1) w;
    t ← setCell (table b) i w above;
    Some (mkBuilder t (steps b) (stepId b)).

(** The body of the loop [for (let i = 1; i <= n; i++)]. *)
Definition fillRow (i : Z) (b : Builder) : option Builder :=
  forLoopM (Z.to_nat capacity) 1 (fillCell i) b.

(** The loop [for (let i = n; i > 0 && w > 0; i--)], by recursion on [i];
    the state is [w], [selectedItems] and the builder. *)
Fixpoint backtrack (i : nat) (w : Z) (sel : list Z) (b : Builder)
    : option (Z * list Z * Builder) :=
  match i with
  | O => Some (w, sel, b)
  | S i' =>
      if w >? 0 then
        cur ← cellAt (table b) (Z.of_nat i) w;
        above ← cellAt (table b) (Z.of_nat i - 1) w;
        if bool_decide (cur ≠ above) then
          item ← its !! i';
          let sel := sel ++ [Z.of_nat i - 1] in
          let w := w - weight item in
          backtrack i' w sel
            (pushStep (mkKnapsackState its (table b) (Z.of_nat i) w sel
                                       backtracking) b)
        else backtrack i' w sel b
      else Some (w, sel, b)
  end.

(** [generateKnapsackSteps(items, capacity)]; [Array(capacity + 1)] throws a
    RangeError for a length that is negative or above [2^32 - 1]. *)
Definition generateKnapsackSteps : option (list KnapsackStep) :=
  let n := length its in
  if (capacity + 1 <? 0) || (capacity + 1 >? 2 ^ 32 - 1) then None
  else
    let t0 := zeros (S n) (Z.to_nat (capacity + 1)) in
    let b := pushStep (mkKnapsackState its t0 (-1) (-1) [] building)
                      (mkBuilder t0 [] 0) in
    b ← forLoopM n 1 fillRow b;
    '(w, sel, b) ← backtrack n capacity [] b;
    let b := pushStep (mkKnapsackState its (table b) (-1) (-1) sel done) b in
    Some (steps b).

End Run.

(** *** What the table is expected to hold *)

Definition totalWeight (l : list Item) : Z := foldr (λ it s, weight it + s) 0 l.
Definition totalValue (l : list Item) : Z := foldr (λ it s, value it + s) 0 l.

(** The sum of the absolute values, a bound on every sum of the run. *)
Definition mass (l : list Item) : Z := foldr (λ it s, Z.abs (value it) + s) 0 l.

(** The best value of a selection among [l] (the items considered so far,
    last one first) of total weight at most [w]. *)
Fixpoint bestRev (l : list Item) (w : Z) : Z :=
  match l with
  | [] => 0
  | it :: l' =>
      if weight it <=? w
      then Z.max (bestRev l' (w - weight it) + value it) (bestRev l' w)
      else bestRev l' w
  end.

(** The best value with the first [i] items and capacity [w]. *)
Definition best (its : list Item) (i : nat) (w : Z) : Z :=
  bestRev (reverse (take i its)) w.

(** The items at the indices [sel]. *)
Definition pick (its : list Item) (sel : list Z) : list Item :=
  omap (λ j, its !! Z.to_nat j) sel.

(** What the table is to hold in row [r], column [c]. *)
Definition bestCell (its : list Item) (r c : nat) : Z := best its r (Z.of_nat c).

(** The table of a run, while row [i] is filled up to column [w]. *)
Definition knapsackInv (its : list Item) (capacity : Z)
    : nat → Z → list (list Z) → Prop :=
  tableInv (S (length its)) (Z.to_nat (capacity + 1)) (bestCell its).

(** The indices [sel] are indices from [lo] up to [hi] (excluded), listed in
    strictly decreasing order: no index occurs twice. *)
Definition descendingIndices (lo hi : Z) (sel : list Z) : Prop :=
  Forall (λ j, lo ≤ j < hi) sel
  ∧ ∀ p q a b, (p < q)%nat → sel !! p = Some a → sel !! q = Some b → b < a.

(** What the selection [sel] made above row [i] has left to explain, with
    [w] of the capacity still free. *)
Definition selecting (its : list Item) (capacity : Z) (i : nat) (w : Z)
    (sel : list Z) : Prop :=
  reverse (pick its sel) `sublist_of` drop i its
  ∧ length (pick its sel) = length sel
  ∧ totalWeight (pick its sel) + w = capacity
  ∧ totalValue (pick its sel) + best its i w
    = best its (length its) capacity
  ∧ 0 ≤ w ≤ capacity
  ∧ descendingIndices (Z.of_nat i) (Z.of_nat (length its)) sel.

(** A selection of items, each taken at most once (the indices [sel] are
    indices of items in strictly decreasing order), that fits in the
    capacity and is worth [opt]. *)
Definition achieves (its : list Item) (capacity : Z) (sel : list Z) (opt : Z)
    : Prop :=
  descendingIndices 0 (Z.of_nat (length its)) sel
  ∧ reverse (pick its sel) `sublist_of` its
  ∧ length (pick its sel) = length sel
  ∧ totalWeight (pick its sel) ≤ capacity
  ∧ totalValue (pick its sel) = opt.

End Knapsack.

(** ** Longest common subsequence

    The page [LCS] (the second document of
    [src/pages/algorithms/OptimalMerge.tsx]): [generateLCSSteps].  A string
    is the list of its UTF-16 code units; the cells of the table are at most
    the length of a string, where doubles are exact. *)

Module Lcs.
Import Js Table.
Local Open Scope Z_scope.

Inductive Phase := building | backtracking | done.

Record LCSState := mkLCSState {
  str1 : list Z;
  str2 : list Z;
  dp : list (list Z);
  currentI : Z;
  currentJ : Z;
  lcs : list Z;
  matchedIndices : list (Z * Z);
  phase : Phase;
}.

(** An [AlgorithmStep] whose [data] is an [LCSState]; the description is a
    text for the reader and is left out. *)
Record LCSStep := mkLCSStep {
  id : Z;
  data : LCSState;
  isValid : bool;
}.

(** [s[i]]; [None] is [undefined]. *)
Definition charAt (s : list Z) (i : Z) : option Z :=
  if i <? 0 then None else s !! Z.to_nat i.

(** The variables that the loops update: [dp], [steps] and [stepId]. *)
Record Builder := mkBuilder {
  table : list (list Z);
  steps : list LCSStep;
  stepId : Z;
}.

Definition pushStep (st : LCSState) (b : Builder) : Builder :=
  mkBuilder (table b) (steps b ++ [mkLCSStep (stepId b) st true]) (stepId b + 1).

Section Run.
Variables (s1 s2 : list Z).

(** The body of the loop [for (let j = 1; j <= n; j++)] in row [i]. *)
Definition fillCell (i j : Z) (b : Builder) : option Builder :=
  if bool_decide (charAt s1 (i - 1) = charAt s2 (j - 1)) then
    d ← cellAt (table b) (i - 1) (j - 1);
    t ← setCell (table b) i j (d + 1);
    Some (pushStep (mkLCSState s1 s2 t i j [] [] building)
                   (mkBuilder t (steps b) (stepId b)))
  else
    up ← cellAt (table b) (i - 1) j;
    left ← cellAt (table b) i (j - 1);
    t ← setCell (table b) i j (Z.max up left);
    Some (mkBuilder t (steps b) (stepId b)).

(** The body of the loop [for (let i = 1; i <= m; i++)]. *)
Definition fillRow (i : Z) (b : Builder) : option Builder :=
  forLoopM (length s2) 1 (fillCell i) b.

(** The loop [while (i > 0 && j > 0)], [fuel] rounds at most; the state is
    [i], [j], [lcs], [matchedIndices] and the builder.  [None] when the fuel
    runs out or a cell does not exist. *)
Fixpoint backtrack (fuel : nat) (i j : Z) (l : list Z) (matched : list (Z * Z))
    (b : Builder) : option (list Z * list (Z * Z) * Builder) :=
  if (i >? 0) && (j >? 0) then
    match fuel with
    | O => None
    | S fuel' =>
        if bool_decide (charAt s1 (i - 1) = charAt s2 (j - 1)) then
          ch ← charAt s1 (i - 1);
          let l := ch :: l in
          let matched := (i - 1, j - 1) :: matched in
          let b := pushStep (mkLCSState s1 s2 (table b) i j l matched
                                        backtracking) b in
          backtrack fuel' (i - 1) (j - 1) l matched b
        else
          up ← cellAt (table b) (i - 1) j;
          left ← cellAt (table b) i (j - 1);
          if up >? left then backtrack fuel' (i - 1) j l matched b
          else backtrack fuel' i (j - 1) l matched b
    end
  else Some (l, matched, b).

(** [generateLCSSteps(str1, str2)]; [Array(len)] throws a RangeError for a
    length above [2^32 - 1].  Every round of the [while] loop lowers [i] or
    [j], so that [m + n] rounds are enough. *)
Definition generateLCSSteps : option (list LCSStep) :=
  let m := length s1 in
  let n := length s2 in
  if (Z.of_nat m + 1 >? 2 ^ 32 - 1) || (Z.of_nat n + 1 >? 2 ^ 32 - 1) then None
  else
    let t0 := zeros (S m) (S n) in
    let b := pushStep (mkLCSState s1 s2 t0 (-1) (-1) [] [] building)
                      (mkBuilder t0 [] 0) in
    b ← forLoopM m 1 fillRow b;
    '(l, matched, b) ← backtrack (m + n) (Z.of_nat m) (Z.of_nat n) [] [] b;
    let b := pushStep (mkLCSState s1 s2 (table b) (-1) (-1) l matched done) b in
    Some (steps b).

End Run.

(** *** What the table is expected to hold *)

(** The length of a longest common subsequence of two strings, read from
    their ends. *)
Fixpoint lcsRev (xs : list Z) : list Z → Z :=
  match xs with
  | [] => λ _, 0
  | x :: xs' =>
      fix inner (ys : list Z) : Z :=
        match ys with
        | [] => 0
        | y :: ys' =>
            if bool_decide (x = y) then lcsRev xs' ys' + 1
            else Z.max (lcsRev xs' (y :: ys')) (inner ys')
        end
  end.

(** The same for the first [i] code units of [s1] and the first [j] of
    [s2]. *)
Definition lcsLen (s1 s2 : list Z) (i j : nat) : Z :=
  lcsRev (reverse (take i s1)) (reverse (take j s2)).

Definition lcsInv (s1 s2 : list Z) : nat → Z → list (list Z) → Prop :=
  tableInv (S (length s1)) (S (length s2)) (lcsLen s1 s2).

(** What the subsequence [l] found below row [i] and column [j] has left to
    explain. *)
Definition tracing (s1 s2 : list Z) (i j : Z) (l : list Z)
    (matched : list (Z * Z)) : Prop :=
  0 ≤ i ≤ Z.of_nat (length s1) ∧ 0 ≤ j ≤ Z.of_nat (length s2)
  ∧ l `sublist_of` drop (Z.to_nat i) s1
  ∧ l `sublist_of` drop (Z.to_nat j) s2
  ∧ Z.of_nat (length l) + lcsLen s1 s2 (Z.to_nat i) (Z.to_nat j)
    = lcsLen s1 s2 (length s1) (length s2)
  ∧ l = omap (λ p, charAt s1 p.1) matched
  ∧ l = omap (λ p, charAt s2 p.2) matched
  ∧ length matched = length l.

(** A common subsequence of the length that the table announces, with the
    indices at which it is found in both strings. *)
Definition traced (s1 s2 : list Z) (l : list Z) (matched : list (Z * Z))
    (len : Z) : Prop :=
  l `sublist_of` s1 ∧ l `sublist_of` s2
  ∧ Z.of_nat (length l) = len
  ∧ l = omap (λ p, charAt s1 p.1) matched
  ∧ l = omap (λ p, charAt s2 p.2) matched
  ∧ length matched = length l.

End Lcs.

(** ** Input panels

    [handleApply] of [FibonacciInputPanel], [handleApply] and [handlePreset]
    of [NQueensInputPanel].  The text of the field [n] enters through the
    result of [parseInt]: an integer, or [None] for [NaN]; the other fields
    are the state of the panel. *)

(** What a handler does: it shows an error, or passes an input on to
    [onInputChange]. *)
Inductive Outcome (A : Type) :=
| Rejected (error : string)
| Applied (input : A).
Arguments Rejected {A} error.
Arguments Applied {A} input.

(** What [validateInput] of a runner makes of an input. *)
Definition checked {A} (validate : A → ValidationResult) (input : A)
    : Outcome A :=
  match validate input with
  | Valid => Applied input
  | Invalid error => Rejected error
  end.

Module FibonacciPanel.
Import Fibonacci.
Local Open Scope Z_scope.

Definition handleApply (parsed : option Z) (strategy : Strategy)
    (detailLevel : Z) (mode : Mode) : Outcome Input.t :=
  match parsed with
  | None => Rejected "N must be a non-negative integer"
  | Some nValue =>
      if nValue <? 0 then Rejected "N must be a non-negative integer"
      else if nValue >? 1000000 then
        Rejected "N must be less than 1,000,000 for safety"
      else Applied (Input.mk nValue (Some strategy) (Some detailLevel) (Some mode))
  end.

End FibonacciPanel.

Module QueensPanel.
Import NQueens.
Local Open Scope Z_scope.

Definition handleApply (parsed : option Z) (maxSolutions : Z) (mode : Mode)
    (useBitmask : bool) : Outcome Input.t :=
  match parsed with
  | None => Rejected "N must be a positive integer"
  | Some nValue =>
      if nValue <? 1 then Rejected "N must be a positive integer"
      else if nValue >? 20 then Rejected "N must be at most 20 for safety"
      else if (maxSolutions <? 1) || (maxSolutions >? 100) then
        Rejected "Max solutions must be between 1 and 100"
      else Applied (Input.mk nValue (Some maxSolutions) (Some mode)
                             (Some useBitmask))
  end.

Definition handlePreset (preset : Z) : Input.t :=
  Input.mk preset (Some 1)
    (Some (if preset <=? 12 then full
           else if preset <=? 16 then sampling else fast_solve))
    (Some (preset >? 12)).

End QueensPanel.

(** * Properties *)

(** ** Arrays and loops *)

Module JsFacts.
Import Js.

Section ArraySet.
Context {A : Type} (hole : A).
Implicit Types (l : list A) (i j : nat) (v : A).

Lemma arraySet_length l i v :
  length (arraySet hole l i v) = (length l `max` S i)%nat.
Proof.
  unfold arraySet. case_decide.
  - rewrite length_insert. lia.
  - rewrite !length_app, length_replicate. simpl. lia.
Qed.

Lemma arraySet_lookup_eq l i v : arraySet hole l i v !! i = Some v.
Proof.
  unfold arraySet. case_decide.
  - by apply list_lookup_insert_eq.
  - rewrite lookup_app_r by lia.
    rewrite lookup_app_r by (rewrite length_replicate; lia).
    rewrite length_replicate.
    by replace (i - length l - (i - length l))%nat with 0%nat by lia.
Qed.

Lemma arraySet_lookup_ne l i j v :
  (j < length l)%nat → i ≠ j → arraySet hole l i v !! j = l !! j.
Proof.
  intros Hj Hne. unfold arraySet. case_decide.
  - by apply list_lookup_insert_ne.
  - by apply lookup_app_l.
Qed.
End ArraySet.

(** A loop whose body keeps an invariant and never throws completes, and the
    invariant holds at the index it stops at. *)
Lemma forLoopM_invariant {T} (I : Z → T → Prop) (body : Z → T → option T)
    (hi : Z) :
  (∀ i s, (i < hi)%Z → I i s → ∃ s', body i s = Some s' ∧ I (i + 1)%Z s') →
  ∀ count i s,
    (i + Z.of_nat count ≤ hi)%Z → I i s →
    ∃ s', forLoopM count i body s = Some s' ∧ I (i + Z.of_nat count)%Z s'.
Proof.
  intros Hbody count. induction count as [|count IH]; intros i s Hle HI.
  - exists s. split; [done|]. by replace (i + Z.of_nat 0)%Z with i by lia.
  - destruct (Hbody i s) as (s' & Hs' & HI'); [lia|done|].
    destruct (IH (i + 1)%Z s') as (s'' & Hs'' & HI''); [lia|done|].
    exists s''. simpl. rewrite Hs'. split; [done|].
    by replace (i + Z.of_nat (S count))%Z with (i + 1 + Z.of_nat count)%Z by lia.
Qed.

Lemma forLoop_invariant {T} (I : Z → T → Prop) (body : Z → T → T) :
  (∀ i s, I i s → I (i + 1)%Z (body i s)) →
  ∀ count i s, I i s → I (i + Z.of_nat count)%Z (forLoop count i body s).
Proof.
  intros Hbody count. induction count as [|count IH]; intros i s HI.
  - simpl. by replace (i + Z.of_nat 0)%Z with i by lia.
  - simpl. replace (i + Z.of_nat (S count))%Z with (i + 1 + Z.of_nat count)%Z by lia.
    apply IH, Hbody, HI.
Qed.

End JsFacts.

(** ** Traces *)

Module TraceFacts.

Lemma lastKind_snoc (t : Trace) (s : VisualizationStep) :
  lastKind (t ++ [s]) = Some (kind s).
Proof. unfold lastKind. by rewrite last_snoc. Qed.

Lemma lastKind_push (t : Trace) (s : VisualizationStep) :
  lastKind (push t s) = Some (kind s).
Proof. apply lastKind_snoc. Qed.

Lemma push_not_nil (t : Trace) (s : VisualizationStep) : push t s ≠ [].
Proof. unfold push. by destruct t. Qed.

End TraceFacts.

(** ** Fibonacci: the three strategies *)

Module FibonacciFacts.
Import Js Fibonacci JsFacts TraceFacts.
Local Open Scope Z_scope.

Lemma fib_SS k : fib (S (S k)) = fib k + fib (S k).
Proof. unfold fib. simpl. by destruct (fibPair k). Qed.

Lemma fibPair_fib k : fibPair k = (fib k, fib (S k)).
Proof.
  induction k as [|k IH]; [done|].
  rewrite fib_SS. simpl. rewrite IH. done.
Qed.

Lemma fib_nonneg k : 0 ≤ fib k.
Proof.
  enough (0 ≤ fib k ∧ 0 ≤ fib (S k)) by tauto.
  induction k as [|k [IH1 IH2]]; [by compute|].
  rewrite fib_SS. lia.
Qed.

Lemma fib_le_S k : fib k ≤ fib (S k).
Proof.
  destruct k as [|k]; [by compute|].
  rewrite fib_SS. pose proof (fib_nonneg k). lia.
Qed.

Lemma fib_mono i j : (i ≤ j)%nat → fib i ≤ fib j.
Proof.
  induction 1 as [|j _ IH]; [lia|]. pose proof (fib_le_S j). lia.
Qed.

(** The addition law, from which both doubling identities follow. *)
Lemma fib_add m k :
  fib (m + S k) = fib (S m) * fib (S k) + fib m * fib k.
Proof.
  enough (fib (m + S k) = fib (S m) * fib (S k) + fib m * fib k
          ∧ fib (S m + S k) = fib (S (S m)) * fib (S k) + fib (S m) * fib k)
    by tauto.
  induction m as [|m [IH1 IH2]].
  - split.
    + simpl (0 + S k)%nat. change (fib 1) with 1. change (fib 0) with 0. lia.
    + simpl (1 + S k)%nat. rewrite fib_SS.
      change (fib 2) with 1. change (fib 1) with 1. lia.
  - split; [done|].
    replace (S (S m) + S k)%nat with (S (S (m + S k))) by lia.
    rewrite fib_SS. replace (S (m + S k)) with (S m + S k)%nat by lia.
    rewrite IH1, IH2, (fib_SS (S m)), (fib_SS m). lia.
Qed.

Lemma fib_double_odd k : fib (S (2 * k)) = fib k * fib k + fib (S k) * fib (S k).
Proof.
  replace (S (2 * k)) with (k + S k)%nat by lia. rewrite fib_add. lia.
Qed.

Lemma fib_double_even k : fib (2 * k) = fib k * (2 * fib (S k) - fib k).
Proof.
  destruct k as [|k]; [done|].
  replace (2 * S k)%nat with (S k + S k)%nat by lia.
  rewrite fib_add, (fib_SS k). lia.
Qed.

Lemma fibHelperPos_fib p :
  fibHelperPos p = (fib (Pos.to_nat p), fib (S (Pos.to_nat p))).
Proof.
  induction p as [p IH|p IH|]; simpl fibHelperPos.
  - rewrite IH, Pos2Nat.inj_xI.
    rewrite (fib_SS (2 * Pos.to_nat p)), fib_double_odd, fib_double_even.
    f_equal; lia.
  - rewrite IH, Pos2Nat.inj_xO, fib_double_odd, fib_double_even.
    f_equal; lia.
  - done.
Qed.

Lemma fibHelper_fib k : fibHelper k = (fib (N.to_nat k), fib (S (N.to_nat k))).
Proof. destruct k as [|p]; [done|]. apply fibHelperPos_fib. Qed.

(** The recursion equation of the source: [fibHelper(k)] is computed from
    [fibHelper(Math.floor(k / 2))] and the parity of [k]. *)
Lemma fibHelper_unfold (k : N) :
  (2 ≤ k)%N →
  fibHelper k =
    let '(a, b) := fibHelper (k / 2) in
    let c := a * (2 * b - a) in
    let d := b * b + a * a in
    if (k mod 2 =? 0)%N then (c, d) else (d, c + d).
Proof.
  intros Hk. destruct k as [|[p|p|]]; [lia| | |lia].
  - assert (N.pos p~1 / 2 = N.pos p)%N as ->
      by (symmetry; apply (N.div_unique _ 2 _ 1); lia).
    assert (N.pos p~1 mod 2 = 1)%N as ->
      by (symmetry; apply (N.mod_unique _ 2 (N.pos p)); lia).
    done.
  - assert (N.pos p~0 / 2 = N.pos p)%N as ->
      by (symmetry; apply (N.div_unique _ 2 _ 0); lia).
    assert (N.pos p~0 mod 2 = 0)%N as ->
      by (symmetry; apply (N.mod_unique _ 2 (N.pos p)); lia).
    done.
Qed.

Lemma fastDoubling_fib n : 0 ≤ n → fastDoubling n = Some (fib (Z.to_nat n)).
Proof.
  intros Hn. unfold fastDoubling.
  destruct (Z.eqb_spec n 0) as [->|]; [done|].
  destruct (Z.eqb_spec n 1) as [->|]; [done|].
  destruct (Z.ltb_spec n 0); [lia|].
  rewrite fibHelper_fib. simpl. by rewrite Z_N_nat.
Qed.

Lemma iterativeFib_fib n : 0 ≤ n → iterativeFib n = fib (Z.to_nat n).
Proof.
  intros Hn. unfold iterativeFib.
  destruct (Z.leb_spec n 1).
  - assert (n = 0 ∨ n = 1) as [-> | ->] by lia; done.
  - pose proof (forLoop_invariant
      (λ i s, 2 ≤ i ∧ s = (fib (Z.to_nat (i - 2)), fib (Z.to_nat (i - 1))))
      (λ _ '(a, b), (b, a + b))) as Hloop.
    destruct (Hloop) with (count := Z.to_nat (n - 1)) (i := 2)
      (s := (0, 1)) as [_ ->]; [| by split |].
    + intros i s [Hi ->]. split; [lia|]. f_equal.
      * f_equal. lia.
      * replace (Z.to_nat (i + 1 - 1)) with (S (S (Z.to_nat (i - 2)))) by lia.
        replace (Z.to_nat (i - 1)) with (S (Z.to_nat (i - 2))) by lia.
        by rewrite fib_SS.
    + simpl. f_equal. lia.
Qed.

Lemma fib_78_exact : fib 78 ≤ MAX_EXACT.
Proof. by vm_compute. Qed.

Lemma get_lookup (dp : list value) (i : Z) (v : value) :
  0 ≤ i → dp !! Z.to_nat i = Some v → get dp i = v.
Proof.
  intros Hi Hv. unfold get. destruct (Z.ltb_spec i 0); [lia|]. by rewrite Hv.
Qed.

Lemma get_beyond (dp : list value) (i : Z) :
  Z.of_nat (length dp) ≤ i → get dp i = VUndef.
Proof.
  intros Hi. unfold get. destruct (Z.ltb_spec i 0); [done|].
  rewrite lookup_ge_None_2; [done|lia].
Qed.

Lemma toStringM_cell b z : toStringM (cell b z) = Some (toString (cell b z)).
Proof. by destruct b. Qed.

Lemma addCells_cell b x y :
  (b = false → Z.abs (x + y) ≤ MAX_EXACT) →
  addCells (cell b x) (cell b y) = Some (cell b (x + y)).
Proof.
  intros Hb. destruct b; [done|]. simpl. unfold numAdd.
  destruct (Z.leb_spec (Z.abs (x + y)) MAX_EXACT); [done|].
  specialize (Hb eq_refl). lia.
Qed.

Lemma dpInit_inv n steps : 0 ≤ n → dpInv n 2 (dpInit n, steps).
Proof.
  intros Hn. unfold dpInv, dpInit. simpl fst.
  set (L := Z.to_nat (Z.min (n + 1) MAX_DP_ARRAY_SIZE)).
  assert (1 ≤ L)%nat by (unfold L, MAX_DP_ARRAY_SIZE; lia).
  split; [lia|].
  destruct (n >? 78); simpl cell.
  - split.
    + rewrite !arraySet_length, length_replicate. lia.
    + intros [|[|j]] Hj; [| |lia].
      * rewrite arraySet_lookup_ne; [apply arraySet_lookup_eq| |done].
        rewrite !arraySet_length, length_replicate. lia.
      * apply arraySet_lookup_eq.
  - split.
    + rewrite !arraySet_length, length_replicate. lia.
    + intros [|[|j]] Hj; [| |lia].
      * rewrite arraySet_lookup_ne; [apply arraySet_lookup_eq| |done].
        rewrite !arraySet_length, length_replicate. lia.
      * apply arraySet_lookup_eq.
Qed.

(** One round of the dp-array loop never throws and keeps the invariant. *)
Lemma dpBody_inv mode rate n i s :
  i ≤ n → dpInv n i s →
  ∃ s', dpBody mode rate n i s = Some s' ∧ dpInv n (i + 1) s'.
Proof.
  intros Hin (Hi & Hlen & Hcells). destruct s as [dp steps]. simpl in *.
  set (b := n >? 78) in *.
  assert (get dp (i - 1) = cell b (fib (Z.to_nat (i - 1)))) as H1
    by (apply get_lookup; [lia|apply Hcells; lia]).
  assert (get dp (i - 2) = cell b (fib (Z.to_nat (i - 2)))) as H2
    by (apply get_lookup; [lia|apply Hcells; lia]).
  assert (fib (Z.to_nat (i - 1)) + fib (Z.to_nat (i - 2)) = fib (Z.to_nat i))
    as Hsum.
  { replace (Z.to_nat i) with (S (S (Z.to_nat (i - 2)))) by lia.
    replace (Z.to_nat (i - 1)) with (S (Z.to_nat (i - 2))) by lia.
    rewrite fib_SS. lia. }
  assert (addCells (get dp (i - 1)) (get dp (i - 2))
          = Some (cell b (fib (Z.to_nat i)))) as Hadd.
  { rewrite H1, H2, <- Hsum. apply addCells_cell. intros Hb.
    rewrite Hsum. pose proof (fib_nonneg (Z.to_nat i)).
    pose proof (fib_mono (Z.to_nat i) 78) as Hm. pose proof fib_78_exact.
    unfold b in Hb. destruct (Z.gtb_spec n 78); [done|].
    rewrite Z.abs_eq by done. etrans; [apply Hm; lia|done]. }
  set (dp' := arraySet VUndef dp (Z.to_nat i) (cell b (fib (Z.to_nat i)))).
  assert (get dp' i = cell b (fib (Z.to_nat i))) as Hnew
    by (apply get_lookup; [lia|apply arraySet_lookup_eq]).
  assert (dpInv n (i + 1) (dp', steps)) as Hinv'.
  { split; [lia|]. split; simpl.
    - unfold dp'. rewrite arraySet_length, Hlen. lia.
    - intros j Hj. destruct (decide (j = Z.to_nat i)) as [->|Hne].
      + apply arraySet_lookup_eq.
      + unfold dp'. rewrite arraySet_lookup_ne; [apply Hcells; lia|lia|done]. }
  unfold dpBody. rewrite Hadd, H1, H2, !toStringM_cell. simpl.
  fold dp'. rewrite Hnew, toStringM_cell.
  destruct (isFull mode || (Z.rem i rate =? 0) || (i =? n) || (i <=? 10));
    simpl; eexists; (split; [reflexivity|]);
    destruct Hinv' as (? & ? & ?); by repeat split.
Qed.

(** The dp-array loop completes; afterwards the cells up to
    [min(n, MAX_DP_ARRAY_SIZE)] hold the Fibonacci numbers. *)
Lemma dpLoop_spec mode detailLevel n steps :
  0 ≤ n →
  ∃ dp steps',
    dpLoop mode detailLevel n steps = Some (dp, steps')
    ∧ dpInv n (Z.max 2 (Z.min n MAX_DP_ARRAY_SIZE + 1)) (dp, steps').
Proof.
  intros Hn. unfold dpLoop.
  set (count := Z.to_nat (Z.min n MAX_DP_ARRAY_SIZE - 1)).
  set (steps0 := push steps _).
  destruct (forLoopM_invariant (dpInv n)
              (dpBody mode (dpSampleRate mode n detailLevel) n)
              (2 + Z.of_nat count)) with (count := count) (i := 2)
              (s := (dpInit n, steps0)) as ([dp steps'] & Hrun & Hinv).
  - intros i s Hi Hs. apply dpBody_inv; [|done].
    destruct Hs as (Hi2 & _). unfold count, MAX_DP_ARRAY_SIZE in Hi. lia.
  - lia.
  - by apply dpInit_inv.
  - exists dp, steps'. split; [done|].
    replace (Z.max 2 (Z.min n MAX_DP_ARRAY_SIZE + 1)) with (2 + Z.of_nat count);
      [done|unfold count, MAX_DP_ARRAY_SIZE; lia].
Qed.

Lemma dpLoop_cell mode detailLevel n steps :
  0 ≤ n ≤ MAX_DP_ARRAY_SIZE →
  ∃ dp steps', dpLoop mode detailLevel n steps = Some (dp, steps')
               ∧ get dp n = cell (n >? 78) (fib (Z.to_nat n)).
Proof.
  intros Hn.
  destruct (dpLoop_spec mode detailLevel n steps) as (dp & steps' & -> & Hinv);
    [lia|].
  exists dp, steps'. split; [done|]. destruct Hinv as (_ & _ & Hcells).
  apply get_lookup; [lia|]. apply Hcells. simpl. lia.
Qed.

Lemma dpLoop_capped mode detailLevel n steps :
  MAX_DP_ARRAY_SIZE < n →
  ∃ dp steps', dpLoop mode detailLevel n steps = Some (dp, steps')
               ∧ get dp n = VUndef.
Proof.
  intros Hn. unfold MAX_DP_ARRAY_SIZE in Hn.
  destruct (dpLoop_spec mode detailLevel n steps) as (dp & steps' & -> & Hinv);
    [lia|].
  exists dp, steps'. split; [done|]. destruct Hinv as (_ & Hlen & _).
  apply get_beyond. simpl in Hlen. unfold MAX_DP_ARRAY_SIZE in Hlen. lia.
Qed.

(** [generateSteps] returns a trace for every input, and the trace ends
    with a [complete] step. *)
Lemma generateSteps_complete (input : Input.t) :
  ∃ t, generateSteps input = Some t ∧ t ≠ [] ∧ lastKind t = Some "complete".
Proof.
  unfold generateSteps.
  set (n := Input.n input). set (mode := effectiveMode input).
  set (detailLevel := effectiveDetailLevel input).
  set (steps0 := push [] _).
  destruct (Z.leb_spec n 1) as [|Hn].
  { eexists. split; [reflexivity|]. split; [apply push_not_nil|].
    by rewrite lastKind_push. }
  destruct (isComputationOnly mode || (n >? MAX_DP_ARRAY_SIZE)) eqn:Hcap.
  { rewrite fastDoubling_fib by lia. simpl.
    eexists. split; [reflexivity|]. split; [apply push_not_nil|].
    by rewrite lastKind_push. }
  destruct (isIterative (effectiveStrategy input)).
  { destruct (forLoop _ _ _ _) as [[a b] steps1].
    eexists. split; [reflexivity|]. split; [apply push_not_nil|].
    by rewrite lastKind_push. }
  apply orb_false_elim in Hcap as [_ Hcap]. rewrite Hcap.
  destruct (Z.gtb_spec n MAX_DP_ARRAY_SIZE) as [|Hmax]; [done|].
  destruct (dpLoop_spec mode detailLevel n steps0)
    as (dp & steps1 & -> & _ & _ & Hcells); [lia|].
  simpl. rewrite (get_lookup dp n (cell (n >? 78) (fib (Z.to_nat n)))).
  - rewrite toStringM_cell. simpl.
    eexists. split; [reflexivity|]. split; [apply push_not_nil|].
    by rewrite lastKind_push.
  - lia.
  - apply Hcells. simpl. lia.
Qed.

(** In condensed mode both strides grow with the detail level. *)
Lemma dpSampleRate_grows n d d' :
  0 ≤ n → d ≤ d' → d' ≤ 100 →
  dpSampleRate condensed n d ≤ dpSampleRate condensed n d'.
Proof.
  intros Hn Hd Hd'. unfold dpSampleRate. simpl.
  apply Z.max_le_compat_l, Z.div_le_compat_l; lia.
Qed.

Lemma iterativeSampleRate_grows n d d' :
  0 ≤ n → d ≤ d' → d' ≤ 100 →
  rateLe (iterativeSampleRate condensed n d) (iterativeSampleRate condensed n d').
Proof.
  intros Hn Hd Hd'. unfold iterativeSampleRate. simpl.
  destruct (Z.eqb_spec (100 - d') 0); [by destruct (100 - d =? 0)|].
  destruct (Z.eqb_spec (100 - d) 0); [lia|]. simpl.
  apply Z.max_le_compat_l, Z.div_le_compat_l; lia.
Qed.

(** On the dp-array path the closing [complete] step reports the n-th
    Fibonacci number, as text. *)
Lemma generateSteps_dp_array_result (input : Input.t) :
  2 ≤ Input.n input ≤ MAX_DP_ARRAY_SIZE →
  isComputationOnly (effectiveMode input) = false →
  isIterative (effectiveStrategy input) = false →
  ∃ t s,
    generateSteps input = Some (push t s)
    ∧ kind s = "complete"
    ∧ field "result" (payload s)
      = Some (toString (cell (Input.n input >? 78)
                             (fib (Z.to_nat (Input.n input))))).
Proof.
  intros Hn Hmode Hstrategy. unfold generateSteps.
  set (n := Input.n input) in *. set (steps0 := push [] _).
  destruct (Z.leb_spec n 1); [lia|].
  destruct (Z.gtb_spec n MAX_DP_ARRAY_SIZE); [lia|].
  rewrite Hmode, Hstrategy. simpl.
  destruct (dpLoop_cell (effectiveMode input) (effectiveDetailLevel input)
              n steps0) as (dp & steps1 & -> & Hcell); [lia|].
  simpl. rewrite Hcell, toStringM_cell. simpl.
  by eexists _, _.
Qed.

(** The table of the dp-array loop for [1 ≤ n ≤ 10000]: [n + 1] cells, cell
    [j] holding the [j]-th Fibonacci number. *)
Lemma dpLoop_table (mode : Mode) (detailLevel n : Z) (steps : Trace) :
  1 ≤ n ≤ MAX_DP_ARRAY_SIZE →
  ∃ dp steps',
    dpLoop mode detailLevel n steps = Some (dp, steps')
    ∧ dp = (λ j, cell (n >? 78) (fib j)) <$> seq 0 (S (Z.to_nat n)).
Proof.
  intros Hn. unfold MAX_DP_ARRAY_SIZE in Hn.
  destruct (dpLoop_spec mode detailLevel n steps)
    as (dp & steps' & Hloop & _ & Hlen & Hcells); [lia|].
  exists dp, steps'. split; [done|]. simpl in Hlen, Hcells.
  unfold MAX_DP_ARRAY_SIZE in *.
  apply list_eq. intros j. rewrite list_lookup_fmap.
  destruct (decide (j < S (Z.to_nat n))%nat) as [Hj|Hj].
  - rewrite lookup_seq_lt by done. simpl. apply Hcells. lia.
  - rewrite lookup_seq_ge by lia. simpl. apply lookup_ge_None. lia.
Qed.

Lemma mapToString_cells (big : bool) (l : list nat) :
  mapToString ((λ j, cell big (fib j)) <$> l)
  = VArr ((λ j, toString (cell big (fib j))) <$> l).
Proof.
  unfold mapToString. f_equal. rewrite <- list_fmap_compose.
  apply list_fmap_ext. intros _ j _. simpl. by destruct big.
Qed.

(** C2 (amended).  For every non-negative integer n, [fastDoubling(n)] and
    [iterativeFib(n)] agree, both being the n-th Fibonacci number F(n).  What
    a run of [generateSteps] tabulates depends on n:
    - for n = 0 and n = 1 it takes the base case: no table loop runs, the
      steps are [init], [base-case], [complete], and it reports the table
      [[n]] and the result n, which is F(n);
    - for 2 ≤ n ≤ 10000 on the dp-array path (a strategy other than
      'iterative', a mode other than 'computation-only') its last step shows
      a table of n + 1 cells, the texts of F(0), ..., F(n), so that the cell
      at index n is the text of F(n), which is also the result it reports;
    - for n > 10000, and for n ≥ 2 in computation-only mode, it builds no
      table: the steps are [init], [compute-start], [complete], and it
      reports the text of [fastDoubling(n)]. *)
Theorem strategies_agree (input : Input.t) :
  0 ≤ Input.n input →
  let n := Input.n input in
  fastDoubling n = Some (iterativeFib n)
  ∧ iterativeFib n = fib (Z.to_nat n)
  ∧ (n ≤ 1 →
     kinds <$> generateSteps input = Some ["init"; "base-case"; "complete"]
     ∧ finalTable input = Some [num n]
     ∧ reported input = Some (num n)
     ∧ n = fib (Z.to_nat n))
  ∧ (2 ≤ n ≤ MAX_DP_ARRAY_SIZE →
     isComputationOnly (effectiveMode input) = false →
     isIterative (effectiveStrategy input) = false →
     finalTable input
     = Some ((λ j, toString (cell (n >? 78) (fib j))) <$> seq 0 (S (Z.to_nat n)))
     ∧ tabulated input n = Some (toString (cell (n >? 78) (fib (Z.to_nat n))))
     ∧ reported input = Some (toString (cell (n >? 78) (fib (Z.to_nat n)))))
  ∧ (2 ≤ n →
     isComputationOnly (effectiveMode input) = true ∨ MAX_DP_ARRAY_SIZE < n →
     kinds <$> generateSteps input = Some ["init"; "compute-start"; "complete"]
     ∧ finalTable input = None
     ∧ reported input = Some (toString (VBig (fib (Z.to_nat n))))).
Proof.
  intros Hn n. rewrite fastDoubling_fib, iterativeFib_fib by done.
  split; [done|]. split; [done|].
  unfold finalTable, tabulated, finalTable, reported, generateSteps. fold n.
  split; [|split].
  - intros Hle. destruct (Z.leb_spec n 1); [|lia].
    assert (n = 0 ∨ n = 1) as [->| ->] by lia; done.
  - intros Hrange Hmode Hstrategy.
    destruct (Z.leb_spec n 1); [lia|].
    destruct (Z.gtb_spec n MAX_DP_ARRAY_SIZE); [lia|].
    rewrite Hmode, Hstrategy. cbn [orb].
    destruct (dpLoop_table (effectiveMode input) (effectiveDetailLevel input) n
                (push [] (initStep n (effectiveMode input)
                            (effectiveStrategy input))))
      as (dp & steps' & -> & Hdp); [lia|].
    cbn [mbind option_bind].
    assert (dp !! Z.to_nat n = Some (cell (n >? 78) (fib (Z.to_nat n)))) as Hcell.
    { rewrite Hdp, list_lookup_fmap, lookup_seq_lt by lia. done. }
    rewrite (get_lookup dp n (cell (n >? 78) (fib (Z.to_nat n)))) by (lia || done).
    rewrite toStringM_cell. cbn [mbind option_bind]. unfold push.
    rewrite last_snoc. cbn [mbind option_bind payload field String.eqb Ascii.eqb Bool.eqb].
    rewrite Hdp, mapToString_cells.
    do 2 (case_decide; [done|]). case_decide; [|done].
    cbn [mbind option_bind].
    split; [done|]. split; [|done].
    destruct (Z.ltb_spec n 0); [lia|].
    rewrite list_lookup_fmap, lookup_seq_lt by lia. done.
  - intros H2 Hpath.
    destruct (Z.leb_spec n 1); [lia|].
    assert (isComputationOnly (effectiveMode input)
            || (n >? MAX_DP_ARRAY_SIZE) = true) as ->.
    { destruct Hpath as [-> | Hbig]; [done|].
      destruct (Z.gtb_spec n MAX_DP_ARRAY_SIZE); [|lia].
      apply orb_true_r. }
    by rewrite fastDoubling_fib by lia.
Qed.

Lemma strategies_agree_witness :
  fastDoubling 100 = Some (iterativeFib 100)
  ∧ iterativeFib 100 = fib 100
  ∧ tabulated (Input.mk 100 (Some dp_array) None None) 100
    = Some (toString (VBig (fib 100)))
  ∧ reported (Input.mk 100 (Some dp_array) None None)
    = Some (toString (VBig (fib 100))).
Proof.
  destruct (strategies_agree (Input.mk 100 (Some dp_array) None None))
    as (Hfast & Hiter & _ & Htable & _); [simpl; lia|].
  destruct Htable as (_ & Hcell & Hres);
    [unfold MAX_DP_ARRAY_SIZE; simpl; lia|reflexivity|reflexivity|].
  split; [exact Hfast|]. split; [exact Hiter|]. split; [exact Hcell|exact Hres].
Defined.

(** The agreement at the inputs that the specification lists: from 2 on,
    the cell at index n of the table of a dp-array run; at 0 and 1, the
    result of the base case. *)
Lemma strategies_agree_listed :
  Forall (λ n, ∃ v, tabulated (Input.mk n (Some dp_array) None None) n
                    = Some (toString v)
                    ∧ toZ v = Some (iterativeFib n)
                    ∧ fastDoubling n = Some (iterativeFib n))
         [2; 10; 20; 50; 78; 79; 100]
  ∧ Forall (λ n, reported (Input.mk n (Some dp_array) None None)
                 = Some (num (iterativeFib n))
                 ∧ fastDoubling n = Some (iterativeFib n))
           [0; 1].
Proof.
  split.
  - repeat constructor; eexists; (split; [vm_compute; reflexivity|]);
      split; vm_compute; reflexivity.
  - repeat constructor; vm_compute; reflexivity.
Qed.

(** The claim as first stated fails where no run stores a value at index n.
    The input n = 10001 is accepted by [validateInput], and its run on the
    dp-array strategy has the three steps of the computation-only path and
    shows no table; the run for n = 1 shows the table [[1]], which has no
    cell at index 1. *)
Lemma no_value_tabulated :
  validateInput (Input.mk 10001 (Some dp_array) None None) = Valid
  ∧ kinds <$> generateSteps (Input.mk 10001 (Some dp_array) None None)
    = Some ["init"; "compute-start"; "complete"]
  ∧ finalTable (Input.mk 10001 (Some dp_array) None None) = None
  ∧ tabulated (Input.mk 10001 (Some dp_array) None None) 10001 = None
  ∧ validateInput (Input.mk 1 (Some dp_array) None None) = Valid
  ∧ finalTable (Input.mk 1 (Some dp_array) None None) = Some [num 1]
  ∧ tabulated (Input.mk 1 (Some dp_array) None None) 1 = None.
Proof. repeat (split; [vm_compute; reflexivity|]). vm_compute; reflexivity. Qed.

(** C3.  The code at n = 100 (iterative) and n = 1000 (dp-array), both in
    condensed mode: raising detailLevel from 50 to 90 and to 100 lowers the
    number of emitted [compute] and [store] steps, and detailLevel 0 counts
    as 50. *)
Theorem detail_level_lowers_density :
  effectiveMode (Input.mk 100 (Some iterative) (Some 50) None) = condensed
  ∧ effectiveMode (Input.mk 1000 (Some dp_array) (Some 50) None) = condensed
  ∧ sampledSteps (Input.mk 100 (Some iterative) (Some 0) None)
    = Some (54, 54)%nat
  ∧ sampledSteps (Input.mk 100 (Some iterative) (Some 50) None)
    = Some (54, 54)%nat
  ∧ sampledSteps (Input.mk 100 (Some iterative) (Some 90) None)
    = Some (18, 18)%nat
  ∧ sampledSteps (Input.mk 100 (Some iterative) (Some 100) None)
    = Some (10, 10)%nat
  ∧ sampledSteps (Input.mk 1000 (Some dp_array) (Some 0) None)
    = Some (504, 504)%nat
  ∧ sampledSteps (Input.mk 1000 (Some dp_array) (Some 50) None)
    = Some (504, 504)%nat
  ∧ sampledSteps (Input.mk 1000 (Some dp_array) (Some 90) None)
    = Some (108, 108)%nat
  ∧ sampledSteps (Input.mk 1000 (Some dp_array) (Some 100) None)
    = Some (10, 10)%nat.
Proof. repeat (split; [vm_compute; reflexivity|]). vm_compute; reflexivity. Qed.

(** C4 (amended).  For n = 0 and n = 1, [generateSteps] returns a trace of
    exactly 3 steps: [init], then [base-case], then [complete]; the
    [base-case] and the [complete] step both carry the result n, that is 0
    and 1. *)
Theorem base_case_trace (input : Input.t) :
  Input.n input = 0 ∨ Input.n input = 1 →
  ∃ s0 s1 s2,
    generateSteps input = Some [s0; s1; s2]
    ∧ kind s0 = "init" ∧ kind s1 = "base-case" ∧ kind s2 = "complete"
    ∧ field "result" (payload s1) = Some (num (Input.n input))
    ∧ field "result" (payload s2) = Some (num (Input.n input)).
Proof.
  destruct input as [n strategy detailLevel mode]. simpl.
  intros [-> | ->]; unfold generateSteps; simpl;
    eexists _, _, _; (split; [reflexivity|]); done.
Qed.

Lemma base_case_trace_witness :
  ∃ s0 s1 s2,
    generateSteps (Input.mk 1 None None None) = Some [s0; s1; s2]
    ∧ kind s0 = "init" ∧ kind s1 = "base-case" ∧ kind s2 = "complete"
    ∧ field "result" (payload s1) = Some (num 1)
    ∧ field "result" (payload s2) = Some (num 1).
Proof. apply (base_case_trace (Input.mk 1 None None None)). by right. Defined.

(** For n = 0 the trace has three steps, not two: it opens with [init]. *)
Lemma base_case_trace_has_init :
  kinds <$> generateSteps (Input.mk 0 None None None)
  = Some ["init"; "base-case"; "complete"]
  ∧ length <$> generateSteps (Input.mk 0 None None None) ≠ Some 2%nat.
Proof. split; [vm_compute; reflexivity|]. vm_compute. discriminate. Qed.

End FibonacciFacts.

(** ** N-Queens: what every run emits *)

Module NQueensFacts.
Import Js NQueens TraceFacts.
Local Open Scope Z_scope.

Section Continues.
Variable P : VisualizationStep → Prop.

Lemma continues_refl st : continues P st st.
Proof. exists []. by rewrite app_nil_r. Qed.

Lemma continues_trans st1 st2 st3 :
  continues P st1 st2 → continues P st2 st3 → continues P st1 st3.
Proof.
  intros (e1 & H1 & HP1) (e2 & H2 & HP2). exists (e1 ++ e2).
  rewrite H2, H1, app_assoc. split; [done|]. by apply Forall_app.
Qed.

Lemma continues_emit s st : P s → continues P st (emit s st).
Proof. intros Hs. exists [s]. split; [done|]. by constructor. Qed.

Lemma continues_same st st' : steps st' = steps st → continues P st st'.
Proof. intros H. exists []. by rewrite app_nil_r. Qed.

End Continues.

Section SolverSteps.
Variables (n maxSolutions : Z) (mode : Mode).

Lemma advances_refl st : advances n st st.
Proof. intros Hst. split; [done|apply continues_refl]. Qed.

Lemma advances_trans st1 st2 st3 :
  advances n st1 st2 → advances n st2 st3 → advances n st1 st3.
Proof.
  intros H12 H23 H1. destruct (H12 H1) as [H2 Hc12].
  destruct (H23 H2) as [H3 Hc23]. split; [done|].
  by apply (continues_trans _ _ st2).
Qed.

Lemma advances_emit f st :
  (sized n st → reportsSize n (f st)) → advances n st (emit (f st) st).
Proof. intros Hf Hst. split; [done|]. by apply continues_emit, Hf. Qed.

Lemma advances_emitIf b f st :
  (sized n st → reportsSize n (f st)) → advances n st (emitIf b f st).
Proof.
  intros Hf. destruct b; simpl; [by apply advances_emit|apply advances_refl].
Qed.

Lemma advances_setBoard row col st : advances n st (setBoard row col st).
Proof.
  intros [Hb Hs]. split; [|by apply continues_same].
  split; [|done]. simpl. by rewrite length_insert.
Qed.

Lemma advances_tick st : advances n st (tick st).
Proof. intros Hst. split; [done|by apply continues_same]. Qed.

Lemma rowStep_reportsSize k row line st :
  sized n st → reportsSize n (rowStep n k row line st).
Proof.
  intros [Hb _]. split; [done|]. right.
  unfold boardSize. simpl. by rewrite length_fmap, Hb.
Qed.

Lemma cellStep_reportsSize k row col line st :
  sized n st → reportsSize n (cellStep n k row col line st).
Proof.
  intros [Hb _]. split; [done|]. right.
  unfold boardSize. simpl. by rewrite length_fmap, Hb.
Qed.

Lemma checkSafeStep_reportsSize row col safe st :
  sized n st → reportsSize n (checkSafeStep n row col safe st).
Proof.
  intros [Hb _]. split; [done|]. right.
  unfold boardSize. simpl. by rewrite length_fmap, Hb.
Qed.

Local Ltac step :=
  first [ apply advances_refl
        | apply advances_setBoard
        | apply advances_tick
        | apply advances_emitIf;
          first [ apply rowStep_reportsSize | apply cellStep_reportsSize
                | apply checkSafeStep_reportsSize ] ].

Local Ltac chain st' := apply (advances_trans _ st'); [step|].

Lemma foundSolution_advances st :
  advances n st (foundSolution n maxSolutions st).2.
Proof.
  intros [Hb Hs]. unfold foundSolution. simpl. split.
  - split; [done|]. simpl. apply Forall_app. split; [done|by constructor].
  - exists [mkStep "solution-found"
              [("board", boardValue (board st)); ("n", num n);
               ("solutionNumber",
                num (Z.of_nat (length (solutions st ++ [board st]))))] 16].
    split; [done|]. constructor; [|done]. split; [done|]. right.
    unfold boardSize. simpl. by rewrite length_fmap, Hb.
Qed.

Lemma stepLimit_advances st :
  advances n st (emit (stepLimitStep n (tick st)) (tick st)).
Proof.
  apply (advances_trans _ (tick st)); [apply advances_tick|].
  apply (advances_emit (stepLimitStep n)). intros _. split; [done|by left].
Qed.

Lemma traditionalColumns_advances descend row sample :
  (∀ st, advances n st (descend st).2) →
  ∀ left col st,
    advances n st (traditionalColumns n mode descend row sample left col st).2.
Proof.
  intros Hd left. induction left as [|left IH]; intros col st; simpl.
  { apply advances_refl. }
  set (st1 := emitIf _ _ st).
  set (safe := isSafeTraditional row col (board st1)).
  set (st2 := emitIf _ _ st1).
  chain st1. chain st2.
  destruct safe; [|apply IH].
  set (st3 := setBoard row col st2). set (st4 := emitIf _ _ st3).
  chain st3. chain st4.
  specialize (Hd st4). destruct (descend st4) as [stop st5]. simpl in Hd.
  apply (advances_trans _ st5); [done|].
  destruct stop; [apply advances_refl|].
  set (st6 := setBoard row (-1) st5). set (st7 := emitIf _ _ st6).
  chain st6. chain st7. apply IH.
Qed.

Lemma solveTraditional_advances rem st :
  advances n st (solveTraditional n maxSolutions mode rem st).2.
Proof.
  revert st. induction rem as [|rem IH]; intros st; simpl.
  { apply foundSolution_advances. }
  destruct (stepCount st >? MAX_STEPS mode); simpl.
  - apply stepLimit_advances.
  - set (st1 := tick st). set (st2 := emitIf _ _ st1).
    chain st1. chain st2. by apply traditionalColumns_advances.
Qed.

Lemma bitmaskColumns_advances descend row cols diag1 diag2 sample :
  (∀ c d1 d2 st, advances n st (descend c d1 d2 st).2) →
  ∀ left col st,
    advances n st
      (bitmaskColumns n descend row cols diag1 diag2 sample left col st).2.
Proof.
  intros Hd left. induction left as [|left IH]; intros col st; simpl.
  { apply advances_refl. }
  destruct (isSafeBitmask row col cols diag1 diag2); [|apply IH].
  set (st1 := setBoard row col st). set (st2 := emitIf _ _ st1).
  chain st1. chain st2.
  match goal with |- context [descend ?c ?d1 ?d2 st2] =>
    specialize (Hd c d1 d2 st2); destruct (descend c d1 d2 st2) as [stop st3]
  end.
  simpl in Hd. apply (advances_trans _ st3); [done|].
  destruct stop; [apply advances_refl|].
  set (st4 := setBoard row (-1) st3). set (st5 := emitIf _ _ st4).
  chain st4. chain st5. apply IH.
Qed.

Lemma solveBitmask_advances rem cols diag1 diag2 st :
  advances n st (solveBitmask n maxSolutions mode rem cols diag1 diag2 st).2.
Proof.
  revert cols diag1 diag2 st.
  induction rem as [|rem IH]; intros cols diag1 diag2 st; simpl.
  { apply foundSolution_advances. }
  destruct (stepCount st >? MAX_STEPS mode); simpl.
  - apply stepLimit_advances.
  - set (st1 := tick st). set (st2 := emitIf _ _ st1).
    chain st1. chain st2. by apply bitmaskColumns_advances.
Qed.

(** The search ends in a sized state whose trace is the initial one followed
    by steps that report the size [n]. *)
Lemma search_advances useBitmask steps0 :
  sized n (search n maxSolutions mode useBitmask steps0)
  ∧ ∃ ext, steps (search n maxSolutions mode useBitmask steps0) = steps0 ++ ext
           ∧ Forall (reportsSize n) ext.
Proof.
  unfold search. set (st := mkSolver _ _ _ _).
  assert (sized n st) as Hst.
  { split; simpl; [by rewrite length_replicate|by constructor]. }
  change steps0 with (steps st).
  destruct (useBitmask && negb (isFull mode)).
  - by apply solveBitmask_advances.
  - by apply solveTraditional_advances.
Qed.

Lemma completeStep_reportsSize st : sized n st → reportsSize n (completeStep n st).
Proof.
  intros [Hb Hs]. split; [done|]. right.
  unfold boardSize, completeStep. simpl. rewrite length_fmap.
  destruct (solutions st) as [|s sols]; [by rewrite Hb|].
  by rewrite (Forall_inv Hs).
Qed.

Lemma initStep_reportsSize useBitmask :
  reportsSize n (initStep n maxSolutions mode useBitmask).
Proof.
  split; [done|]. right. unfold boardSize. simpl.
  by rewrite length_fmap, length_replicate.
Qed.

End SolverSteps.

(** Every run on a non-negative board size returns [init], then steps of the
    search and possibly [no-solution], then [complete]; all of them report
    the effective board size. *)
Lemma generateSteps_shape input :
  0 ≤ effectiveN input →
  ∃ middle final,
    generateSteps input
    = Some (initStep (effectiveN input) (effectiveMaxSolutions input)
                     (effectiveMode input) (effectiveUseBitmask input)
            :: middle ++ [final])
    ∧ kind final = "complete"
    ∧ Forall (reportsSize (effectiveN input)) (middle ++ [final]).
Proof.
  intros Hn. unfold generateSteps.
  destruct (Z.ltb_spec (effectiveN input) 0); [lia|].
  set (n := effectiveN input). set (init := initStep _ _ _ _).
  destruct (search_advances n (effectiveMaxSolutions input)
              (effectiveMode input) (effectiveUseBitmask input) (push [] init))
    as (Hsized & ext & Hsteps & Hext).
  set (st := search _ _ _ _ _) in *.
  assert (reportsSize n (noSolutionStep n)) as Hno by (split; [done|by left]).
  destruct (bool_decide (length (solutions st) = 0%nat)).
  - exists (ext ++ [noSolutionStep n]),
           (completeStep n (emit (noSolutionStep n) st)).
    simpl. rewrite Hsteps. split; [done|]. split; [done|].
    rewrite !Forall_app. repeat split; [done|by constructor|].
    constructor; [|done]. by apply completeStep_reportsSize.
  - exists ext, (completeStep n st).
    simpl. rewrite Hsteps. split; [done|]. split; [done|].
    rewrite !Forall_app. split; [done|].
    constructor; [|done]. by apply completeStep_reportsSize.
Qed.

Lemma generateSteps_negative input :
  effectiveN input < 0 → generateSteps input = None.
Proof.
  intros Hn. unfold generateSteps.
  by destruct (Z.ltb_spec (effectiveN input) 0); [|lia].
Qed.

Lemma generateSteps_clamped input :
  generateSteps (clamped input) = generateSteps input.
Proof.
  assert (effectiveN (clamped input) = effectiveN input) as Hn
    by (unfold clamped, effectiveN, MAX_N; simpl; lia).
  assert (effectiveMaxSolutions (clamped input) = effectiveMaxSolutions input)
    as Hm.
  { unfold clamped, effectiveMaxSolutions at 1. simpl.
    unfold effectiveMaxSolutions. destruct (Input.maxSolutions input) as [m|]; [|done].
    destruct (Z.eqb_spec m 0); [done|]. by destruct (Z.eqb_spec m 0). }
  assert (effectiveMode (clamped input) = effectiveMode input) as Hmode
    by (unfold effectiveMode; rewrite Hn; done).
  assert (effectiveUseBitmask (clamped input) = effectiveUseBitmask input) as Hb
    by (unfold effectiveUseBitmask; rewrite Hn; done).
  unfold generateSteps. by rewrite Hn, Hm, Hmode, Hb.
Qed.

(** C6. [nQueensRunner.generateSteps] finds exactly 2 solutions for n = 4
    with maxSolutions = 10 and exactly 1 solution for n = 8 with
    maxSolutions = 1; for n = 2 and n = 3 it finds none, whatever
    maxSolutions is, and the trace then carries a [no-solution] step, placed
    right before the closing [complete] step.  All of this holds for every
    choice of [mode] and [useBitmask]. *)
Theorem queens_solution_counts :
  (∀ m b, solutionsFound (Input.mk 4 (Some 10) m b) = Some 2%nat
          ∧ reportedCount <$> generateSteps (Input.mk 4 (Some 10) m b)
            = Some (Some (num 2)))
  ∧ (∀ m b, solutionsFound (Input.mk 8 (Some 1) m b) = Some 1%nat
            ∧ reportedCount <$> generateSteps (Input.mk 8 (Some 1) m b)
              = Some (Some (num 1)))
  ∧ (∀ ms m b, solutionsFound (Input.mk 2 ms m b) = Some 0%nat
               ∧ lastKinds 2 <$> generateSteps (Input.mk 2 ms m b)
                 = Some ["no-solution"; "complete"])
  ∧ (∀ ms m b, solutionsFound (Input.mk 3 ms m b) = Some 0%nat
               ∧ lastKinds 2 <$> generateSteps (Input.mk 3 ms m b)
                 = Some ["no-solution"; "complete"]).
Proof.
  split; [|split; [|split]]; intros;
    destruct m as [[]|], b as [[]|]; (split; vm_compute; reflexivity).
Qed.

(** C9. Whatever the caller passes, validated or not, a run works on the
    board size [min(input.n, 20)] and on a [maxSolutions] that is 1 when the
    input has none or has 0: for every non-negative [input.n] the run returns
    a trace, it is the trace of the clamped input, its [init] step records
    the effective [maxSolutions], and every step reports the board size
    [min(input.n, 20)], which is at most 20, with a board snapshot of that
    many cells when it carries one. *)
Theorem effective_board_size (input : Input.t) :
  0 ≤ Input.n input →
  effectiveN input = Z.min (Input.n input) 20
  ∧ effectiveN input ≤ 20
  ∧ (Input.maxSolutions input = None ∨ Input.maxSolutions input = Some 0 →
     effectiveMaxSolutions input = 1)
  ∧ ∃ s0 rest,
      generateSteps input = Some (s0 :: rest)
      ∧ generateSteps (clamped input) = Some (s0 :: rest)
      ∧ field "maxSolutions" (payload s0)
        = Some (num (effectiveMaxSolutions input))
      ∧ Forall (reportsSize (Z.min (Input.n input) 20)) (s0 :: rest).
Proof.
  intros Hn.
  assert (effectiveN input = Z.min (Input.n input) 20) as HN by done.
  split; [done|]. split; [unfold effectiveN, MAX_N; lia|]. split.
  { unfold effectiveMaxSolutions. by intros [-> | ->]. }
  destruct (generateSteps_shape input) as (middle & final & Hgen & _ & Hall);
    [unfold effectiveN, MAX_N; lia|].
  eexists _, _. split; [exact Hgen|]. split.
  { by rewrite generateSteps_clamped. }
  split; [done|]. rewrite <- HN. constructor; [|done].
  apply initStep_reportsSize.
Qed.

Lemma effective_board_size_witness :
  ∃ s0 rest,
    generateSteps (Input.mk 25 (Some 0) None None) = Some (s0 :: rest)
    ∧ field "maxSolutions" (payload s0) = Some (num 1)
    ∧ Forall (reportsSize 20) (s0 :: rest).
Proof.
  destruct (effective_board_size (Input.mk 25 (Some 0) None None))
    as (_ & _ & _ & s0 & rest & Hgen & _ & Hmax & Hall); [simpl; lia|].
  exists s0, rest. split; [exact Hgen|]. split; [exact Hmax|exact Hall].
Defined.

(** C10. Every trace returned by [nQueensRunner.generateSteps] ends with a
    [complete] step; a [no-solution] or [step-limit] step is never the last
    step of the trace, so the closing [complete] step always comes after it. *)
Theorem queens_trace_ends_with_complete (input : Input.t) (t : Trace) :
  generateSteps input = Some t →
  lastKind t = Some "complete"
  ∧ ∀ i s, t !! i = Some s →
           kind s = "no-solution" ∨ kind s = "step-limit" →
           (i < length t - 1)%nat.
Proof.
  intros Hgen.
  destruct (Z.ltb_spec (effectiveN input) 0) as [Hneg|Hpos].
  { by rewrite generateSteps_negative in Hgen. }
  destruct (generateSteps_shape input) as (middle & final & Hshape & Hk & _);
    [done|].
  rewrite Hshape in Hgen. injection Hgen as Ht. subst t.
  set (init := initStep _ _ _ _). rewrite app_comm_cons.
  split; [by rewrite lastKind_snoc, Hk|].
  intros i s Hs Hkind. apply lookup_lt_Some in Hs as Hlt.
  rewrite length_app in Hlt |- *. simpl length in *.
  destruct (decide (i = S (length middle))) as [->|]; [exfalso|lia].
  rewrite list_lookup_middle in Hs by done. injection Hs as <-.
  rewrite Hk in Hkind. by destruct Hkind.
Qed.

(** On a 20 by 20 board in fast-solve mode the search hits its step limit:
    the trace is [init], [step-limit], [no-solution], [complete]. *)
Lemma queens_trace_ends_with_complete_witness :
  ∃ t, generateSteps (Input.mk 20 (Some 1) (Some fast_solve) (Some false))
       = Some t
       ∧ kinds t = ["init"; "step-limit"; "no-solution"; "complete"]
       ∧ lastKind t = Some "complete"
       ∧ ∀ i s, t !! i = Some s →
                kind s = "no-solution" ∨ kind s = "step-limit" →
                (i < length t - 1)%nat.
Proof.
  assert (∃ t, generateSteps (Input.mk 20 (Some 1) (Some fast_solve) (Some false))
               = Some t
               ∧ kinds t = ["init"; "step-limit"; "no-solution"; "complete"])
    as (t & Hgen & Hkinds)
    by (eexists; split; vm_compute; reflexivity).
  exists t. split; [exact Hgen|]. split; [exact Hkinds|].
  exact (queens_trace_ends_with_complete _ _ Hgen).
Defined.

End NQueensFacts.

(** ** Playback controller *)

Module PlaybackFacts.
Import Playback.
Local Open Scope Z_scope.

Lemma empty_trace_length (st : VisualizationState) :
  totalSteps st = Z.of_nat (length (steps st)) →
  totalSteps st ≤ 0 → steps st = [].
Proof. intros Hlen Hle. destruct (steps st); [done|simpl in Hlen; lia]. Qed.

Lemma perform_cursorInRange op st :
  cursorInRange st → cursorInRange (perform op st).
Proof.
  intros [Hlen Hcur]. unfold cursorInRange.
  destruct op as [new|i| | | | | |s|r|]; simpl.
  - split; [done|]. destruct new; [by right|left; simpl; lia].
  - split; [done|].
    destruct (Z.le_gt_cases (totalSteps st) 0) as [Hle|Hgt].
    + right. split; [by apply empty_trace_length|lia].
    + left. lia.
  - unfold nextStep. destruct (Z.geb_spec (currentStep st) (totalSteps st - 1));
      simpl; (split; [done|]); [done|].
    destruct Hcur as [Hcur|[Hnil Hcur]]; [left; lia|].
    rewrite Hnil in Hlen. simpl in Hlen. lia.
  - split; [done|]. destruct Hcur as [Hcur|[Hnil Hcur]]; [left; lia|].
    right. split; [done|lia].
  - done.
  - done.
  - split; [done|].
    destruct (Z.le_gt_cases (totalSteps st) 0) as [Hle|Hgt].
    + right. split; [by apply empty_trace_length|done].
    + left. lia.
  - done.
  - done.
  - unfold nextStep. destruct (Z.geb_spec (currentStep st) (totalSteps st - 1));
      simpl; (split; [done|]); [done|].
    destruct Hcur as [Hcur|[Hnil Hcur]]; [left; lia|].
    rewrite Hnil in Hlen. simpl in Hlen. lia.
Qed.

Lemma autoPlayEffect_cursorInRange st :
  cursorInRange st → cursorInRange (autoPlayEffect st).
Proof.
  unfold autoPlayEffect.
  by destruct (isPlaying st && negb (currentStep st <? totalSteps st - 1)).
Qed.

Lemma run_cursorInRange ops st : cursorInRange st → cursorInRange (run ops st).
Proof.
  revert st. induction ops as [|op ops IH]; intros st Hst; [done|].
  simpl. apply IH. unfold dispatch.
  by apply autoPlayEffect_cursorInRange, perform_cursorInRange.
Qed.

Lemma initialState_cursorInRange : cursorInRange initialState.
Proof. split; [done|]. by right. Qed.

(** C5.  What a load does in the controller ([setSteps] followed by the
    auto-play effect), from any state: the trace is replaced, [totalSteps] is
    its length, the cursor is 0 and the result is cleared, as the claim says;
    but the run flags are not reset: [isPaused] stays as it was, and the
    controller goes on playing when it was playing and the new trace has at
    least two steps.  The sibling callback [reset] does clear both flags.
    At the concrete input: a three-step trace is loaded and played, then a
    two-step trace is loaded, and the controller is still playing; loaded
    after a pause, it is still paused. *)
Theorem load_keeps_run_flags :
  (∀ (st : VisualizationState) (new : list AlgorithmStep),
     steps (dispatch st (SetSteps new)) = new
     ∧ totalSteps (dispatch st (SetSteps new)) = Z.of_nat (length new)
     ∧ currentStep (dispatch st (SetSteps new)) = 0
     ∧ result (dispatch st (SetSteps new)) = None
     ∧ speed (dispatch st (SetSteps new)) = speed st
     ∧ isPaused (dispatch st (SetSteps new)) = isPaused st
     ∧ isPlaying (dispatch st (SetSteps new))
       = isPlaying st && (1 <? Z.of_nat (length new)))
  ∧ (∀ st : VisualizationState, idle (dispatch st Reset))
  ∧ (let a := mkAlgorithmStep 0 "a" Js.VUndef None None in
     let b := mkAlgorithmStep 1 "b" Js.VUndef None None in
     let c := mkAlgorithmStep 2 "c" Js.VUndef None None in
     let playing := run [SetSteps [a; b; c]; Play] initialState in
     let paused := run [SetSteps [a; b; c]; Play; Pause] initialState in
     isPlaying playing = true
     ∧ isPlaying (dispatch playing (SetSteps [a; b])) = true
     ∧ ¬ idle (dispatch playing (SetSteps [a; b]))
     ∧ isPaused paused = true
     ∧ isPaused (dispatch paused (SetSteps [a; b])) = true
     ∧ ¬ idle (dispatch paused (SetSteps [a; b]))).
Proof.
  split; [|split].
  - intros [playing paused cur total sp ss res] new.
    unfold dispatch, autoPlayEffect. simpl.
    destruct playing; simpl; [|done].
    destruct (Z.ltb_spec 0 (Z.of_nat (length new) - 1)),
      (Z.ltb_spec 1 (Z.of_nat (length new))); simpl; try lia; done.
  - intros st. by split.
  - simpl. repeat split; try done; by intros [? ?].
Qed.

(** C7.  After every sequence of controller operations (the callbacks and
    the timer) starting from the initial state, [totalSteps] is the length of
    the loaded trace and the cursor is an index of it, or 0 when the trace is
    empty; a [goToStep] with any index moves the cursor to that index clamped
    to the trace: no operation fails. *)
Theorem cursor_always_in_range (ops : list Op) :
  cursorInRange (run ops initialState)
  ∧ ∀ i : Z,
      currentStep (goToStep i (run ops initialState))
      = Z.max 0 (Z.min i (Z.of_nat (length (steps (run ops initialState))) - 1))
      ∧ cursorInRange (goToStep i (run ops initialState)).
Proof.
  pose proof (run_cursorInRange ops _ initialState_cursorInRange) as Hrun.
  split; [done|]. intros i. split.
  - destruct Hrun as [<- _]. done.
  - apply (perform_cursorInRange (GoToStep i)), Hrun.
Qed.

End PlaybackFacts.

(** ** Both runners *)

Module RunnerFacts.
Import Runner.
Local Open Scope Z_scope.

(** C1.  For every input accepted by the runner's [validateInput],
    [fibonacciRunner.generateSteps] and [nQueensRunner.generateSteps] return
    a trace that is non-empty and whose last step has one of the kinds
    [complete], [no-solution], [step-limit]. *)
Theorem traces_are_closed :
  (∀ input, validateInput fibonacciRunner input = Valid →
            ∃ t, generateSteps fibonacciRunner input = Some t ∧ closed t)
  ∧ (∀ input, validateInput nQueensRunner input = Valid →
              ∃ t, generateSteps nQueensRunner input = Some t ∧ closed t).
Proof.
  split; intros input Hvalid; simpl in *.
  - destruct (FibonacciFacts.generateSteps_complete input) as (t & Hgen & Hne & Hlast).
    exists t. split; [done|]. split; [done|].
    exists "complete". split; [done|]. by left.
  - assert (0 ≤ NQueens.effectiveN input) as Hn.
    { unfold NQueens.validateInput in Hvalid.
      unfold NQueens.effectiveN, NQueens.MAX_N.
      destruct (Z.eqb_spec (NQueens.Input.n input) 0); [done|].
      destruct (Z.ltb_spec (NQueens.Input.n input) 1); [done|]. lia. }
    destruct (NQueensFacts.generateSteps_shape input Hn)
      as (middle & final & Hgen & Hk & _).
    eexists. split; [exact Hgen|]. split; [done|].
    exists "complete". split; [|by left].
    by rewrite app_comm_cons, TraceFacts.lastKind_snoc, Hk.
Qed.

Lemma traces_are_closed_witness :
  (∃ t, generateSteps fibonacciRunner (getInitialInput fibonacciRunner) = Some t
        ∧ closed t)
  ∧ (∃ t, generateSteps nQueensRunner (getInitialInput nQueensRunner) = Some t
          ∧ closed t).
Proof.
  split.
  - apply (proj1 traces_are_closed). reflexivity.
  - apply (proj2 traces_are_closed). reflexivity.
Defined.

(** C8.  [validateInput] rejects the Fibonacci inputs with n = -1, with
    n = 2000000 and with detailLevel = 150, and the N-Queens inputs with
    N = 21, with maxSolutions = 0 and with maxSolutions = 101, whatever their
    other fields are; a caller that validates first then gets no trace. *)
Theorem invalid_inputs_rejected :
  (∀ s d m, rejected fibonacciRunner (Fibonacci.Input.mk (-1) s d m))
  ∧ (∀ s d m, rejected fibonacciRunner (Fibonacci.Input.mk 2000000 s d m))
  ∧ (∀ n s m, rejected fibonacciRunner (Fibonacci.Input.mk n s (Some 150) m))
  ∧ (∀ ms m b, rejected nQueensRunner (NQueens.Input.mk 21 ms m b))
  ∧ (∀ n m b, rejected nQueensRunner (NQueens.Input.mk n (Some 0) m b))
  ∧ (∀ n m b, rejected nQueensRunner (NQueens.Input.mk n (Some 101) m b)).
Proof.
  unfold rejected, validatedTrace. simpl.
  split; [|split; [|split; [|split; [|split]]]]; intros.
  - by eexists.
  - by eexists.
  - unfold Fibonacci.validateInput. simpl.
    destruct (n <? 0); [by eexists|]. destruct (n >? 1000000); by eexists.
  - by eexists.
  - unfold NQueens.validateInput. simpl.
    destruct ((n =? 0) || (n <? 1)); [by eexists|].
    destruct (n >? NQueens.MAX_N); by eexists.
  - unfold NQueens.validateInput. simpl.
    destruct ((n =? 0) || (n <? 1)); [by eexists|].
    destruct (n >? NQueens.MAX_N); by eexists.
Qed.

End RunnerFacts.

(** * Further properties of the playback controller *)

Module PlaybackMore.
Import Playback PlaybackFacts.
Local Open Scope Z_scope.

Lemma run_snoc ops op st : run (ops ++ [op]) st = dispatch (run ops st) op.
Proof. unfold run. by rewrite foldl_app. Qed.

Lemma run_replicate_S k op st :
  run (replicate (S k) op) st = run (replicate k op) (dispatch st op).
Proof. done. Qed.

Lemma autoPlayEffect_fields st :
  currentStep (autoPlayEffect st) = currentStep st
  ∧ totalSteps (autoPlayEffect st) = totalSteps st
  ∧ speed (autoPlayEffect st) = speed st
  ∧ steps (autoPlayEffect st) = steps st
  ∧ isPaused (autoPlayEffect st) = isPaused st
  ∧ isPlaying (autoPlayEffect st)
    = isPlaying st && (currentStep st <? totalSteps st - 1).
Proof.
  unfold autoPlayEffect.
  destruct (isPlaying st) eqn:Hp, (currentStep st <? totalSteps st - 1);
    simpl; rewrite ?Hp; done.
Qed.

(** The two run flags exclude each other. *)
Theorem never_playing_and_paused (ops : list Op) :
  isPlaying (run ops initialState) && isPaused (run ops initialState) = false.
Proof.
  induction ops as [|op ops IH] using rev_ind; [done|].
  rewrite run_snoc. set (st := run ops initialState) in *. unfold dispatch.
  destruct (autoPlayEffect_fields (perform op st)) as (_ & _ & _ & _ & -> & ->).
  assert (isPlaying (perform op st) && isPaused (perform op st) = false) as Hp.
  { destruct op; simpl; try done; unfold nextStep;
      destruct (currentStep st >=? totalSteps st - 1); simpl; done. }
  destruct (isPlaying (perform op st)); [|done]. simpl in *. rewrite Hp.
  apply andb_false_r.
Qed.

(** Once the auto-play effect has run, the controller is playing only while
    the cursor is before the last step: it is never left playing at the end
    of the trace or on an empty trace. *)
Theorem playing_only_before_last_step (ops : list Op) :
  isPlaying (run ops initialState) = true →
  currentStep (run ops initialState) < totalSteps (run ops initialState) - 1.
Proof.
  destruct ops as [|op ops _] using rev_ind; [done|].
  rewrite run_snoc. unfold dispatch.
  destruct (autoPlayEffect_fields (perform op (run ops initialState)))
    as (-> & -> & _ & _ & _ & ->).
  intros [_ H]%andb_true_iff. by apply Z.ltb_lt.
Qed.

Lemma playing_only_before_last_step_witness :
  currentStep (run [SetSteps [mkAlgorithmStep 0 "a" Js.VUndef None None;
                              mkAlgorithmStep 1 "b" Js.VUndef None None]; Play]
                   initialState)
  < totalSteps (run [SetSteps [mkAlgorithmStep 0 "a" Js.VUndef None None;
                               mkAlgorithmStep 1 "b" Js.VUndef None None]; Play]
                    initialState) - 1.
Proof. apply playing_only_before_last_step. reflexivity. Defined.

(** One press of "next", or one firing of the timer, and the effect after it. *)
Lemma dispatch_next st :
  currentStep (dispatch st NextStep)
  = (if currentStep st >=? totalSteps st - 1 then currentStep st
     else currentStep st + 1)
  ∧ totalSteps (dispatch st NextStep) = totalSteps st
  ∧ speed (dispatch st NextStep) = speed st
  ∧ isPlaying (dispatch st NextStep)
    = isPlaying st && (currentStep st + 1 <? totalSteps st - 1).
Proof.
  unfold dispatch.
  destruct (autoPlayEffect_fields (perform NextStep st))
    as (-> & -> & -> & _ & _ & ->).
  simpl. unfold nextStep.
  destruct (Z.geb_spec (currentStep st) (totalSteps st - 1)); simpl.
  - repeat split. destruct (Z.ltb_spec (currentStep st + 1) (totalSteps st - 1));
      [lia|by rewrite andb_false_r].
  - done.
Qed.

Lemma next_run k st :
  0 ≤ currentStep st →
  let st' := run (replicate k NextStep) st in
  currentStep st'
  = Z.max (currentStep st)
          (Z.min (currentStep st + Z.of_nat k) (totalSteps st - 1))
  ∧ totalSteps st' = totalSteps st
  ∧ speed st' = speed st
  ∧ isPlaying st'
    = isPlaying st
      && ((k =? 0)%nat || (currentStep st + Z.of_nat k <? totalSteps st - 1)).
Proof.
  revert st. induction k as [|k IH]; intros st Hcur.
  { simpl. rewrite andb_true_r. repeat split. lia. }
  simpl. destruct (dispatch_next st) as (Hc & Ht & Hs & Hp).
  destruct (IH (dispatch st NextStep)) as (IHc & IHt & IHs & IHp).
  { rewrite Hc. destruct (currentStep st >=? totalSteps st - 1); lia. }
  change (foldl dispatch (dispatch st NextStep) (replicate k NextStep))
    with (run (replicate k NextStep) (dispatch st NextStep)).
  rewrite IHc, IHt, IHs, IHp, Hc, Ht, Hs, Hp. clear.
  destruct (Z.geb_spec (currentStep st) (totalSteps st - 1)).
  - repeat split; [lia|].
    destruct (Z.ltb_spec (currentStep st + 1) (totalSteps st - 1)); [lia|].
    destruct (Z.ltb_spec (currentStep st + Z.of_nat (S k)) (totalSteps st - 1));
      [lia|]. by rewrite !andb_false_r.
  - repeat split; [lia|]. rewrite <- andb_assoc. f_equal.
    destruct (Z.ltb_spec (currentStep st + 1) (totalSteps st - 1)),
             (Z.ltb_spec (currentStep st + 1 + Z.of_nat k) (totalSteps st - 1)),
             (Z.ltb_spec (currentStep st + Z.of_nat (S k)) (totalSteps st - 1));
      simpl; rewrite ?orb_true_r, ?orb_false_r; try lia; try done.
    destruct k; [lia|done].
Qed.

Lemma timer_run_next k st :
  run (replicate k TimerFires) st = run (replicate k NextStep) st.
Proof.
  revert st. induction k as [|k IH]; intros st; [done|].
  rewrite !run_replicate_S. apply IH.
Qed.

(** After a trace is loaded, [k] presses of "next" put the cursor on index
    [k], but never beyond the last step; on an empty trace it stays at 0. *)
Theorem next_steps_after_load (st : VisualizationState)
    (new : list AlgorithmStep) (k : nat) :
  currentStep (run (replicate k NextStep) (dispatch st (SetSteps new)))
  = Z.min (Z.of_nat k) (Z.max 0 (Z.of_nat (length new) - 1)).
Proof.
  set (st0 := dispatch st (SetSteps new)).
  assert (currentStep st0 = 0 ∧ totalSteps st0 = Z.of_nat (length new))
    as [Hc Ht].
  { unfold st0, dispatch.
    by destruct (autoPlayEffect_fields (perform (SetSteps new) st))
      as (-> & -> & _). }
  destruct (next_run k st0) as [-> _]; [lia|]. rewrite Hc, Ht. lia.
Qed.

(** Stepping forward and then back returns to the same state, and forward
    again to the same next state, as long as the cursor is before the last
    step. *)
Theorem next_prev_round_trip (st : VisualizationState) :
  0 ≤ currentStep st < totalSteps st - 1 →
  prevStep (nextStep st) = st
  ∧ nextStep (prevStep (nextStep st)) = nextStep st.
Proof.
  intros Hcur. destruct st as [pl pa cur tot sp ss res]. simpl in *.
  unfold nextStep, prevStep. simpl.
  destruct (Z.geb_spec cur (tot - 1)); [lia|]. simpl.
  replace (Z.max 0 (cur + 1 - 1)) with cur by lia.
  split; [done|]. by destruct (Z.geb_spec cur (tot - 1)); [lia|].
Qed.

Lemma next_prev_round_trip_witness :
  prevStep (nextStep (setSteps [mkAlgorithmStep 0 "a" Js.VUndef None None;
                                mkAlgorithmStep 1 "b" Js.VUndef None None]
                               initialState))
  = setSteps [mkAlgorithmStep 0 "a" Js.VUndef None None;
              mkAlgorithmStep 1 "b" Js.VUndef None None] initialState.
Proof.
  refine (proj1 (next_prev_round_trip _ _)). simpl. lia.
Defined.

(** Auto-play: after a trace is loaded and "play" is pressed, [k] firings of
    the timer put the cursor on index [k], capped at the last step; the
    controller is playing, with the timer armed at the delay of the current
    speed, exactly while the cursor is before the last step, and then stops
    without looping. *)
Theorem autoplay_runs_to_the_end (st : VisualizationState)
    (new : list AlgorithmStep) (k : nat) :
  let st' := run (replicate k TimerFires) (run [SetSteps new; Play] st) in
  currentStep st' = Z.min (Z.of_nat k) (Z.max 0 (Z.of_nat (length new) - 1))
  ∧ isPlaying st' = bool_decide (Z.of_nat k < Z.of_nat (length new) - 1)
  ∧ timerDelay st'
    = if bool_decide (Z.of_nat k < Z.of_nat (length new) - 1)
      then Some (SPEED_MAP (speed st)) else None.
Proof.
  set (st0 := run [SetSteps new; Play] st).
  assert (currentStep st0 = 0 ∧ totalSteps st0 = Z.of_nat (length new)
          ∧ speed st0 = speed st
          ∧ isPlaying st0 = (0 <? Z.of_nat (length new) - 1))
    as (Hc & Ht & Hs & Hp).
  { unfold st0, run. simpl. set (s1 := dispatch st (SetSteps new)).
    assert (currentStep s1 = 0 ∧ totalSteps s1 = Z.of_nat (length new)
            ∧ speed s1 = speed st) as (H1 & H2 & H3).
    { unfold s1, dispatch.
      by destruct (autoPlayEffect_fields (perform (SetSteps new) st))
        as (-> & -> & -> & _). }
    unfold dispatch.
    destruct (autoPlayEffect_fields (perform Play s1))
      as (-> & -> & -> & _ & _ & ->).
    simpl. by rewrite H1, H2, H3. }
  simpl. rewrite timer_run_next.
  destruct (next_run k st0) as (Hc' & Ht' & Hs' & Hp'); [lia|].
  simpl in *. rewrite Hc, Ht, Hs, Hp in *.
  assert (isPlaying (run (replicate k NextStep) st0)
          = bool_decide (Z.of_nat k < Z.of_nat (length new) - 1)) as Hplay.
  { rewrite Hp'.
    destruct (Z.ltb_spec 0 (Z.of_nat (length new) - 1)),
             (Z.ltb_spec (0 + Z.of_nat k) (Z.of_nat (length new) - 1));
      destruct k; simpl;
      rewrite ?bool_decide_true, ?bool_decide_false by lia; done || lia. }
  split; [lia|]. split; [done|].
  unfold timerDelay. rewrite Hplay, Hc', Ht', Hs'.
  destruct (decide (Z.of_nat k < Z.of_nat (length new) - 1)).
  - rewrite bool_decide_true by done. simpl.
    by destruct (Z.ltb_spec (Z.max 0 (Z.min (0 + Z.of_nat k)
                                             (Z.of_nat (length new) - 1)))
                            (Z.of_nat (length new) - 1)); [|lia].
  - by rewrite bool_decide_false by done.
Qed.

(** The current step handed to the page is [null] exactly when no step is
    loaded: the cursor always points at a step of a non-empty trace. *)
Theorem currentStepData_defined (ops : list Op) :
  currentStepData (run ops initialState) = None
  ↔ steps (run ops initialState) = [].
Proof.
  pose proof (run_cursorInRange ops _ initialState_cursorInRange) as [Hlen Hcur].
  set (st := run ops initialState) in *. unfold currentStepData.
  destruct Hcur as [Hcur|[Hnil Hcur]].
  - destruct (Z.ltb_spec (currentStep st) 0); [lia|]. split.
    + intros Hnone. apply lookup_ge_None in Hnone. lia.
    + intros Hnil. rewrite Hnil in Hlen. simpl in Hlen. lia.
  - rewrite Hnil, Hcur. done.
Qed.

End PlaybackMore.

(** * Further properties of the Fibonacci runner *)

Module FibonacciMore.
Import Js Fibonacci JsFacts TraceFacts FibonacciFacts FibonacciTrace.
Local Open Scope Z_scope.

(** One round of the dp-array loop, on a table that satisfies the loop
    invariant: what it appends to the trace. *)
Lemma dpBody_digest mode rate n i dp steps :
  i ≤ n → dpInv n i (dp, steps) →
  ∃ dp' ext,
    dpBody mode rate n i (dp, steps) = Some (dp', steps ++ ext)
    ∧ dpInv n (i + 1) (dp', steps ++ ext)
    ∧ digest <$> ext
      = if dpSampled mode rate n i then round (cellText n) i else [].
Proof.
  intros Hin Hinv.
  destruct (dpBody_inv mode rate n i (dp, steps) Hin Hinv) as ([dp1 steps1] & Hbody & Hinv1).
  destruct Hinv as (Hi & Hlen & Hcells). simpl in *.
  set (b := n >? 78) in *.
  assert (get dp (i - 1) = cell b (fib (Z.to_nat (i - 1)))) as H1
    by (apply get_lookup; [lia|apply Hcells; lia]).
  assert (get dp (i - 2) = cell b (fib (Z.to_nat (i - 2)))) as H2
    by (apply get_lookup; [lia|apply Hcells; lia]).
  destruct Hinv1 as (Hi1 & Hlen1 & Hcells1). simpl in *.
  revert Hbody. unfold dpBody. rewrite H1, H2, !toStringM_cell.
  fold (dpSampled mode rate n i).
  destruct (addCells _ _) as [v|] eqn:Hadd; [|by destruct (dpSampled mode rate n i)].
  simpl.
  destruct (dpSampled mode rate n i); simpl.
  - destruct (toStringM (get _ i)) as [txt|] eqn:Htxt; [|done]. simpl.
    intros [= <- <-].
    assert (get (arraySet VUndef dp (Z.to_nat i) v) i = cell b (fib (Z.to_nat i)))
      as Hnew by (apply get_lookup; [lia|apply Hcells1; lia]).
    rewrite Hnew, toStringM_cell in Htxt. injection Htxt as <-.
    eexists _, [_; _]. split; [unfold push; by rewrite <- app_assoc|].
    by repeat split.
  - intros [= <- <-]. exists (arraySet VUndef dp (Z.to_nat i) v), [].
    rewrite app_nil_r. by repeat split.
Qed.

Lemma sampledIndices_next sampled i :
  2 ≤ i →
  List.filter sampled (seqZ 2 (i + 1 - 2))
  = List.filter sampled (seqZ 2 (i - 2)) ++ (if sampled i then [i] else []).
Proof.
  intros Hi. replace (i + 1 - 2) with ((i - 2) + 1) by lia.
  rewrite seqZ_app by lia. rewrite List.filter_app.
  replace (2 + (i - 2)) with i by lia. done.
Qed.

(** The dp-array loop: the table it ends with and what it appends to the
    trace. *)
Lemma dpLoop_digest mode detailLevel n steps :
  2 ≤ n ≤ MAX_DP_ARRAY_SIZE →
  ∃ dp initDp ext,
    dpLoop mode detailLevel n steps = Some (dp, steps ++ initDp :: ext)
    ∧ dpInv n (n + 1) (dp, steps ++ initDp :: ext)
    ∧ digest initDp = ("init-dp", None, None)
    ∧ digest <$> ext
      = flat_map (round (cellText n))
          (sampledIndices (dpSampled mode (dpSampleRate mode n detailLevel) n) n).
Proof.
  intros Hn. unfold dpLoop, MAX_DP_ARRAY_SIZE in *.
  set (rate := dpSampleRate mode n detailLevel).
  set (steps0 := push steps _).
  pose (I := λ (i : Z) (s : list value * list VisualizationStep),
          dpInv n i s
          ∧ ∃ ext, s.2 = steps0 ++ ext
                   ∧ digest <$> ext
                     = flat_map (round (cellText n))
                         (List.filter (dpSampled mode rate n) (seqZ 2 (i - 2)))).
  destruct (forLoopM_invariant I (dpBody mode rate n) (n + 1))
    with (count := Z.to_nat (Z.min n 10000 - 1)) (i := 2)
         (s := (dpInit n, steps0)) as ([dp steps1] & Hrun & Hinv & ext & Hext & Hdig).
  - intros i [dp steps1] Hi (Hinv & ext & Hext & Hdig). simpl in Hext. subst steps1.
    destruct (dpBody_digest mode rate n i dp (steps0 ++ ext)) as (dp' & ext' & Hb & Hinv' & Hdig');
      [lia|done|].
    exists (dp', (steps0 ++ ext) ++ ext'). split; [done|]. split; [done|].
    exists (ext ++ ext'). simpl. split; [by rewrite app_assoc|].
    destruct Hinv as (Hi2 & _).
    rewrite fmap_app, Hdig, Hdig', sampledIndices_next by lia.
    rewrite flat_map_app. f_equal.
    destruct (dpSampled mode rate n i); simpl; by rewrite ?app_nil_r.
  - lia.
  - split; [apply dpInit_inv; lia|]. exists []. by rewrite app_nil_r.
  - simpl in Hext. subst steps1.
    replace (2 + Z.of_nat (Z.to_nat (Z.min n 10000 - 1))) with (n + 1) in * by lia.
    eexists dp, _, ext. unfold steps0, push in *. rewrite <- app_assoc in *.
    split; [exact Hrun|]. split; [exact Hinv|]. split; [done|].
    unfold sampledIndices. by replace (n - 1) with (n + 1 - 2) by lia.
Qed.

(** Above the table cap, or in computation-only mode, the run is the
    computation-only one whatever strategy was asked for: [init],
    [compute-start], [complete], the result being the n-th Fibonacci number
    as the text of a bigint. *)
Theorem computation_only_path (input : Input.t) :
  2 ≤ Input.n input →
  isComputationOnly (effectiveMode input) = true
  ∨ MAX_DP_ARRAY_SIZE < Input.n input →
  generateSteps input
  = Some [initStep (Input.n input) (effectiveMode input) (effectiveStrategy input);
          mkStep "compute-start"
            [("n", num (Input.n input)); ("strategy", VStr "fast-doubling")] 0;
          mkStep "complete"
            [("n", num (Input.n input));
             ("result", toString (VBig (fib (Z.to_nat (Input.n input)))));
             ("mode", VStr "computation-only")] 0].
Proof.
  intros Hn Hpath. unfold generateSteps.
  destruct (Z.leb_spec (Input.n input) 1); [lia|].
  assert (isComputationOnly (effectiveMode input)
          || (Input.n input >? MAX_DP_ARRAY_SIZE) = true) as ->.
  { destruct Hpath as [-> | Hbig]; [done|].
    destruct (Z.gtb_spec (Input.n input) MAX_DP_ARRAY_SIZE); [|lia].
    apply orb_true_r. }
  by rewrite fastDoubling_fib by lia.
Qed.

Lemma computation_only_path_witness :
  kinds <$> generateSteps (Input.mk 20000 (Some iterative) (Some 80) (Some full))
  = Some ["init"; "compute-start"; "complete"].
Proof.
  rewrite (computation_only_path (Input.mk 20000 (Some iterative) (Some 80) (Some full)));
    [done|simpl; lia|right; unfold MAX_DP_ARRAY_SIZE; simpl; lia].
Defined.

(** The table of the dp-array path: for [1 ≤ n ≤ 10000] the loop ends with
    exactly [n + 1] cells, cell [j] holding the [j]-th Fibonacci number, all
    of them bigints when [n > 78] and all of them numbers otherwise. *)
Theorem dp_table_contents (mode : Mode) (detailLevel n : Z) (steps : Trace) :
  1 ≤ n ≤ MAX_DP_ARRAY_SIZE →
  ∃ dp steps',
    dpLoop mode detailLevel n steps = Some (dp, steps')
    ∧ dp = (λ j, cell (n >? 78) (fib j)) <$> seq 0 (S (Z.to_nat n)).
Proof.
  intros Hn. unfold MAX_DP_ARRAY_SIZE in Hn.
  destruct (dpLoop_spec mode detailLevel n steps)
    as (dp & steps' & Hloop & _ & Hlen & Hcells); [lia|].
  exists dp, steps'. split; [done|]. simpl in Hlen, Hcells.
  unfold MAX_DP_ARRAY_SIZE in *.
  apply list_eq. intros j. rewrite list_lookup_fmap.
  destruct (decide (j < S (Z.to_nat n))%nat) as [Hj|Hj].
  - rewrite lookup_seq_lt by done. simpl. apply Hcells. lia.
  - rewrite lookup_seq_ge by lia. simpl. apply lookup_ge_None. lia.
Qed.

Lemma dp_table_contents_witness :
  ∃ dp steps',
    dpLoop full 50 5 [] = Some (dp, steps')
    ∧ dp = [num 0; num 1; num 1; num 2; num 3; num 5].
Proof.
  destruct (dp_table_contents full 50 5 []) as (dp & steps' & Hloop & Hdp);
    [unfold MAX_DP_ARRAY_SIZE; lia|].
  exists dp, steps'. split; [exact Hloop|exact Hdp].
Defined.

Lemma dp_array_digest (input : Input.t) :
  2 ≤ Input.n input ≤ MAX_DP_ARRAY_SIZE →
  isComputationOnly (effectiveMode input) = false →
  isIterative (effectiveStrategy input) = false →
  ∃ t, generateSteps input = Some t
       ∧ digest <$> t
         = expected (pathSampled input) (cellText (Input.n input)) (Input.n input).
Proof.
  intros Hn Hmode Hstrategy. unfold generateSteps, pathSampled, expected.
  set (n := Input.n input) in *.
  destruct (Z.leb_spec n 1); [lia|].
  destruct (Z.gtb_spec n MAX_DP_ARRAY_SIZE); [lia|].
  rewrite Hmode, Hstrategy. simpl.
  destruct (dpLoop_digest (effectiveMode input) (effectiveDetailLevel input) n
              (push [] (initStep n (effectiveMode input) (effectiveStrategy input))))
    as (dp & initDp & ext & -> & (_ & _ & Hcells) & HinitDp & Hext); [lia|].
  simpl. rewrite (get_lookup dp n (cell (n >? 78) (fib (Z.to_nat n))));
    [|lia|apply Hcells; simpl; lia].
  rewrite toStringM_cell. simpl. eexists. split; [reflexivity|].
  unfold push. rewrite fmap_app, !fmap_cons, Hext, HinitDp. reflexivity.
Qed.

(** The trace of the dp-array path, which is also the path of the strategy
    'fast-doubling' as long as the mode is not computation-only: [init],
    [init-dp], then for each sampled index [i] from 2 to n, in order, a
    [compute] step for [i] and a [store] step for [i] whose value is the text
    of the [i]-th Fibonacci number, then [complete]. *)
Theorem dp_array_trace (input : Input.t) :
  2 ≤ Input.n input ≤ MAX_DP_ARRAY_SIZE →
  isComputationOnly (effectiveMode input) = false →
  isIterative (effectiveStrategy input) = false →
  ∃ t, generateSteps input = Some t
       ∧ digest <$> t
         = expected (pathSampled input) (cellText (Input.n input)) (Input.n input).
Proof. apply dp_array_digest. Qed.

Lemma dp_array_trace_witness :
  ∃ t, generateSteps (Input.mk 4 (Some fast_doubling) None None) = Some t
       ∧ digest <$> t
         = [("init", None, None); ("init-dp", None, None);
            ("compute", Some (num 2), None);
            ("store", Some (num 2), Some (toString (num 1)));
            ("compute", Some (num 3), None);
            ("store", Some (num 3), Some (toString (num 2)));
            ("compute", Some (num 4), None);
            ("store", Some (num 4), Some (toString (num 3)));
            ("complete", None, None)].
Proof.
  destruct (dp_array_trace (Input.mk 4 (Some fast_doubling) None None))
    as (t & Hgen & Hdig); [unfold MAX_DP_ARRAY_SIZE; simpl; lia|done|done|].
  exists t. split; [exact Hgen|exact Hdig].
Defined.

Lemma tracked_add k :
  numAdd (tracked (fib k)) (tracked (fib (S k))) = tracked (fib (S (S k))).
Proof.
  pose proof (fib_nonneg k). pose proof (fib_nonneg (S k)).
  pose proof (fib_le_S k). pose proof (fib_SS k) as Hss.
  unfold tracked, numAdd. rewrite !Z.abs_eq by lia. rewrite Hss.
  destruct (Z.leb_spec (fib k) MAX_EXACT), (Z.leb_spec (fib (S k)) MAX_EXACT);
    try lia.
  - rewrite Z.abs_eq by lia. done.
  - by destruct (Z.leb_spec (fib k + fib (S k)) MAX_EXACT); [lia|].
  - by destruct (Z.leb_spec (fib k + fib (S k)) MAX_EXACT); [lia|].
Qed.

Lemma tracked_exact k : (k ≤ 78)%nat → tracked (fib k) = Int (fib k).
Proof.
  intros Hk. unfold tracked. pose proof (fib_nonneg k).
  pose proof (fib_mono k 78 Hk). pose proof fib_78_exact.
  rewrite Z.abs_eq by done. by destruct (Z.leb_spec (fib k) MAX_EXACT); [|lia].
Qed.

(** The iterative loop: the two running values and what it appends to the
    trace. *)
Lemma iterativeLoop_digest rate n steps0 :
  2 ≤ n →
  ∃ ext,
    forLoop (Z.to_nat (n - 1)) 2 (iterativeBody rate n) (Int 0, Int 1, steps0)
    = (tracked (fib (Z.to_nat (n - 1))), tracked (fib (Z.to_nat n)),
       steps0 ++ ext)
    ∧ digest <$> ext
      = flat_map (round (λ i, VNum (tracked (fib (Z.to_nat i)))))
          (sampledIndices (iterativeSampled rate n) n).
Proof.
  intros Hn.
  pose (I := λ (i : Z) (s : number * number * list VisualizationStep),
          2 ≤ i
          ∧ s.1.1 = tracked (fib (Z.to_nat (i - 2)))
          ∧ s.1.2 = tracked (fib (Z.to_nat (i - 1)))
          ∧ ∃ ext, s.2 = steps0 ++ ext
                   ∧ digest <$> ext
                     = flat_map (round (λ i, VNum (tracked (fib (Z.to_nat i)))))
                         (List.filter (iterativeSampled rate n) (seqZ 2 (i - 2)))).
  pose proof (forLoop_invariant I (iterativeBody rate n)) as Hloop.
  destruct (Hloop) with (count := Z.to_nat (n - 1)) (i := 2)
                        (s := (Int 0, Int 1, steps0))
    as (_ & Ha & Hb & ext & Hext & Hdig).
  - intros i [[a b] steps] (Hi & Ha & Hb & ext & Hext & Hdig). simpl in *.
    subst a b steps.
    assert (numAdd (tracked (fib (Z.to_nat (i - 2)))) (tracked (fib (Z.to_nat (i - 1))))
            = tracked (fib (Z.to_nat i))) as Hadd.
    { replace (Z.to_nat i) with (S (S (Z.to_nat (i - 2)))) by lia.
      replace (Z.to_nat (i - 1)) with (S (Z.to_nat (i - 2))) by lia.
      apply tracked_add. }
    unfold I, iterativeBody. fold (iterativeSampled rate n i). rewrite Hadd.
    split; [lia|].
    replace (i + 1 - 2) with (i - 1) by lia.
    replace (i + 1 - 1) with i by lia.
    destruct (iterativeSampled rate n i) eqn:Hs; simpl.
    + repeat split. eexists (ext ++ [_; _]). unfold push.
      split; [by rewrite <- !app_assoc|].
      replace (i - 1) with (i + 1 - 2) by lia.
      rewrite fmap_app, Hdig, sampledIndices_next, Hs, flat_map_app by lia.
      simpl. done.
    + repeat split. exists ext. split; [done|].
      replace (i - 1) with (i + 1 - 2) by lia.
      rewrite Hdig, sampledIndices_next, Hs, flat_map_app by lia.
      simpl. by rewrite app_nil_r.
  - unfold I. simpl. repeat split; [lia..|]. exists []. by rewrite app_nil_r.
  - destruct (forLoop _ _ _ _) as [[a b] steps1]. simpl in *. subst.
    replace (2 + Z.of_nat (Z.to_nat (n - 1))) with (n + 1) in * by lia.
    replace (n + 1 - 2) with (n - 1) in * by lia.
    replace (n + 1 - 1) with n in * by lia.
    by exists ext.
Qed.

Lemma flat_map_ext_in {A B} (f g : A → list B) (l : list A) :
  (∀ x, In x l → f x = g x) → flat_map f l = flat_map g l.
Proof.
  induction l as [|x l IH]; intros Hfg; [done|]. simpl.
  rewrite Hfg by (by left). f_equal. apply IH. intros y Hy. apply Hfg. by right.
Qed.

Lemma sampledIndices_range sampled n i :
  In i (sampledIndices sampled n) ↔ 2 ≤ i ≤ n ∧ sampled i = true.
Proof.
  unfold sampledIndices. rewrite List.filter_In, <- list_elem_of_In, elem_of_seqZ.
  intuition lia.
Qed.

(** The trace of the iterative path for [n ≤ 78], where every sum is exact:
    [init], [init-dp], then for each sampled index [i] from 2 to n a
    [compute] and a [store] step, the stored value being the [i]-th Fibonacci
    number, then [complete] with the n-th Fibonacci number as result. *)
Theorem iterative_trace (input : Input.t) :
  2 ≤ Input.n input ≤ 78 →
  isComputationOnly (effectiveMode input) = false →
  isIterative (effectiveStrategy input) = true →
  ∃ t final,
    generateSteps input = Some (t ++ [final])
    ∧ digest <$> (t ++ [final])
      = expected (pathSampled input) (λ i, num (fib (Z.to_nat i)))
                 (Input.n input)
    ∧ field "result" (payload final)
      = Some (num (fib (Z.to_nat (Input.n input)))).
Proof.
  intros Hn Hmode Hstrategy. unfold generateSteps, pathSampled, expected.
  set (n := Input.n input) in *.
  destruct (Z.leb_spec n 1); [lia|].
  destruct (Z.gtb_spec n MAX_DP_ARRAY_SIZE);
    [unfold MAX_DP_ARRAY_SIZE in *; lia|].
  rewrite Hmode, Hstrategy. simpl.
  set (rate := iterativeSampleRate _ _ _).
  destruct (iterativeLoop_digest rate n
              (push (push [] (initStep n (effectiveMode input)
                                       (effectiveStrategy input)))
                 (mkStep "init-dp"
                    [("dp", VArr [num 0; num 1]); ("n", num n);
                     ("strategy", VStr "iterative")] 6)))
    as (ext & -> & Hext); [lia|].
  eexists _, _. split; [reflexivity|].
  rewrite !tracked_exact by lia. split; [|done].
  unfold push. rewrite fmap_app, !fmap_app, Hext. simpl.
  do 2 f_equal. f_equal. apply flat_map_ext_in.
  intros i [Hi _]%sampledIndices_range. unfold round.
  by rewrite tracked_exact by lia.
Qed.

Lemma iterative_trace_witness :
  ∃ t final,
    generateSteps (Input.mk 3 (Some iterative) None None) = Some (t ++ [final])
    ∧ digest <$> (t ++ [final])
      = [("init", None, None); ("init-dp", None, None);
         ("compute", Some (num 2), None); ("store", Some (num 2), Some (num 1));
         ("compute", Some (num 3), None); ("store", Some (num 3), Some (num 2));
         ("complete", None, None)]
    ∧ field "result" (payload final) = Some (num 2).
Proof.
  destruct (iterative_trace (Input.mk 3 (Some iterative) None None))
    as (t & final & Hgen & Hdig & Hres); [simpl; lia|done|done|].
  exists t, final. split; [exact Hgen|]. split; [exact Hdig|exact Hres].
Defined.

Lemma fst_rounds (v : Z → value) (l : list Z) :
  fst <$> flat_map (round v) l
  = flat_map (λ i, [("compute", Some (num i)); ("store", Some (num i))]) l.
Proof.
  induction l as [|i l IH]; [done|].
  simpl flat_map. by rewrite !fmap_cons, IH.
Qed.

Lemma expected_outline sampled v n :
  fst <$> expected sampled v n = expectedOutline sampled n.
Proof.
  unfold expected, expectedOutline. by rewrite !fmap_app, fst_rounds.
Qed.

Lemma outline_digest (t : Trace) : outline <$> t = fst <$> (digest <$> t).
Proof. by rewrite <- list_fmap_compose. Qed.

Lemma sampled_outline (input : Input.t) :
  2 ≤ Input.n input ≤ MAX_DP_ARRAY_SIZE →
  isComputationOnly (effectiveMode input) = false →
  ∃ t, generateSteps input = Some t
       ∧ outline <$> t = expectedOutline (pathSampled input) (Input.n input).
Proof.
  intros Hn Hmode.
  destruct (isIterative (effectiveStrategy input)) eqn:Hstrategy.
  - unfold generateSteps, pathSampled.
    set (n := Input.n input) in *.
    destruct (Z.leb_spec n 1); [lia|].
    destruct (Z.gtb_spec n MAX_DP_ARRAY_SIZE); [lia|].
    rewrite Hmode, Hstrategy. simpl.
    set (rate := iterativeSampleRate _ _ _).
    destruct (iterativeLoop_digest rate n
                (push (push [] (initStep n (effectiveMode input)
                                         (effectiveStrategy input)))
                   (mkStep "init-dp"
                      [("dp", VArr [num 0; num 1]); ("n", num n);
                       ("strategy", VStr "iterative")] 6)))
      as (ext & -> & Hext); [lia|].
    eexists. split; [reflexivity|].
    rewrite outline_digest, <- (expected_outline _
      (λ i, VNum (tracked (fib (Z.to_nat i))))).
    f_equal. unfold push, expected. by rewrite !fmap_app, Hext.
  - destruct (dp_array_digest input Hn Hmode Hstrategy) as (t & Hgen & Hdig).
    exists t. split; [done|].
    by rewrite outline_digest, Hdig, expected_outline.
Qed.

(** Kinds and indices of the trace of either loop: [init], [init-dp], a
    [compute] and a [store] step for each sampled index from 2 to n, in
    increasing order, then [complete]. *)
Theorem sampled_trace_outline (input : Input.t) :
  2 ≤ Input.n input ≤ MAX_DP_ARRAY_SIZE →
  isComputationOnly (effectiveMode input) = false →
  ∃ t, generateSteps input = Some t
       ∧ outline <$> t = expectedOutline (pathSampled input) (Input.n input).
Proof. apply sampled_outline. Qed.

Lemma sampled_trace_outline_witness :
  ∃ t, generateSteps (Input.mk 3 (Some iterative) None None) = Some t
       ∧ outline <$> t
         = [("init", None); ("init-dp", None);
            ("compute", Some (num 2)); ("store", Some (num 2));
            ("compute", Some (num 3)); ("store", Some (num 3));
            ("complete", None)].
Proof.
  destruct (sampled_trace_outline (Input.mk 3 (Some iterative) None None))
    as (t & Hgen & Hout); [unfold MAX_DP_ARRAY_SIZE; simpl; lia|done|].
  exists t. split; [exact Hgen|exact Hout].
Defined.

Lemma pathSampled_last input : pathSampled input (Input.n input) = true.
Proof.
  unfold pathSampled, iterativeSampled, dpSampled.
  rewrite Z.eqb_refl.
  destruct (isIterative _); by rewrite ?orb_true_r.
Qed.

Lemma pathSampled_first_ten input i : i ≤ 10 → pathSampled input i = true.
Proof.
  intros Hi. unfold pathSampled, iterativeSampled, dpSampled.
  destruct (Z.leb_spec i 10); [|lia].
  destruct (isIterative _); by rewrite ?orb_true_r.
Qed.

Lemma pathSampled_full input i :
  isFull (effectiveMode input) = true → pathSampled input i = true.
Proof.
  intros Hfull. unfold pathSampled, iterativeSampled, dpSampled.
  rewrite Hfull. destruct (isIterative _); [|done].
  unfold iterativeSampleRate.
  destruct (effectiveMode input); try done. simpl. by rewrite Z.rem_1_r.
Qed.

Lemma expectedOutline_store sampled n i :
  In i (sampledIndices sampled n) →
  In ("store", Some (num i)) (expectedOutline sampled n).
Proof.
  intros Hi. unfold expectedOutline.
  apply in_or_app. right. apply in_or_app. left.
  apply in_flat_map. exists i. split; [done|]. right. by left.
Qed.

(** What sampling never drops: whatever the mode and the detail level, the
    trace of either loop has a [store] step for the final index n and for
    every index from 2 to 10; in full mode it has all of them, [2 n + 1]
    steps in total. *)
Theorem sampling_keeps_first_ten_and_last (input : Input.t) :
  2 ≤ Input.n input ≤ MAX_DP_ARRAY_SIZE →
  isComputationOnly (effectiveMode input) = false →
  ∃ t, generateSteps input = Some t
       ∧ In ("store", Some (num (Input.n input))) (outline <$> t)
       ∧ (∀ i, 2 ≤ i ≤ 10 → i ≤ Input.n input →
               In ("store", Some (num i)) (outline <$> t))
       ∧ (isFull (effectiveMode input) = true →
          length t = Z.to_nat (2 * Input.n input + 1)).
Proof.
  intros Hn Hmode.
  destruct (sampled_outline input Hn Hmode) as (t & Hgen & Hout).
  exists t. split; [done|]. rewrite Hout. split; [|split].
  - apply expectedOutline_store, sampledIndices_range.
    split; [lia|apply pathSampled_last].
  - intros i Hi Hin. apply expectedOutline_store, sampledIndices_range.
    split; [lia|apply pathSampled_first_ten; lia].
  - intros Hfull.
    assert (length t = length (outline <$> t)) as -> by (by rewrite length_fmap).
    rewrite Hout. unfold expectedOutline, sampledIndices.
    rewrite forallb_filter_id.
    + rewrite !length_app. simpl.
      rewrite (flat_map_constant_length (c := 2%nat)) by done.
      rewrite ?length_app, length_seqZ. simpl. lia.
    + apply forallb_forall. intros i _. by apply pathSampled_full.
Qed.

Lemma sampling_keeps_first_ten_and_last_witness :
  ∃ t, generateSteps (Input.mk 100 None (Some 100) None) = Some t
       ∧ In ("store", Some (num 100)) (outline <$> t)
       ∧ In ("store", Some (num 10)) (outline <$> t).
Proof.
  destruct (sampling_keeps_first_ten_and_last (Input.mk 100 None (Some 100) None))
    as (t & Hgen & Hlast & Hten & _); [unfold MAX_DP_ARRAY_SIZE; simpl; lia|done|].
  exists t. split; [exact Hgen|]. split; [exact Hlast|].
  apply Hten; simpl; lia.
Defined.

(** *** Stride and number of steps *)

Lemma countKind_outline (k : string) (t : Trace) :
  countKind k t = length (filter (λ p, p.1 = k) (outline <$> t)).
Proof.
  unfold countKind. induction t as [|s t IH]; [done|].
  rewrite fmap_cons. destruct (decide (kind s = k)) as [Hk|Hk].
  - rewrite !filter_cons_True by done. simpl. by rewrite IH.
  - by rewrite !filter_cons_False by done.
Qed.

Lemma expectedOutline_count (sampled : Z → bool) (n : Z) :
  length (filter (λ p, p.1 = "store") (expectedOutline sampled n))
  = length (sampledIndices sampled n)
  ∧ length (filter (λ p, p.1 = "compute") (expectedOutline sampled n))
    = length (sampledIndices sampled n).
Proof.
  unfold expectedOutline. generalize (sampledIndices sampled n). intros l.
  rewrite !filter_app, !length_app.
  assert (∀ k, k = "store" ∨ k = "compute" →
            length (filter (λ p : string * option value, p.1 = k)
                      (flat_map (λ i, [("compute", Some (num i));
                                       ("store", Some (num i))]) l))
            = length l) as Hl.
  { intros k Hk. induction l as [|i l IH]; [done|].
    simpl. destruct Hk as [-> | ->].
    - rewrite filter_cons_False, filter_cons_True by done. simpl. by rewrite IH.
    - rewrite filter_cons_True, filter_cons_False by done. simpl. by rewrite IH. }
  rewrite !Hl by auto. split; simpl; lia.
Qed.

Lemma stride_step (r m : Z) :
  1 ≤ r → 1 ≤ m →
  m / r ≤ (m + 1) / r
  ∧ (Z.rem (m + 1) r = 0 → m / r + 1 ≤ (m + 1) / r).
Proof.
  intros Hr Hm. split.
  - apply Z.div_le_mono; lia.
  - rewrite Z.rem_mod_nonneg by lia. intros Hrem.
    apply Z.mod_divide in Hrem as [q Hq]; [|lia].
    rewrite Hq, Z.div_mul by lia.
    assert (m / r < q); [|lia].
    apply Z.div_lt_upper_bound; nia.
Qed.

Lemma onStride_positive (rate : Rate) :
  (∀ r, rate = Finite r → 1 ≤ r) →
  ∀ m, 1 ≤ m →
       strideCount rate m ≤ strideCount rate (m + 1)
       ∧ (onStride rate (m + 1) = true →
          strideCount rate m + 1 ≤ strideCount rate (m + 1)).
Proof.
  intros Hrate m Hm. destruct rate as [r|]; simpl.
  - destruct (stride_step r m) as [Hle Hstep]; [by apply Hrate|done|].
    split; [done|]. intros Hon%Z.eqb_eq. by apply Hstep.
  - split; [done|]. intros Hon%Z.eqb_eq. lia.
Qed.

(** Among the indices from 2 to [k + 1], those on the stride, equal to [n] or
    at most 10. *)
Lemma sampled_count (rate : Rate) (n : Z) (sampled : Z → bool) :
  (∀ r, rate = Finite r → 1 ≤ r) →
  (∀ i, sampled i = true → onStride rate i || (i =? n) || (i <=? 10) = true) →
  ∀ k : nat,
    Z.of_nat (length (List.filter sampled (seqZ 2 (Z.of_nat k))))
    ≤ Z.min (Z.of_nat k) 9
      + (if n <=? Z.of_nat k + 1 then 1 else 0)
      + strideCount rate (Z.of_nat k + 1).
Proof.
  intros Hrate Hsampled k. induction k as [|k IH].
  { assert (0 ≤ strideCount rate 1) as Hcount.
    { destruct rate as [r|]; simpl; [|done].
      apply Z.div_pos; [lia|]. specialize (Hrate r eq_refl). lia. }
    change (Z.of_nat 0) with 0. change (0 + 1) with 1.
    change (Z.of_nat (length (List.filter sampled (seqZ 2 0)))) with 0.
    destruct (n <=? 1); lia. }
  rewrite seqZ_S, List.filter_app, length_app, Nat2Z.inj_add.
  replace (Z.of_nat (S k) + 1) with (Z.of_nat k + 1 + 1) by lia.
  destruct (onStride_positive rate Hrate (Z.of_nat k + 1)) as [Hmono Hstep];
    [lia|].
  assert (Z.min (Z.of_nat k) 9 ≤ Z.min (Z.of_nat (S k)) 9) as Hmin by lia.
  assert ((if n <=? Z.of_nat k + 1 then 1 else 0)
          ≤ (if n <=? Z.of_nat k + 1 + 1 then 1 else 0)) as Hlast.
  { destruct (Z.leb_spec n (Z.of_nat k + 1)),
      (Z.leb_spec n (Z.of_nat k + 1 + 1)); lia. }
  simpl List.filter.
  destruct (sampled (2 + Z.of_nat k)) eqn:Hs; simpl length; [|lia].
  apply Hsampled in Hs.
  replace (2 + Z.of_nat k) with (Z.of_nat k + 1 + 1) in Hs by lia.
  apply orb_true_iff in Hs as [[Hon|Heq]%orb_true_iff|Hten].
  - specialize (Hstep Hon). lia.
  - apply Z.eqb_eq in Heq.
    destruct (Z.leb_spec n (Z.of_nat k + 1)),
      (Z.leb_spec n (Z.of_nat k + 1 + 1)); lia.
  - apply Z.leb_le in Hten. lia.
Qed.

Lemma pathStride_positive (input : Input.t) :
  ∀ r, pathStride input = Finite r → 1 ≤ r.
Proof.
  intros r. unfold pathStride, iterativeSampleRate, dpSampleRate.
  destruct (isIterative _), (isCondensed _); try destruct (_ =? 0);
    intros [= <-]; lia.
Qed.

Lemma pathSampled_onStride (input : Input.t) (i : Z) :
  pathSampled input i = true →
  onStride (pathStride input) i || (i =? Input.n input) || (i <=? 10) = true.
Proof.
  unfold pathSampled, pathStride, iterativeSampled, dpSampled.
  destruct (isIterative _); [done|]. simpl.
  destruct (effectiveMode input) eqn:Hmode; simpl; try done.
  intros _. unfold dpSampleRate. simpl. by rewrite Z.rem_1_r.
Qed.

(** In condensed mode the stride of the loop that an input runs does not
    shrink when the effective detail level ([input.detailLevel || 50], at
    most 100) rises, so that the number [floor(n / stride)] of indices on the
    stride does not grow.  What a run emits is bounded through the stride:
    as many [compute] as [store] steps, and at most [10 + floor(n / stride)]
    of each (10 when the stride is [Infinity]). *)
Theorem stride_grows_with_detail_level (input input' : Input.t) :
  2 ≤ Input.n input ≤ MAX_DP_ARRAY_SIZE →
  Input.n input' = Input.n input →
  effectiveStrategy input' = effectiveStrategy input →
  effectiveMode input = condensed →
  effectiveMode input' = condensed →
  effectiveDetailLevel input ≤ effectiveDetailLevel input' ≤ 100 →
  rateLe (pathStride input) (pathStride input')
  ∧ strideCount (pathStride input') (Input.n input)
    ≤ strideCount (pathStride input) (Input.n input)
  ∧ ∃ t, generateSteps input = Some t
         ∧ countKind "compute" t = countKind "store" t
         ∧ Z.of_nat (countKind "store" t)
           ≤ 10 + strideCount (pathStride input) (Input.n input).
Proof.
  intros Hn Hn' Hstrategy Hmode Hmode' [Hd Hd'].
  assert (rateLe (pathStride input) (pathStride input')) as Hrate.
  { unfold pathStride. rewrite Hn', Hstrategy, Hmode, Hmode'.
    destruct (isIterative (effectiveStrategy input)).
    - apply iterativeSampleRate_grows; [lia|done|done].
    - simpl. apply dpSampleRate_grows; [lia|done|done]. }
  split; [done|]. split.
  - pose proof (pathStride_positive input) as Hpos.
    pose proof (pathStride_positive input') as Hpos'.
    destruct (pathStride input) as [r|], (pathStride input') as [r'|];
      simpl in *; try done.
    + specialize (Hpos r eq_refl). apply Z.div_le_compat_l; lia.
    + specialize (Hpos r eq_refl). apply Z.div_pos; lia.
  - destruct (sampled_outline input Hn) as (t & Hgen & Hout);
      [by rewrite Hmode|].
    exists t. split; [done|].
    rewrite !countKind_outline, Hout.
    destruct (expectedOutline_count (pathSampled input) (Input.n input))
      as [-> ->].
    split; [done|]. unfold sampledIndices.
    pose proof (sampled_count (pathStride input) (Input.n input)
                  (pathSampled input) (pathStride_positive input)
                  (pathSampled_onStride input)
                  (Z.to_nat (Input.n input - 1))) as Hcount.
    rewrite Z2Nat.id in Hcount by lia.
    replace (Input.n input - 1 + 1) with (Input.n input) in Hcount by lia.
    destruct (Input.n input <=? Input.n input); lia.
Qed.

Lemma stride_grows_with_detail_level_witness :
  rateLe (pathStride (Input.mk 100 (Some iterative) (Some 50) None))
         (pathStride (Input.mk 100 (Some iterative) (Some 90) None))
  ∧ ∃ t, generateSteps (Input.mk 100 (Some iterative) (Some 50) None) = Some t
         ∧ Z.of_nat (countKind "store" t)
           ≤ 10 + strideCount
                    (pathStride (Input.mk 100 (Some iterative) (Some 50) None))
                    100.
Proof.
  destruct (stride_grows_with_detail_level
              (Input.mk 100 (Some iterative) (Some 50) None)
              (Input.mk 100 (Some iterative) (Some 90) None))
    as (Hrate & _ & t & Hgen & _ & Hbound);
    [unfold MAX_DP_ARRAY_SIZE; simpl; lia|reflexivity|reflexivity|reflexivity
    |reflexivity|change (50 ≤ 90 ≤ 100); lia|].
  split; [exact Hrate|]. exists t. split; [exact Hgen|exact Hbound].
Defined.

(** The number of steps itself is not monotone in the detail level: for
    n = 100 on the iterative path, 18 [store] steps at detail level 90 and
    19 at 91. *)
Remark step_count_not_monotone :
  sampledSteps (Input.mk 100 (Some iterative) (Some 90) None)
  = Some (18, 18)%nat
  ∧ sampledSteps (Input.mk 100 (Some iterative) (Some 91) None)
    = Some (19, 19)%nat.
Proof. split; vm_compute; reflexivity. Qed.

End FibonacciMore.

(** * Further properties of the N-Queens runner *)

Module NQueensMore.
Import Js NQueens TraceFacts NQueensFacts QueensSpec.
Local Open Scope Z_scope.

Lemma isSafeFrom_spec count i row col board :
  0 ≤ i →
  isSafeFrom count i row col board = true
  ↔ ∀ j c, i ≤ j < i + Z.of_nat count → board !! Z.to_nat j = Some c →
           ¬ attacks j c row col.
Proof.
  revert i. induction count as [|count IH]; intros i Hi.
  { simpl. split; [|done]. intros _ j c Hj. lia. }
  cbn [isSafeFrom].
  destruct (board !! Z.to_nat i) as [c|] eqn:Hc.
  - destruct (Z.eqb_spec c col) as [->|Hne].
    { split; [done|]. intros H. exfalso. apply (H i col); [lia|done|by left]. }
    destruct (Z.eqb_spec (Z.abs (c - col)) (Z.abs (i - row))) as [Hd|Hd].
    { split; [done|]. intros H. exfalso. apply (H i c); [lia|done|by right]. }
    rewrite IH by lia. split; intros H j c' Hj Hc'.
    + destruct (decide (j = i)) as [->|].
      * rewrite Hc in Hc'. injection Hc' as <-. by intros [?|?].
      * apply H; [lia|done].
    + apply H; [lia|done].
  - rewrite IH by lia. split; intros H j c' Hj Hc'.
    + destruct (decide (j = i)) as [->|]; [by rewrite Hc in Hc'|].
      apply H; [lia|done].
    + apply H; [lia|done].
Qed.

Lemma isSafeTraditional_iff (row col : Z) (board : list Z) :
  isSafeTraditional row col board = true
  ↔ ∀ i c, 0 ≤ i < row → board !! Z.to_nat i = Some c → ¬ attacks i c row col.
Proof.
  unfold isSafeTraditional. rewrite isSafeFrom_spec by lia.
  split; intros H i c Hi; apply H; lia.
Qed.

(** [isSafeTraditional] answers [true] exactly when no queen of the rows
    above [row] is in column [col] or on a diagonal of the cell
    [(row, col)]. *)
Theorem isSafeTraditional_spec (row col : Z) (board : list Z) :
  isSafeTraditional row col board = true
  ↔ ∀ i c, 0 ≤ i < row → board !! Z.to_nat i = Some c → ¬ attacks i c row col.
Proof.
  unfold isSafeTraditional. rewrite isSafeFrom_spec by lia.
  split; intros H i c Hi; apply H; lia.
Qed.

(** *** Bits of the masks *)

Lemma testbit_toInt32 z k : 0 ≤ k < 32 → Z.testbit (toInt32 z) k = Z.testbit z k.
Proof.
  intros Hk. unfold toInt32.
  destruct (z mod 2 ^ 32 <? 2 ^ 31).
  - apply Z.mod_pow2_bits_low. lia.
  - rewrite <- (Z.mod_pow2_bits_low (z mod 2 ^ 32 - 2 ^ 32) 32 k) by lia.
    replace (z mod 2 ^ 32 - 2 ^ 32) with (z mod 2 ^ 32 + (-1) * 2 ^ 32) by lia.
    rewrite Z_mod_plus_full, Z.mod_mod by lia.
    apply Z.mod_pow2_bits_low. lia.
Qed.

Lemma mod_32_range k : 0 ≤ k mod 32 < 32.
Proof. apply Z.mod_pos_bound. lia. Qed.

Lemma hasBit_shl k : hasBit (shl 1 k) k = true.
Proof.
  unfold hasBit, shl. pose proof (mod_32_range k).
  rewrite testbit_toInt32 by done. change (toInt32 1) with 1.
  rewrite Z.shiftl_spec by lia. by rewrite Z.sub_diag.
Qed.

Lemma hasBit_bor m x k : hasBit (bor m x) k = hasBit m k || hasBit x k.
Proof.
  unfold hasBit, bor. pose proof (mod_32_range k).
  by rewrite testbit_toInt32, Z.lor_spec, !testbit_toInt32.
Qed.

Lemma band_zero m x k :
  band m x = 0 → hasBit x k = true → hasBit m k = false.
Proof.
  unfold hasBit, band. pose proof (mod_32_range k). intros Hz Hx.
  assert (Z.testbit (toInt32 (Z.land (toInt32 m) (toInt32 x))) (k mod 32) = false)
    as Hb by (rewrite Hz; apply Z.bits_0).
  rewrite testbit_toInt32, Z.land_spec, !testbit_toInt32, Hx in Hb by done.
  by rewrite andb_true_r in Hb.
Qed.

(** A cell that the bitmask test accepts is attacked by no queen that the
    masks cover. *)
Lemma isSafeBitmask_sound row col cols diag1 diag2 i c :
  isSafeBitmask row col cols diag1 diag2 = true →
  hasBit cols c = true →
  hasBit diag1 (i - c + MAX_N) = true →
  hasBit diag2 (i + c) = true →
  ¬ attacks i c row col.
Proof.
  unfold isSafeBitmask.
  intros [[Hc Hd1%Z.eqb_eq]%andb_true_iff Hd2%Z.eqb_eq]%andb_true_iff.
  apply Z.eqb_eq in Hc. intros Bc Bd1 Bd2.
  pose proof (band_zero _ _ col Hc (hasBit_shl col)) as Nc.
  pose proof (band_zero _ _ (row - col + MAX_N) Hd1 (hasBit_shl _)) as Nd1.
  pose proof (band_zero _ _ (row + col) Hd2 (hasBit_shl _)) as Nd2.
  intros [->|Habs]; [congruence|].
  assert (i - c = row - col ∨ i + c = row + col) as [Heq|Heq] by lia.
  - rewrite Heq in Bd1. congruence.
  - rewrite Heq in Bd2. congruence.
Qed.

(** *** Every recorded solution is a solution *)

Lemma emit_same s st :
  board (emit s st) = board st ∧ solutions (emit s st) = solutions st.
Proof. done. Qed.

Lemma emitIf_same b f st :
  board (emitIf b f st) = board st ∧ solutions (emitIf b f st) = solutions st.
Proof. by destruct b. Qed.

Lemma emitIf_board b f st : board (emitIf b f st) = board st.
Proof. by destruct b. Qed.

Lemma emitIf_solutions b f st : solutions (emitIf b f st) = solutions st.
Proof. by destruct b. Qed.

Lemma lookup_prefix {A} (r i : nat) (b b' : list A) :
  take r b = take r b' → (i < r)%nat → b !! i = b' !! i.
Proof.
  intros Ht Hi. by rewrite <- (lookup_take_lt b r i), Ht, lookup_take_lt.
Qed.

Lemma placed_prefix n r b b' : take r b = take r b' → placed n r b → placed n r b'.
Proof.
  intros Ht [Hrange Hpairs]. split.
  - intros i c Hi Hc. apply (Hrange i); [done|].
    by rewrite (lookup_prefix r i b b').
  - intros i j ci cj Hij Hi Hj. apply (Hpairs i j); [done|..].
    + by rewrite (lookup_prefix r i b b') by (done || lia).
    + by rewrite (lookup_prefix r j b b') by (done || lia).
Qed.

Lemma covered_prefix r b b' cols diag1 diag2 :
  take r b = take r b' → covered r b cols diag1 diag2 →
  covered r b' cols diag1 diag2.
Proof.
  intros Ht Hcov i c Hi Hc. apply Hcov; [done|].
  by rewrite (lookup_prefix r i b b').
Qed.

Lemma searchPost_base n r st0 st st' :
  take r (board st) = take r (board st0) →
  searchPost n r st st' → searchPost n r st0 st'.
Proof. intros Hb (Hlen & Ht & Hs). split; [done|]. split; [congruence|done]. Qed.

(** A queen put on a safe cell of row [r] extends the placement. *)
Lemma placed_insert n r col b :
  (r < length b)%nat → 0 ≤ col < n → placed n r b →
  (∀ i c, (i < r)%nat → b !! i = Some c → ¬ attacks (Z.of_nat i) c (Z.of_nat r) col) →
  placed n (S r) (<[r := col]> b).
Proof.
  intros Hr Hcol [Hrange Hpairs] Hsafe. split.
  - intros i c Hi. destruct (decide (i = r)) as [->|Hne].
    + rewrite list_lookup_insert_eq by done. by intros [= <-].
    + rewrite list_lookup_insert_ne by done. apply Hrange. lia.
  - intros i j ci cj Hij. destruct (decide (j = r)) as [->|Hne].
    + rewrite list_lookup_insert_ne by lia.
      rewrite list_lookup_insert_eq by done. intros Hi [= <-].
      apply Hsafe; [lia|done].
    + rewrite !list_lookup_insert_ne by lia. apply Hpairs. lia.
Qed.

Section Soundness.
Variables (n maxSolutions : Z) (mode : Mode).
Hypothesis Hn : 0 ≤ n.

Lemma foundSolution_sound st :
  searchPre n (Z.to_nat n) st →
  searchPost n (Z.to_nat n) st (foundSolution n maxSolutions st).2.
Proof.
  intros (Hlen & Hpl & Hsol). unfold foundSolution. simpl.
  split; [done|]. split; [done|].
  apply Forall_app. split; [done|]. by constructor.
Qed.

Lemma traditionalColumns_sound descend (r : nat) sample :
  (r < Z.to_nat n)%nat →
  (∀ st, searchPre n (S r) st → searchPost n (S r) st (descend st).2) →
  ∀ left col st,
    0 ≤ col → col + Z.of_nat left = n → searchPre n r st →
    searchPost n r st
      (traditionalColumns n mode descend (Z.of_nat r) sample left col st).2.
Proof.
  intros Hr Hd left. induction left as [|left IH];
    intros col st Hcol Hleft (Hlen & Hpl & Hsol).
  { simpl. by repeat split. }
  simpl.
  set (st1 := emitIf _ _ st).
  set (safe := isSafeTraditional (Z.of_nat r) col (board st1)).
  set (st2 := emitIf _ _ st1).
  assert (board st2 = board st ∧ solutions st2 = solutions st) as [Hb2 Hs2].
  { unfold st2, st1. by rewrite !emitIf_board, !emitIf_solutions. }
  assert (searchPre n r st2) as Hpre2 by (split; [|split]; congruence).
  destruct safe eqn:Hsafe.
  - set (st3 := setBoard (Z.of_nat r) col st2). set (st4 := emitIf _ _ st3).
    assert (board st4 = <[r := col]> (board st) ∧ solutions st4 = solutions st)
      as [Hb4 Hs4].
    { unfold st4. rewrite emitIf_board, emitIf_solutions.
      simpl. by rewrite Nat2Z.id, Hb2, Hs2. }
    assert (searchPre n (S r) st4) as Hpre4.
    { split; [by rewrite Hb4, length_insert|]. split; [|by rewrite Hs4].
      rewrite Hb4. apply placed_insert; [lia|lia|done|].
      intros i c Hi Hc.
      apply (proj1 (isSafeTraditional_iff (Z.of_nat r) col (board st1))).
      - exact Hsafe.
      - lia.
      - rewrite Nat2Z.id. unfold st1. by rewrite emitIf_board. }
    specialize (Hd st4 Hpre4). destruct (descend st4) as [stop st5].
    simpl in Hd. destruct Hd as (Hlen5 & Ht5 & Hs5).
    assert (take r (board st5) = take r (board st)) as Htake.
    { apply list_eq. intros i. rewrite !lookup_take. case_decide; [|done].
      rewrite (lookup_prefix (S r) i _ _ Ht5) by lia.
      rewrite Hb4. apply list_lookup_insert_ne. lia. }
    destruct stop; simpl; [by repeat split|].
    set (st6 := setBoard (Z.of_nat r) (-1) st5). set (st7 := emitIf _ _ st6).
    assert (board st7 = <[r := -1]> (board st5) ∧ solutions st7 = solutions st5)
      as [Hb7 Hs7].
    { unfold st7. rewrite emitIf_board, emitIf_solutions.
      simpl. by rewrite Nat2Z.id. }
    assert (take r (board st7) = take r (board st)) as Htake7
      by (rewrite Hb7, take_insert_ge by lia; done).
    apply (searchPost_base n r st st7); [done|].
    apply IH; [lia|lia|].
    split; [by rewrite Hb7, length_insert|]. split; [|by rewrite Hs7].
    by apply (placed_prefix n r (board st)).
  - apply (searchPost_base n r st st2); [by rewrite Hb2|].
    apply IH; [lia|lia|done].
Qed.

Lemma solveTraditional_sound rem st :
  (rem ≤ Z.to_nat n)%nat →
  searchPre n (Z.to_nat n - rem) st →
  searchPost n (Z.to_nat n - rem) st
    (solveTraditional n maxSolutions mode rem st).2.
Proof.
  revert st. induction rem as [|rem IH]; intros st Hrem Hpre.
  { simpl. rewrite Nat.sub_0_r in *. by apply foundSolution_sound. }
  simpl. destruct Hpre as (Hlen & Hpl & Hsol).
  destruct (stepCount st >? MAX_STEPS mode); simpl; [by repeat split|].
  set (st1 := tick st). set (st2 := emitIf _ _ st1).
  assert (board st2 = board st ∧ solutions st2 = solutions st) as [Hb2 Hs2].
  { unfold st2. by rewrite emitIf_board, emitIf_solutions. }
  apply (searchPost_base n _ st st2); [by rewrite Hb2|].
  replace (n - Z.of_nat (S rem)) with (Z.of_nat (Z.to_nat n - S rem)) by lia.
  apply traditionalColumns_sound; [lia| |lia|lia|].
  - intros st' Hpre'.
    replace (S (Z.to_nat n - S rem)) with (Z.to_nat n - rem)%nat in * by lia.
    apply IH; [lia|done].
  - split; [|split]; congruence.
Qed.

Lemma bitmaskColumns_sound descend (r : nat) cols diag1 diag2 sample :
  (r < Z.to_nat n)%nat →
  (∀ c d1 d2 st,
     searchPre n (S r) st → covered (S r) (board st) c d1 d2 →
     searchPost n (S r) st (descend c d1 d2 st).2) →
  ∀ left col st,
    0 ≤ col → col + Z.of_nat left = n → searchPre n r st →
    covered r (board st) cols diag1 diag2 →
    searchPost n r st
      (bitmaskColumns n descend (Z.of_nat r) cols diag1 diag2 sample left col st).2.
Proof.
  intros Hr Hd left. induction left as [|left IH];
    intros col st Hcol Hleft (Hlen & Hpl & Hsol) Hcov.
  { simpl. by repeat split. }
  simpl. destruct (isSafeBitmask _ _ _ _ _) eqn:Hsafe.
  - set (st3 := setBoard (Z.of_nat r) col st). set (st4 := emitIf _ _ st3).
    assert (board st4 = <[r := col]> (board st) ∧ solutions st4 = solutions st)
      as [Hb4 Hs4].
    { unfold st4. rewrite emitIf_board, emitIf_solutions.
      simpl. by rewrite Nat2Z.id. }
    assert (searchPre n (S r) st4) as Hpre4.
    { split; [by rewrite Hb4, length_insert|]. split; [|by rewrite Hs4].
      rewrite Hb4. apply placed_insert; [lia|lia|done|].
      intros i c Hi Hc. destruct (Hcov i c Hi Hc) as (B1 & B2 & B3).
      by apply (isSafeBitmask_sound _ _ _ _ _ _ _ Hsafe). }
    match goal with |- context [descend ?c ?d1 ?d2 st4] =>
      specialize (Hd c d1 d2 st4 Hpre4);
      destruct (descend c d1 d2 st4) as [stop st5]
    end.
    simpl in Hd. destruct Hd as (Hlen5 & Ht5 & Hs5).
    { rewrite Hb4. intros i c Hi.
      destruct (decide (i = r)) as [->|Hne].
      - rewrite list_lookup_insert_eq by lia. intros [= <-].
        by rewrite !hasBit_bor, !hasBit_shl, !orb_true_r.
      - rewrite list_lookup_insert_ne by done. intros Hc.
        destruct (Hcov i c) as (B1 & B2 & B3); [lia|done|].
        by rewrite !hasBit_bor, B1, B2, B3. }
    assert (take r (board st5) = take r (board st)) as Htake.
    { apply list_eq. intros i. rewrite !lookup_take. case_decide; [|done].
      rewrite (lookup_prefix (S r) i _ _ Ht5) by lia.
      rewrite Hb4. apply list_lookup_insert_ne. lia. }
    destruct stop; simpl; [by repeat split|].
    set (st6 := setBoard (Z.of_nat r) (-1) st5). set (st7 := emitIf _ _ st6).
    assert (board st7 = <[r := -1]> (board st5) ∧ solutions st7 = solutions st5)
      as [Hb7 Hs7].
    { unfold st7. rewrite emitIf_board, emitIf_solutions.
      simpl. by rewrite Nat2Z.id. }
    assert (take r (board st7) = take r (board st)) as Htake7
      by (rewrite Hb7, take_insert_ge by lia; done).
    apply (searchPost_base n r st st7); [done|].
    apply IH; [lia|lia| |].
    + split; [by rewrite Hb7, length_insert|]. split; [|by rewrite Hs7].
      by apply (placed_prefix n r (board st)).
    + by apply (covered_prefix r (board st)).
  - apply IH; [lia|lia|done|done].
Qed.

Lemma solveBitmask_sound rem cols diag1 diag2 st :
  (rem ≤ Z.to_nat n)%nat →
  searchPre n (Z.to_nat n - rem) st →
  covered (Z.to_nat n - rem) (board st) cols diag1 diag2 →
  searchPost n (Z.to_nat n - rem) st
    (solveBitmask n maxSolutions mode rem cols diag1 diag2 st).2.
Proof.
  revert cols diag1 diag2 st.
  induction rem as [|rem IH]; intros cols diag1 diag2 st Hrem Hpre Hcov.
  { simpl. rewrite Nat.sub_0_r in *. by apply foundSolution_sound. }
  simpl. destruct Hpre as (Hlen & Hpl & Hsol).
  destruct (stepCount st >? MAX_STEPS mode); simpl; [by repeat split|].
  set (st1 := tick st). set (st2 := emitIf _ _ st1).
  assert (board st2 = board st ∧ solutions st2 = solutions st) as [Hb2 Hs2].
  { unfold st2. by rewrite emitIf_board, emitIf_solutions. }
  apply (searchPost_base n _ st st2); [by rewrite Hb2|].
  replace (n - Z.of_nat (S rem)) with (Z.of_nat (Z.to_nat n - S rem)) by lia.
  apply bitmaskColumns_sound; [lia| |lia|lia| |by rewrite Hb2].
  - intros c d1 d2 st' Hpre' Hcov'.
    replace (S (Z.to_nat n - S rem)) with (Z.to_nat n - rem)%nat in * by lia.
    apply IH; [lia|done|done].
  - split; [|split]; congruence.
Qed.

(** Whichever solver runs, the search records only solutions. *)
Lemma search_sound useBitmask steps0 :
  Forall (validPlacement n)
         (solutions (search n maxSolutions mode useBitmask steps0)).
Proof.
  unfold search. set (st := mkSolver _ _ _ _).
  assert (searchPre n 0 st) as Hpre.
  { split; [apply length_replicate|]. split; [|by constructor].
    split; intros; lia. }
  destruct (useBitmask && negb (isFull mode)).
  - pose proof (solveBitmask_sound (Z.to_nat n) 0 0 0 st) as H.
    rewrite Nat.sub_diag in H. apply H; [done|done|]. intros i c Hi. lia.
  - pose proof (solveTraditional_sound (Z.to_nat n) st) as H.
    rewrite Nat.sub_diag in H. by apply H.
Qed.

End Soundness.

(** Soundness of the search: every board that a run reports in
    [allSolutions] has one queen per row, in a column of the board, and no
    two of its queens share a column or a diagonal.  This holds for the
    traditional and for the bitmask solver, also when the step limit cuts
    the search short. *)
Theorem solutions_are_valid (input : Input.t) :
  0 ≤ Input.n input →
  ∃ t final sols,
    generateSteps input = Some (t ++ [final])
    ∧ kind final = "complete"
    ∧ field "allSolutions" (payload final) = Some (VArr (boardValue <$> sols))
    ∧ Forall (validPlacement (effectiveN input)) sols.
Proof.
  intros Hn.
  assert (0 ≤ effectiveN input) as HN by (unfold effectiveN, MAX_N; lia).
  unfold generateSteps.
  destruct (Z.ltb_spec (effectiveN input) 0); [lia|].
  set (st := search _ _ _ _ _).
  pose proof (search_sound (effectiveN input) (effectiveMaxSolutions input)
                (effectiveMode input) HN (effectiveUseBitmask input)
                (push [] (initStep (effectiveN input) (effectiveMaxSolutions input)
                            (effectiveMode input) (effectiveUseBitmask input))))
    as Hsound.
  fold st in Hsound.
  destruct (bool_decide (length (solutions st) = 0%nat));
    eexists _, _, (solutions st); (split; [reflexivity|]); by repeat split.
Qed.

Lemma solutions_are_valid_witness :
  ∃ t final sols,
    generateSteps (Input.mk 6 (Some 4) None None) = Some (t ++ [final])
    ∧ field "allSolutions" (payload final) = Some (VArr (boardValue <$> sols))
    ∧ Forall (validPlacement 6) sols.
Proof.
  destruct (solutions_are_valid (Input.mk 6 (Some 4) None None))
    as (t & final & sols & Hgen & _ & Hall & Hvalid); [simpl; lia|].
  exists t, final, sols. split; [exact Hgen|]. split; [exact Hall|exact Hvalid].
Defined.

(** *** Bookkeeping of a run *)

Lemma countKind_app k (l1 l2 : Trace) :
  countKind k (l1 ++ l2) = (countKind k l1 + countKind k l2)%nat.
Proof. unfold countKind. by rewrite filter_app, length_app. Qed.

Lemma countKind_nil k : countKind k [] = 0%nat.
Proof. done. Qed.

Lemma countKind_one k (s : VisualizationStep) :
  countKind k [s] = if decide (kind s = k) then 1%nat else 0%nat.
Proof.
  unfold countKind. destruct (decide (kind s = k)).
  - by rewrite filter_cons_True.
  - by rewrite filter_cons_False.
Qed.

Lemma countKind_cons k (s : VisualizationStep) (l : Trace) :
  countKind k (s :: l)
  = ((if decide (kind s = k) then 1 else 0) + countKind k l)%nat.
Proof. by rewrite <- countKind_one, <- countKind_app. Qed.

Lemma countKind_none k (l : Trace) :
  k ∉ searchKinds → Forall (λ s, kind s ∈ searchKinds) l → countKind k l = 0%nat.
Proof.
  intros Hk. induction 1 as [|s l Hs _ IH]; [done|].
  rewrite countKind_cons, IH. destruct (decide (kind s = k)); [|done].
  congruence.
Qed.

Section Tally.
Variables (n maxSolutions M : Z) (mode : Mode).
Hypothesis HM : maxSolutions ≤ M.

Lemma tally_same (st st' : Solver) :
  steps st' = steps st → solutions st' = solutions st → tally M st (false, st').
Proof.
  intros Hs Hsol. exists []. simpl. rewrite Hs, Hsol, app_nil_r.
  split; [done|]. split; [constructor|]. split; [by rewrite Nat.add_0_r|].
  split; [done|]. by intros.
Qed.

Lemma tally_trans (st st1 : Solver) (res : bool * Solver) :
  tally M st (false, st1) → tally M st1 res → tally M st res.
Proof.
  intros (e1 & H1 & K1 & S1 & L1 & B1) (e2 & H2 & K2 & S2 & L2 & B2).
  simpl in *. exists (e1 ++ e2). rewrite !countKind_app.
  split; [by rewrite H2, H1, app_assoc|]. split; [by apply Forall_app|].
  split; [lia|]. split; [destruct res.1; lia|]. intros Hlt. by apply B2, B1.
Qed.

Lemma tally_emit s (st : Solver) :
  kind s ∈ ["try-row"; "try-col"; "check-safe"; "place-queen"; "backtrack"] →
  tally M st (false, emit s st).
Proof.
  intros Hk. exists [s]. simpl.
  assert (kind s ∈ searchKinds ∧ kind s ≠ "solution-found"
          ∧ kind s ≠ "step-limit") as (Hin & Hsf & Hsl).
  { unfold searchKinds. rewrite !elem_of_cons in *.
    destruct Hk as [->|[->|[->|[->|[->|Hk]]]]]; [..|by apply elem_of_nil in Hk];
      split; auto 10. }
  rewrite !countKind_one. rewrite !decide_False by done.
  split; [done|]. split; [by constructor|]. split; [by rewrite Nat.add_0_r|].
  split; [done|]. by intros.
Qed.

Lemma tally_emitIf b f (st : Solver) :
  kind (f st) ∈ ["try-row"; "try-col"; "check-safe"; "place-queen"; "backtrack"] →
  tally M st (false, emitIf b f st).
Proof.
  intros Hk. destruct b; simpl; [by apply tally_emit|by apply tally_same].
Qed.

Lemma foundSolution_tally st : tally M st (foundSolution n maxSolutions st).
Proof.
  unfold foundSolution. eexists [_]. simpl.
  split; [done|]. split.
  { constructor; [|constructor]. unfold searchKinds. simpl.
    rewrite !elem_of_cons. auto 10. }
  rewrite !countKind_one. simpl. rewrite length_app. simpl.
  split; [done|]. split; [lia|].
  intros Hlt.
  destruct (Z.geb_spec (Z.of_nat (length (solutions st) + 1)) maxSolutions);
    lia.
Qed.

Lemma stepLimit_tally st :
  tally M st (true, emit (stepLimitStep n (tick st)) (tick st)).
Proof.
  eexists [_]. simpl. split; [done|]. split.
  { constructor; [|constructor]. unfold searchKinds. simpl.
    rewrite !elem_of_cons. auto 10. }
  rewrite !countKind_one. simpl.
  split; [by rewrite Nat.add_0_r|]. split; [done|]. intros; lia.
Qed.

Local Ltac quiet :=
  first [ apply tally_emitIf; simpl; rewrite !elem_of_cons; auto 10
        | apply tally_same; reflexivity ].

Local Ltac chain st' := apply (tally_trans _ st'); [quiet|].

Lemma tally_return st st' : tally M st (false, st') → tally M st (true, st').
Proof.
  intros (e & H & K & S & L & B). exists e. simpl in *.
  split; [done|]. split; [done|]. split; [done|]. split; [lia|].
  intros Hlt. specialize (B Hlt). lia.
Qed.

Lemma traditionalColumns_tally descend row sample :
  (∀ st, tally M st (descend st)) →
  ∀ left col st,
    tally M st (traditionalColumns n mode descend row sample left col st).
Proof.
  intros Hd left. induction left as [|left IH]; intros col st; simpl.
  { by apply tally_same. }
  set (st1 := emitIf _ _ st).
  set (safe := isSafeTraditional row col (board st1)).
  set (st2 := emitIf _ _ st1).
  chain st1. chain st2.
  destruct safe; [|apply IH].
  set (st3 := setBoard row col st2). set (st4 := emitIf _ _ st3).
  chain st3. chain st4.
  specialize (Hd st4). destruct (descend st4) as [stop st5].
  destruct stop; [done|].
  apply (tally_trans _ st5); [done|].
  set (st6 := setBoard row (-1) st5). set (st7 := emitIf _ _ st6).
  chain st6. chain st7. apply IH.
Qed.

Lemma solveTraditional_tally rem st :
  tally M st (solveTraditional n maxSolutions mode rem st).
Proof.
  revert st. induction rem as [|rem IH]; intros st; simpl.
  { apply foundSolution_tally. }
  destruct (stepCount st >? MAX_STEPS mode).
  - apply stepLimit_tally.
  - set (st1 := tick st). set (st2 := emitIf _ _ st1).
    chain st1. chain st2. by apply traditionalColumns_tally.
Qed.

Lemma bitmaskColumns_tally descend row cols diag1 diag2 sample :
  (∀ c d1 d2 st, tally M st (descend c d1 d2 st)) →
  ∀ left col st,
    tally M st (bitmaskColumns n descend row cols diag1 diag2 sample left col st).
Proof.
  intros Hd left. induction left as [|left IH]; intros col st; simpl.
  { by apply tally_same. }
  destruct (isSafeBitmask row col cols diag1 diag2); [|apply IH].
  set (st1 := setBoard row col st). set (st2 := emitIf _ _ st1).
  chain st1. chain st2.
  match goal with |- context [descend ?c ?d1 ?d2 st2] =>
    specialize (Hd c d1 d2 st2); destruct (descend c d1 d2 st2) as [stop st3]
  end.
  destruct stop; [done|].
  apply (tally_trans _ st3); [done|].
  set (st4 := setBoard row (-1) st3). set (st5 := emitIf _ _ st4).
  chain st4. chain st5. apply IH.
Qed.

Lemma solveBitmask_tally rem cols diag1 diag2 st :
  tally M st (solveBitmask n maxSolutions mode rem cols diag1 diag2 st).
Proof.
  revert cols diag1 diag2 st.
  induction rem as [|rem IH]; intros cols diag1 diag2 st; simpl.
  { apply foundSolution_tally. }
  destruct (stepCount st >? MAX_STEPS mode).
  - apply stepLimit_tally.
  - set (st1 := tick st). set (st2 := emitIf _ _ st1).
    chain st1. chain st2. by apply bitmaskColumns_tally.
Qed.

End Tally.

(** The search, from the empty list of solutions. *)
Lemma search_tally n maxSolutions mode useBitmask steps0 :
  ∃ ext,
    steps (search n maxSolutions mode useBitmask steps0) = steps0 ++ ext
    ∧ Forall (λ s, kind s ∈ searchKinds) ext
    ∧ length (solutions (search n maxSolutions mode useBitmask steps0))
      = countKind "solution-found" ext
    ∧ (countKind "step-limit" ext ≤ 1)%nat
    ∧ Z.of_nat (countKind "solution-found" ext) ≤ Z.max 1 maxSolutions.
Proof.
  unfold search. set (st := mkSolver _ _ _ _).
  set (M := Z.max 1 maxSolutions).
  assert (maxSolutions ≤ M) as HM by (unfold M; lia).
  assert (∀ res, tally M st res →
            ∃ ext, steps res.2 = steps0 ++ ext
                   ∧ Forall (λ s, kind s ∈ searchKinds) ext
                   ∧ length (solutions res.2) = countKind "solution-found" ext
                   ∧ (countKind "step-limit" ext ≤ 1)%nat
                   ∧ Z.of_nat (countKind "solution-found" ext) ≤ Z.max 1 maxSolutions)
    as Hres.
  { intros res (ext & H & K & S & L & B). exists ext. simpl in *.
    split; [done|]. split; [done|]. split; [done|].
    split; [destruct res.1; lia|].
    rewrite <- S. fold M. assert (0 < M) as H0 by (unfold M; lia).
    specialize (B H0). destruct res.1; lia. }
  destruct (useBitmask && negb (isFull mode)); apply Hres.
  - by apply solveBitmask_tally.
  - by apply solveTraditional_tally.
Qed.

Lemma not_searchKind k :
  bool_decide (k ∈ searchKinds) = false → k ∉ searchKinds.
Proof. intros H Hin. by rewrite bool_decide_eq_true_2 in H. Qed.

(** The shape of every trace: the [init] step, the steps of the search, a
    [no-solution] step when no solution was recorded, the [complete] step. *)
Lemma generateSteps_tally (input : Input.t) :
  0 ≤ Input.n input →
  ∃ first ext final sols,
    generateSteps input
    = Some (first :: ext
            ++ (if bool_decide (length sols = 0%nat)
                then [noSolutionStep (effectiveN input)] else [])
            ++ [final])
    ∧ kind first = "init" ∧ kind final = "complete"
    ∧ field "solutionsCount" (payload final)
      = Some (num (Z.of_nat (length sols)))
    ∧ field "solutionFound" (payload final)
      = Some (VBool (bool_decide (0 < length sols)%nat))
    ∧ field "allSolutions" (payload final) = Some (VArr (boardValue <$> sols))
    ∧ Forall (λ s, kind s ∈ searchKinds) ext
    ∧ length sols = countKind "solution-found" ext
    ∧ (countKind "step-limit" ext ≤ 1)%nat
    ∧ Z.of_nat (length sols) ≤ Z.max 1 (effectiveMaxSolutions input).
Proof.
  intros Hn.
  assert (0 ≤ effectiveN input) as HN by (unfold effectiveN, MAX_N; lia).
  unfold generateSteps.
  destruct (Z.ltb_spec (effectiveN input) 0); [lia|].
  set (st := search _ _ _ _ _).
  destruct (search_tally (effectiveN input) (effectiveMaxSolutions input)
              (effectiveMode input) (effectiveUseBitmask input)
              (push [] (initStep (effectiveN input) (effectiveMaxSolutions input)
                          (effectiveMode input) (effectiveUseBitmask input))))
    as (ext & Hsteps & Hkinds & Hsols & Hlimit & Hbound).
  fold st in Hsteps, Hsols. rewrite <- Hsols in Hbound.
  exists (initStep (effectiveN input) (effectiveMaxSolutions input)
            (effectiveMode input) (effectiveUseBitmask input)),
    ext, (completeStep (effectiveN input) st), (solutions st).
  split; [|by repeat split].
  destruct (bool_decide (length (solutions st) = 0%nat));
    simpl; rewrite Hsteps; unfold push; simpl; by rewrite <- ?app_assoc.
Qed.

(** Bookkeeping of a run: the trace has exactly one [init] step, one
    [solution-found] step for each solution counted by the closing
    [complete] step (whose [solutionFound] flag says whether that count is
    positive), a [no-solution] step exactly when the count is zero, and at
    most one [step-limit] step. *)
Theorem run_bookkeeping (input : Input.t) :
  0 ≤ Input.n input →
  ∃ t final (k : nat),
    generateSteps input = Some (t ++ [final])
    ∧ kind final = "complete"
    ∧ field "solutionsCount" (payload final) = Some (num (Z.of_nat k))
    ∧ field "solutionFound" (payload final)
      = Some (VBool (bool_decide (0 < k)%nat))
    ∧ countKind "solution-found" t = k
    ∧ countKind "no-solution" t = (if bool_decide (k = 0%nat) then 1 else 0)%nat
    ∧ (countKind "step-limit" t ≤ 1)%nat
    ∧ countKind "init" t = 1%nat
    ∧ countKind "complete" t = 0%nat.
Proof.
  intros Hn.
  destruct (generateSteps_tally input Hn)
    as (first & ext & final & sols & Hgen & Hfirst & Hfinal & Hcount & Hfound
        & _ & Hkinds & Hsols & Hlimit & _).
  exists (first :: ext ++ (if bool_decide (length sols = 0%nat)
                           then [noSolutionStep (effectiveN input)] else [])),
    final, (length sols).
  split; [by rewrite Hgen; simpl; rewrite <- app_assoc|].
  split; [done|]. split; [done|]. split; [done|].
  rewrite !countKind_cons, !countKind_app, Hfirst.
  rewrite !(countKind_none "no-solution"), !(countKind_none "init"),
    !(countKind_none "complete") by (done || by apply not_searchKind).
  rewrite <- Hsols.
  destruct (bool_decide (length sols = 0%nat)); simpl;
    rewrite ?countKind_one, ?countKind_nil; simpl; lia.
Qed.

Lemma run_bookkeeping_witness :
  ∃ t final (k : nat),
    generateSteps (Input.mk 6 (Some 3) None (Some true)) = Some (t ++ [final])
    ∧ field "solutionsCount" (payload final) = Some (num (Z.of_nat k))
    ∧ countKind "solution-found" t = k
    ∧ countKind "no-solution" t = (if bool_decide (k = 0%nat) then 1 else 0)%nat.
Proof.
  destruct (run_bookkeeping (Input.mk 6 (Some 3) None (Some true)))
    as (t & final & k & Hgen & _ & Hcount & _ & Hfound & Hnone & _);
    [simpl; lia|].
  exists t, final, k.
  split; [exact Hgen|]. split; [exact Hcount|]. split; [exact Hfound|exact Hnone].
Defined.

(** The limit on solutions, for the inputs whose [maxSolutions] is absent or
    an integer (the type of [Input.maxSolutions]; a fraction, which
    [validateInput] lets through, is not covered): a run reports at most
    [max 1 maxSolutions] solutions, where [maxSolutions] is the effective
    limit ([input.maxSolutions || 1]). *)
Theorem solutions_bounded (input : Input.t) :
  0 ≤ Input.n input →
  ∃ t final sols,
    generateSteps input = Some (t ++ [final])
    ∧ kind final = "complete"
    ∧ field "allSolutions" (payload final) = Some (VArr (boardValue <$> sols))
    ∧ field "solutionsCount" (payload final)
      = Some (num (Z.of_nat (length sols)))
    ∧ Z.of_nat (length sols) ≤ Z.max 1 (effectiveMaxSolutions input).
Proof.
  intros Hn.
  destruct (generateSteps_tally input Hn)
    as (first & ext & final & sols & Hgen & _ & Hfinal & Hcount & _ & Hall
        & _ & _ & _ & Hbound).
  exists (first :: ext ++ (if bool_decide (length sols = 0%nat)
                           then [noSolutionStep (effectiveN input)] else [])),
    final, sols.
  split; [by rewrite Hgen; simpl; rewrite <- app_assoc|]. by repeat split.
Qed.

Lemma solutions_bounded_witness :
  ∃ t final sols,
    generateSteps (Input.mk 6 (Some 3) None None) = Some (t ++ [final])
    ∧ field "allSolutions" (payload final) = Some (VArr (boardValue <$> sols))
    ∧ Z.of_nat (length sols) ≤ 3.
Proof.
  destruct (solutions_bounded (Input.mk 6 (Some 3) None None))
    as (t & final & sols & Hgen & _ & Hall & _ & Hbound); [simpl; lia|].
  exists t, final, sols. split; [exact Hgen|]. split; [exact Hall|exact Hbound].
Defined.

(** *** The two solvers agree *)

Lemma toInt32_zero z : z mod 2 ^ 32 = 0 → toInt32 z = 0.
Proof. intros H. unfold toInt32. by rewrite H. Qed.

Lemma shl_one k : shl 1 k = toInt32 (2 ^ (k mod 32)).
Proof.
  unfold shl. change (toInt32 1) with 1. f_equal.
  rewrite Z.shiftl_1_l. done.
Qed.

Lemma hasBit_shl_inv j k : hasBit (shl 1 j) k = true → j mod 32 = k mod 32.
Proof.
  unfold hasBit. rewrite shl_one.
  pose proof (mod_32_range j). pose proof (mod_32_range k).
  rewrite testbit_toInt32, Z.pow2_bits_eqb by lia. by intros ?%Z.eqb_eq.
Qed.

Lemma band_nonzero m k : band m (shl 1 k) ≠ 0 → hasBit m k = true.
Proof.
  intros Hnz. apply not_false_iff_true. intros Hbit. apply Hnz.
  unfold band. apply toInt32_zero. apply Z.bits_inj'. intros i Hi.
  rewrite Z.bits_0. destruct (Z.ltb_spec i 32) as [Hlt|Hge].
  - rewrite Z.mod_pow2_bits_low, Z.land_spec, !testbit_toInt32 by lia.
    rewrite shl_one, testbit_toInt32 by lia.
    pose proof (mod_32_range k).
    rewrite Z.pow2_bits_eqb by lia.
    destruct (Z.eqb_spec (k mod 32) i) as [<-|_]; [|apply andb_false_r].
    unfold hasBit in Hbit. by rewrite Hbit.
  - apply Z.mod_pow2_bits_high. lia.
Qed.

Lemma hasBit_zero k : hasBit 0 k = false.
Proof. apply Z.bits_0. Qed.

(** On a board of at most 17 rows, two cells whose diagonals share a bit of
    a mask are on a common diagonal, and the bitmask test answers as the
    traditional one. *)
Lemma isSafeBitmask_exact n (r : nat) col b cols diag1 diag2 :
  0 ≤ n ≤ 17 → (r < Z.to_nat n)%nat → 0 ≤ col < n →
  placed n r b → exact r b cols diag1 diag2 →
  isSafeBitmask (Z.of_nat r) col cols diag1 diag2
  = isSafeTraditional (Z.of_nat r) col b.
Proof.
  intros Hn Hr Hcol [Hrange _] [Hcov Hex].
  destruct (isSafeBitmask _ _ _ _ _) eqn:Hb; symmetry.
  - apply isSafeTraditional_iff. intros i c Hi Hc.
    destruct (Hcov (Z.to_nat i) c) as (B1 & B2 & B3); [lia|done|].
    rewrite Z2Nat.id in B2, B3 by lia.
    by apply (isSafeBitmask_sound _ _ _ _ _ _ _ Hb).
  - apply not_true_is_false. intros Ht.
    assert (∀ i c, (i < r)%nat → b !! i = Some c →
                   ¬ attacks (Z.of_nat i) c (Z.of_nat r) col) as Hsafe.
    { intros i c Hi Hc.
      apply (proj1 (isSafeTraditional_iff (Z.of_nat r) col b) Ht); [lia|].
      by rewrite Nat2Z.id. }
    unfold isSafeBitmask in Hb.
    assert (MAX_N = 20) as HM by done.
    apply andb_false_iff in Hb as [[Hz|Hz]%andb_false_iff|Hz];
      apply Z.eqb_neq, band_nonzero in Hz.
    + destruct (proj1 (Hex col) Hz) as (i & c & Hi & Hc & Heq).
      pose proof (Hrange i c Hi Hc). apply (Hsafe i c Hi Hc). left.
      rewrite !Z.mod_small in Heq by lia. done.
    + destruct (proj1 (proj2 (Hex _)) Hz) as (i & c & Hi & Hc & Heq).
      pose proof (Hrange i c Hi Hc). apply (Hsafe i c Hi Hc). right.
      revert Heq. rewrite HM. Z.div_mod_to_equations. lia.
    + destruct (proj2 (proj2 (Hex _)) Hz) as (i & c & Hi & Hc & Heq).
      pose proof (Hrange i c Hi Hc). apply (Hsafe i c Hi Hc). right.
      revert Heq. Z.div_mod_to_equations. lia.
Qed.

Lemma exact_prefix r b b' cols diag1 diag2 :
  take r b = take r b' → exact r b cols diag1 diag2 →
  exact r b' cols diag1 diag2.
Proof.
  intros Ht [Hcov Hex]. split; [by apply (covered_prefix r b)|].
  intros k. destruct (Hex k) as (E1 & E2 & E3).
  split; [|split]; intros Hbit;
    [destruct (E1 Hbit) as (i & c & Hi & Hc & Heq)
    |destruct (E2 Hbit) as (i & c & Hi & Hc & Heq)
    |destruct (E3 Hbit) as (i & c & Hi & Hc & Heq)];
    exists i, c; (split; [done|]); (split; [|done]);
    by rewrite <- (lookup_prefix r i b b').
Qed.

Lemma exact_insert (r : nat) col b cols diag1 diag2 :
  (r < length b)%nat → exact r b cols diag1 diag2 →
  exact (S r) (<[r := col]> b)
    (bor cols (shl 1 col)) (bor diag1 (shl 1 (Z.of_nat r - col + MAX_N)))
    (bor diag2 (shl 1 (Z.of_nat r + col))).
Proof.
  intros Hr [Hcov Hex]. split.
  - intros i c Hi. destruct (decide (i = r)) as [->|Hne].
    + rewrite list_lookup_insert_eq by lia. intros [= <-].
      by rewrite !hasBit_bor, !hasBit_shl, !orb_true_r.
    + rewrite list_lookup_insert_ne by done. intros Hc.
      destruct (Hcov i c) as (B1 & B2 & B3); [lia|done|].
      by rewrite !hasBit_bor, B1, B2, B3.
  - intros k. destruct (Hex k) as (E1 & E2 & E3).
    rewrite !hasBit_bor.
    split; [|split]; intros [Hbit|Hbit%hasBit_shl_inv]%orb_true_iff;
      try (exists r, col; split; [lia|]; split;
             [by apply list_lookup_insert_eq|done]);
      [destruct (E1 Hbit) as (i & c & Hi & Hc & Heq)
      |destruct (E2 Hbit) as (i & c & Hi & Hc & Heq)
      |destruct (E3 Hbit) as (i & c & Hi & Hc & Heq)];
      exists i, c; (split; [lia|]); (split; [|done]);
      by rewrite list_lookup_insert_ne by lia.
Qed.

Lemma not_hidden k : bool_decide (k ∈ hidden) = false → k ∉ hidden.
Proof. intros H Hin. by rewrite bool_decide_eq_true_2 in H. Qed.

(** The bound is sharp: on a board of 18 rows the masks wrap around, and the
    queen at (0, 15) blocks the cell (17, 0), which it does not attack. *)
Remark bitmask_wraps_at_18 :
  isSafeBitmask 17 0 (shl 1 15) (shl 1 (0 - 15 + MAX_N)) (shl 1 (0 + 15)) = false
  ∧ isSafeTraditional 17 0 [15] = true.
Proof. by vm_compute. Qed.

Section Agreement.
Variables (n maxSolutions : Z) (mode : Mode) (pb pt : Trace).
Hypothesis Hn : 0 ≤ n ≤ 17.

Lemma sameSearch_emit s sb st :
  kind s ∉ hidden → sameSearch pb pt sb st →
  sameSearch pb pt (emit s sb) (emit s st).
Proof.
  intros Hk (Hb & Hs & Hc & ext & Ht & Hsb).
  split; [done|]. split; [done|]. split; [done|].
  exists (ext ++ [s]). simpl. unfold push. rewrite Ht, Hsb, filter_app.
  rewrite (filter_cons_True _ s) by done.
  by rewrite <- !app_assoc.
Qed.

Lemma sameSearch_emitIf b f sb st :
  f sb = f st → kind (f st) ∉ hidden → sameSearch pb pt sb st →
  sameSearch pb pt (emitIf b f sb) (emitIf b f st).
Proof.
  intros Hf Hk Hsame. destruct b; simpl; [|done].
  rewrite Hf. by apply sameSearch_emit.
Qed.

Lemma sameSearch_hide b f sb st :
  kind (f st) ∈ hidden → sameSearch pb pt sb st →
  sameSearch pb pt sb (emitIf b f st).
Proof.
  intros Hk (Hb & Hs & Hc & ext & Ht & Hsb). destruct b; simpl; [|by repeat split; eauto].
  split; [done|]. split; [done|]. split; [done|].
  exists (ext ++ [f st]). simpl. unfold push. rewrite Ht, Hsb, filter_app.
  rewrite (filter_cons_False _ (f st)) by (intros H; by apply H).
  by rewrite <- app_assoc, app_nil_r.
Qed.

Lemma sameSearch_setBoard row col sb st :
  sameSearch pb pt sb st →
  sameSearch pb pt (setBoard row col sb) (setBoard row col st).
Proof.
  intros (Hb & Hs & Hc & Hext). split; [simpl; by rewrite Hb|]. by repeat split.
Qed.

Lemma sameSearch_tick sb st :
  sameSearch pb pt sb st → sameSearch pb pt (tick sb) (tick st).
Proof.
  intros (Hb & Hs & Hc & Hext). split; [done|]. split; [done|].
  split; [simpl; by rewrite Hc|done].
Qed.

Lemma foundSolution_agree sb st :
  sameSearch pb pt sb st →
  sameResult pb pt (foundSolution n maxSolutions sb)
                   (foundSolution n maxSolutions st).
Proof.
  intros (Hb & Hs & Hc & ext & Ht & Hsb). unfold foundSolution.
  rewrite Hb, Hs. split; [done|]. simpl.
  split; [done|]. split; [done|]. split; [done|].
  eexists (ext ++ [_]). simpl. unfold push. rewrite Ht, Hsb, filter_app.
  rewrite filter_cons_True.
  - rewrite <- !app_assoc. split; reflexivity.
  - simpl. unfold hidden. rewrite !not_elem_of_cons. by repeat split; [..|apply not_elem_of_nil].
Qed.

Lemma columns_agree descB descT (r : nat) cols diag1 diag2 sample :
  (r < Z.to_nat n)%nat →
  (∀ st, searchPre n (S r) st → searchPost n (S r) st (descT st).2) →
  (∀ c d1 d2 sb st,
     sameSearch pb pt sb st → searchPre n (S r) st →
     exact (S r) (board st) c d1 d2 →
     sameResult pb pt (descB c d1 d2 sb) (descT st)) →
  ∀ left col sb st,
    0 ≤ col → col + Z.of_nat left = n → sameSearch pb pt sb st →
    searchPre n r st → exact r (board st) cols diag1 diag2 →
    sameResult pb pt
      (bitmaskColumns n descB (Z.of_nat r) cols diag1 diag2 sample left col sb)
      (traditionalColumns n mode descT (Z.of_nat r) sample left col st).
Proof.
  intros Hr HdT Hd left. induction left as [|left IH];
    intros col sb st Hcol Hleft Hsame (Hlen & Hpl & Hsol) Hex.
  { simpl. by split. }
  simpl.
  set (st1 := emitIf _ _ st).
  set (safe := isSafeTraditional (Z.of_nat r) col (board st1)).
  set (st2 := emitIf _ _ st1).
  assert (board st2 = board st ∧ solutions st2 = solutions st) as [Hb2 Hs2].
  { unfold st2, st1. by rewrite !emitIf_board, !emitIf_solutions. }
  assert (sameSearch pb pt sb st2) as Hsame2.
  { apply sameSearch_hide; [simpl; unfold hidden; rewrite !elem_of_cons; auto|].
    apply sameSearch_hide; [simpl; unfold hidden; rewrite !elem_of_cons; auto|].
    done. }
  assert (searchPre n r st2) as Hpre2 by (split; [|split]; congruence).
  rewrite (isSafeBitmask_exact n r col (board st)) by (done || lia).
  replace (isSafeTraditional (Z.of_nat r) col (board st)) with safe
    by (unfold safe, st1; by rewrite emitIf_board).
  destruct safe eqn:Hsafe; [|by apply IH; [lia|lia|done|done|rewrite Hb2]].
  set (sb3 := setBoard (Z.of_nat r) col sb). set (sb4 := emitIf _ _ sb3).
  set (st3 := setBoard (Z.of_nat r) col st2). set (st4 := emitIf _ _ st3).
  assert (sameSearch pb pt sb4 st4) as Hsame4.
  { assert (sameSearch pb pt sb3 st3) as Hsame3 by by apply sameSearch_setBoard.
    apply sameSearch_emitIf; [|simpl; by apply not_hidden|done].
    unfold cellStep. by rewrite (proj1 Hsame3). }
  assert (board st4 = <[r := col]> (board st) ∧ solutions st4 = solutions st)
    as [Hb4 Hs4].
  { unfold st4. rewrite emitIf_board, emitIf_solutions.
    simpl. by rewrite Nat2Z.id, Hb2, Hs2. }
  assert (searchPre n (S r) st4) as Hpre4.
  { split; [by rewrite Hb4, length_insert|]. split; [|by rewrite Hs4].
    rewrite Hb4. apply placed_insert; [lia|lia|done|].
    intros i c Hi Hc.
    apply (proj1 (isSafeTraditional_iff (Z.of_nat r) col (board st1))).
    - exact Hsafe.
    - lia.
    - rewrite Nat2Z.id. unfold st1. by rewrite emitIf_board. }
  assert (exact (S r) (board st4)
            (bor cols (shl 1 col)) (bor diag1 (shl 1 (Z.of_nat r - col + MAX_N)))
            (bor diag2 (shl 1 (Z.of_nat r + col)))) as Hex4.
  { rewrite Hb4. apply exact_insert; [lia|done]. }
  specialize (Hd _ _ _ sb4 st4 Hsame4 Hpre4 Hex4).
  specialize (HdT st4 Hpre4).
  destruct (descB _ _ _ sb4) as [stopB sb5].
  destruct (descT st4) as [stop st5].
  destruct Hd as [Hstop Hsame5]. simpl in Hstop, Hsame5, HdT. subst stopB.
  destruct HdT as (Hlen5 & Ht5 & Hs5).
  destruct stop; [by split|].
  set (sb6 := setBoard (Z.of_nat r) (-1) sb5). set (sb7 := emitIf _ _ sb6).
  set (st6 := setBoard (Z.of_nat r) (-1) st5). set (st7 := emitIf _ _ st6).
  assert (sameSearch pb pt sb7 st7) as Hsame7.
  { assert (sameSearch pb pt sb6 st6) as Hsame6 by by apply sameSearch_setBoard.
    apply sameSearch_emitIf; [|simpl; by apply not_hidden|done].
    unfold cellStep. by rewrite (proj1 Hsame6). }
  assert (board st7 = <[r := -1]> (board st5) ∧ solutions st7 = solutions st5)
    as [Hb7 Hs7].
  { unfold st7. rewrite emitIf_board, emitIf_solutions.
    simpl. by rewrite Nat2Z.id. }
  assert (take r (board st5) = take r (board st)) as Htake.
  { apply list_eq. intros i. rewrite !lookup_take. case_decide; [|done].
    rewrite (lookup_prefix (S r) i _ _ Ht5) by lia.
    rewrite Hb4. apply list_lookup_insert_ne. lia. }
  assert (take r (board st7) = take r (board st)) as Htake7
    by (rewrite Hb7, take_insert_ge by lia; done).
  apply IH; [lia|lia|done| |].
  - split; [by rewrite Hb7, length_insert|]. split; [|by rewrite Hs7].
    by apply (placed_prefix n r (board st)).
  - by apply (exact_prefix r (board st)).
Qed.

Lemma solvers_agree rem cols diag1 diag2 sb st :
  (rem ≤ Z.to_nat n)%nat →
  sameSearch pb pt sb st →
  searchPre n (Z.to_nat n - rem) st →
  exact (Z.to_nat n - rem) (board st) cols diag1 diag2 →
  sameResult pb pt
    (solveBitmask n maxSolutions mode rem cols diag1 diag2 sb)
    (solveTraditional n maxSolutions mode rem st).
Proof.
  revert cols diag1 diag2 sb st.
  induction rem as [|rem IH]; intros cols diag1 diag2 sb st Hrem Hsame Hpre Hex.
  { simpl. by apply foundSolution_agree. }
  simpl. rewrite (proj1 (proj2 (proj2 Hsame))).
  destruct (stepCount st >? MAX_STEPS mode).
  { split; [done|]. simpl.
    replace (stepLimitStep n (tick sb)) with (stepLimitStep n (tick st))
      by (unfold stepLimitStep; simpl; by rewrite (proj1 (proj2 Hsame))).
    apply sameSearch_emit; [by apply not_hidden|].
    by apply sameSearch_tick. }
  set (sb1 := tick sb). set (sb2 := emitIf _ _ sb1).
  set (st1 := tick st). set (st2 := emitIf _ _ st1).
  assert (sameSearch pb pt sb2 st2) as Hsame2.
  { assert (sameSearch pb pt sb1 st1) as Hsame1 by by apply sameSearch_tick.
    apply sameSearch_emitIf; [|simpl; by apply not_hidden|done].
    unfold rowStep. by rewrite (proj1 Hsame1). }
  assert (board st2 = board st ∧ solutions st2 = solutions st) as [Hb2 Hs2].
  { unfold st2. by rewrite emitIf_board, emitIf_solutions. }
  destruct Hpre as (Hlen & Hpl & Hsol).
  replace (n - Z.of_nat (S rem)) with (Z.of_nat (Z.to_nat n - S rem)) by lia.
  apply columns_agree; [lia| | |lia|lia|done| |by rewrite Hb2].
  - intros st' Hpre'.
    replace (S (Z.to_nat n - S rem)) with (Z.to_nat n - rem)%nat in * by lia.
    apply solveTraditional_sound; [lia|lia|done].
  - intros c d1 d2 sb' st' Hsame' Hpre' Hex'.
    replace (S (Z.to_nat n - S rem)) with (Z.to_nat n - rem)%nat in * by lia.
    apply IH; [lia|done|done|done].
  - split; [|split]; congruence.
Qed.

End Agreement.

(** Both searches, each from its own first steps. *)
Lemma search_agree n maxSolutions mode pb pt :
  0 ≤ n ≤ 17 → isFull mode = false →
  sameSearch pb pt (search n maxSolutions mode true pb)
                   (search n maxSolutions mode false pt).
Proof.
  intros Hn Hmode. unfold search. rewrite Hmode. simpl.
  pose proof (solvers_agree n maxSolutions mode pb pt Hn (Z.to_nat n) 0 0 0
                (mkSolver (replicate (Z.to_nat n) (-1)) [] pb 0)
                (mkSolver (replicate (Z.to_nat n) (-1)) [] pt 0)) as H.
  rewrite Nat.sub_diag in H. apply H; [done| | |].
  - split; [done|]. split; [done|]. split; [done|].
    exists []. simpl. by rewrite !app_nil_r.
  - split; [apply length_replicate|]. split; [|by constructor].
    split; intros; lia.
  - split; [intros i c Hi; lia|]. intros k. rewrite hasBit_zero. by repeat split.
Qed.

(** The bitmask solver and the traditional solver agree on boards of at most
    17 rows: outside the full mode, the trace of a run with [useBitmask] is,
    after its [init] step, the trace of the run without it less the
    [try-col] and [check-safe] steps, which only the traditional solver
    emits.  Both runs therefore find the same solutions in the same order
    and stop at the same point. *)
Theorem bitmask_agrees_with_traditional (input : Input.t) :
  0 ≤ Input.n input ≤ 17 →
  isFull (effectiveMode input) = false →
  ∃ initB initT rest,
    generateSteps (withBitmask true input)
    = Some (initB :: filter (λ s, kind s ∉ hidden) rest)
    ∧ generateSteps (withBitmask false input) = Some (initT :: rest).
Proof.
  intros Hn Hmode.
  assert (effectiveN input = Input.n input) as HN
    by (unfold effectiveN, MAX_N; lia).
  unfold generateSteps.
  change (effectiveN (withBitmask _ input)) with (effectiveN input).
  change (effectiveMaxSolutions (withBitmask _ input))
    with (effectiveMaxSolutions input).
  change (effectiveMode (withBitmask _ input)) with (effectiveMode input).
  change (effectiveUseBitmask (withBitmask true input)) with true.
  change (effectiveUseBitmask (withBitmask false input)) with false.
  destruct (Z.ltb_spec (effectiveN input) 0); [lia|].
  set (pb := push [] _). set (pt := push [] _).
  destruct (search_agree (effectiveN input) (effectiveMaxSolutions input)
              (effectiveMode input) pb pt) as (Hb & Hs & _ & ext & Ht & Hsb);
    [lia|done|].
  set (sb := search _ _ _ true pb) in *. set (st := search _ _ _ false pt) in *.
  cbv zeta. fold sb st. rewrite Hs.
  assert (∀ s, completeStep (effectiveN input) (emit s sb)
               = completeStep (effectiveN input) st) as Hc1
    by (intros s; unfold completeStep; simpl; by rewrite Hb, Hs).
  assert (completeStep (effectiveN input) sb
          = completeStep (effectiveN input) st) as Hc2
    by (unfold completeStep; by rewrite Hb, Hs).
  exists (initStep (effectiveN input) (effectiveMaxSolutions input)
            (effectiveMode input) true),
    (initStep (effectiveN input) (effectiveMaxSolutions input)
       (effectiveMode input) false),
    (ext ++ (if bool_decide (length (solutions st) = 0%nat)
             then [noSolutionStep (effectiveN input)] else [])
     ++ [completeStep (effectiveN input) st]).
  rewrite !filter_app.
  destruct (bool_decide (length (solutions st) = 0%nat)); simpl;
    rewrite ?Hc1, ?Hc2, Hsb, Ht; unfold push, pb, pt; simpl.
  - rewrite !filter_cons_True, filter_nil by (simpl; by apply not_hidden).
    rewrite <- ?app_assoc, ?app_nil_r. by split.
  - rewrite !filter_cons_True, filter_nil by (simpl; by apply not_hidden).
    rewrite <- ?app_assoc, ?app_nil_r. by split.
Qed.

Lemma bitmask_agrees_with_traditional_witness :
  ∃ initB initT rest,
    generateSteps (Input.mk 6 (Some 2) (Some sampling) (Some true))
    = Some (initB :: filter (λ s, kind s ∉ hidden) rest)
    ∧ generateSteps (Input.mk 6 (Some 2) (Some sampling) (Some false))
      = Some (initT :: rest).
Proof.
  apply (bitmask_agrees_with_traditional
           (Input.mk 6 (Some 2) (Some sampling) None)); [simpl; lia|reflexivity].
Defined.

End NQueensMore.

(** ** Tower of Hanoi *)

Module HanoiFacts.
Import Hanoi.
Local Open Scope Z_scope.

Lemma pop_snoc l d : pop (l ++ [d]) = Some (d, l).
Proof. unfold pop. by rewrite last_snoc, removelast_last. Qed.

Lemma stack_S n k :
  stack n (S k) = mkDisk (n - Z.of_nat (S k)) (Z.of_nat (S k)) :: stack n k.
Proof.
  unfold stack. rewrite seqZ_cons by lia. simpl. f_equal; [f_equal; lia|].
  f_equal. f_equal; lia.
Qed.

Lemma initialPeg_stack n : initialPeg n = stack (Z.of_nat n) n.
Proof. unfold initialPeg, stack. by rewrite Z.sub_diag. Qed.

Lemma base_nil k : base k [].
Proof. split; [|by constructor]. intros i j a b _ Hi. by rewrite lookup_nil in Hi. Qed.

Lemma base_mono k l : base (S k) l → base k l.
Proof.
  intros [Hd Ha]. split; [done|]. eapply Forall_impl; [exact Ha|].
  simpl. intros d Hs. lia.
Qed.

Lemma base_snoc k l d : base (S k) l → size d = Z.of_nat (S k) → base k (l ++ [d]).
Proof.
  intros [Hd Ha] Hs. split.
  - intros i j a b Hij Hi Hj.
    assert (j < length (l ++ [d]))%nat as Hlen by by eapply lookup_lt_Some.
    rewrite length_app in Hlen. simpl in Hlen.
    rewrite lookup_app_l in Hi by lia.
    destruct (decide (j < length l)%nat).
    + rewrite lookup_app_l in Hj by done. by apply (Hd i j).
    + rewrite lookup_app_r in Hj by lia.
      replace (j - length l)%nat with 0%nat in Hj by lia. injection Hj as <-.
      rewrite Forall_lookup in Ha. specialize (Ha i a Hi). simpl in Ha. lia.
  - apply Forall_app. split.
    + eapply Forall_impl; [exact Ha|]. simpl. intros x Hx. lia.
    + constructor; [lia|constructor].
Qed.

Lemma base_stack n k l : base k l → descending (l ++ stack n k).
Proof.
  revert l. induction k as [|k IH]; intros l Hb.
  { unfold stack. simpl. rewrite app_nil_r. apply Hb. }
  rewrite stack_S, (cons_middle _ l), app_assoc. apply IH.
  by apply base_snoc.
Qed.

Lemma base_top k l d top :
  base k l → size d = Z.of_nat k → last l = Some top → (size top >? size d) = true.
Proof.
  intros [_ Ha] Hs Hl. apply last_Some_elem_of in Hl.
  rewrite Forall_forall in Ha. specialize (Ha top Hl). simpl in Ha. lia.
Qed.

Lemma layout_descending ps from to aux pf pt pa :
  distinct from to aux → layout ps from to aux pf pt pa →
  descending pf → descending pt → descending pa → Forall descending ps.
Proof.
  intros (H1 & H2 & H3) (Hlen & Hf & Ht & Ha) Df Dt Da.
  apply Forall_lookup. intros i x Hi.
  pose proof (lookup_lt_Some _ _ _ Hi). pose proof (lookup_lt_Some _ _ _ Hf).
  pose proof (lookup_lt_Some _ _ _ Ht). pose proof (lookup_lt_Some _ _ _ Ha).
  assert (i = from ∨ i = to ∨ i = aux) as [Heq|[Heq|Heq]] by lia; subst i;
    [rewrite Hf in Hi|rewrite Ht in Hi|rewrite Ha in Hi]; by injection Hi as <-.
Qed.

(** [solve(k, from, to, aux, depth)] moves the [k] smallest disks from the
    top of peg [from] to the top of peg [to] in [2^k - 1] legal steps, and
    leaves the rest as it was. *)
Lemma solve_spec n k :
  ∀ from to aux depth st bf bt ba,
    distinct from to aux →
    layout (curPegs st) from to aux (bf ++ stack n k) bt ba →
    base k bf → base k bt → base k ba →
    ∃ ext ps,
      solve k from to aux depth st
      = Some (mkSolver ps (steps st ++ ext) (stepId st + (2 ^ Z.of_nat k - 1)))
      ∧ layout ps from to aux bf (bt ++ stack n k) ba
      ∧ id <$> ext = seqZ (stepId st) (2 ^ Z.of_nat k - 1)
      ∧ Forall legal ext.
Proof.
  induction k as [|k IH];
    intros from to aux depth st bf bt ba Hd Hl Bf Bt Ba.
  { exists [], (curPegs st). simpl.
    unfold stack in *. simpl in *. rewrite !app_nil_r in *.
    change (2 ^ Z.of_nat 0 - 1) with 0. rewrite Z.add_0_r.
    split; [by destruct st|]. split; [done|]. split; [done|constructor]. }
  destruct Hd as (Hft & Hfa & Hta).
  destruct Hl as (Hlen & Lf & Lt & La).
  set (d := mkDisk (n - Z.of_nat (S k)) (Z.of_nat (S k))).
  rewrite stack_S in Lf. fold d in Lf.
  rewrite (cons_middle d bf), app_assoc in Lf.
  destruct (IH from aux to (depth + 1) st (bf ++ [d]) ba bt)
    as (e1 & p1 & H1 & (Hlen1 & Lf1 & La1 & Lt1) & Hid1 & Hleg1).
  { by repeat split. }
  { by repeat split. }
  { by apply base_snoc. }
  { by apply base_mono. }
  { by apply base_mono. }
  cbn [solve]. rewrite H1. cbn [mbind option_bind curPegs].
  rewrite Lf1. cbn [mbind option_bind]. rewrite pop_snoc. cbn [mbind option_bind].
  rewrite list_lookup_insert_ne by done. rewrite Lt1.
  cbn [mbind option_bind steps stepId curPegs].
  set (p2 := <[to := bt ++ [d]]> (<[from := bf]> p1)).
  set (valid := match last bt with Some top => size top >? size d | None => true end).
  assert (valid = true) as Hvalid.
  { unfold valid. destruct (last bt) as [top|] eqn:Hlast; [|done].
    by apply (base_top (S k) bt). }
  assert (layout p2 aux to from (ba ++ stack n k) (bt ++ [d]) bf) as Hl2.
  { unfold p2. split; [by rewrite !length_insert|].
    pose proof (lookup_lt_Some _ _ _ Lf1). pose proof (lookup_lt_Some _ _ _ Lt1).
    split; [by rewrite !list_lookup_insert_ne by done|].
    split; [apply list_lookup_insert_eq; by rewrite length_insert|].
    rewrite list_lookup_insert_ne by done. by apply list_lookup_insert_eq. }
  set (step := mkHanoiStep _ _ valid).
  destruct (IH aux to from (depth + 1)
              (mkSolver p2 ((steps st ++ e1) ++ [step])
                        (stepId st + (2 ^ Z.of_nat k - 1) + 1))
              ba (bt ++ [d]) bf)
    as (e2 & p3 & H2 & (Hlen3 & La3 & Lt3 & Lf3) & Hid2 & Hleg2).
  { by repeat split. }
  { done. }
  { by apply base_mono. }
  { by apply base_snoc. }
  { by apply base_mono. }
  rewrite H2. cbn [steps stepId].
  exists (e1 ++ [step] ++ e2), p3.
  assert (2 ^ Z.of_nat (S k) = 2 * 2 ^ Z.of_nat k) as Hpow
    by (rewrite Nat2Z.inj_succ, Z.pow_succ_r by lia; done).
  assert (0 < 2 ^ Z.of_nat k) as Hpos by (apply Z.pow_pos_nonneg; lia).
  split; [|split; [|split]].
  - f_equal. f_equal; [by rewrite <- !app_assoc|lia].
  - split; [done|]. split; [done|]. split; [|done].
    by rewrite stack_S, (cons_middle _ bt), app_assoc.
  - rewrite !fmap_app, Hid1, Hid2. simpl.
    replace (2 ^ Z.of_nat (S k) - 1)
      with ((2 ^ Z.of_nat k - 1) + (1 + (2 ^ Z.of_nat k - 1))) by lia.
    rewrite seqZ_app by lia. f_equal.
    rewrite (seqZ_app _ 1) by lia. reflexivity.
  - apply Forall_app. split; [done|]. apply Forall_app. split; [|done].
    constructor; [|constructor]. split; [done|]. simpl.
    apply (layout_descending p2 aux to from _ _ _ ltac:(by repeat split) Hl2).
    + apply base_stack. by apply base_mono.
    + by apply (base_snoc k bt d).
    + apply Bf.
Qed.

Lemma solve_synced k :
  ∀ from to aux depth st st',
    synced st → solve k from to aux depth st = Some st' → synced st'.
Proof.
  induction k as [|k IH]; intros from to aux depth st st' Hs Hsolve.
  { simpl in Hsolve. by injection Hsolve as <-. }
  cbn [solve] in Hsolve.
  destruct (solve k from aux to (depth + 1) st) as [st1|] eqn:H1; [|done].
  cbn [mbind option_bind] in Hsolve.
  destruct (curPegs st1 !! from) as [src|]; [|done].
  cbn [mbind option_bind] in Hsolve.
  destruct (pop src) as [[disk rest]|]; [|done].
  cbn [mbind option_bind] in Hsolve.
  destruct (<[from:=rest]> (curPegs st1) !! to) as [dst|]; [|done].
  cbn [mbind option_bind] in Hsolve.
  apply IH in Hsolve; [done|].
  unfold synced. cbn [steps curPegs]. by rewrite last_snoc.
Qed.

Lemma generateHanoiSteps_spec (n : nat) :
  ∃ first ext,
    generateHanoiSteps n = Some (first :: ext)
    ∧ first = mkHanoiStep 0 (mkHanoiState [initialPeg n; []; []] (-1) (-1) None 0)
                          true
    ∧ (λ s, pegs (data s)) <$> last (first :: ext)
      = Some [[]; []; initialPeg n]
    ∧ id <$> ext = seqZ 1 (2 ^ Z.of_nat n - 1)
    ∧ Forall legal ext.
Proof.
  unfold generateHanoiSteps.
  set (pegs0 := [initialPeg n; []; []]).
  set (first := mkHanoiStep 0 _ true).
  set (st := mkSolver pegs0 [first] 1).
  destruct (solve_spec (Z.of_nat n) n 0 2 1 1 st [] [] [])
    as (ext & ps & Hsolve & (Hlen & L0 & L2 & L1) & Hids & Hlegal).
  { by repeat split. }
  { split; [done|]. unfold st, pegs0. simpl. by rewrite initialPeg_stack. }
  { apply base_nil. }
  { apply base_nil. }
  { apply base_nil. }
  rewrite Hsolve. cbn [mbind option_bind steps].
  exists first, ext. split; [done|]. split; [done|].
  split; [|by split].
  assert (synced st) as Hst by done.
  apply (solve_synced _ _ _ _ _ _ _ Hst) in Hsolve.
  unfold synced in Hsolve. cbn [steps curPegs] in Hsolve.
  unfold st in Hsolve. cbn [steps app] in Hsolve. rewrite Hsolve.
  f_equal. rewrite <- initialPeg_stack in L2.
  destruct ps as [|a [|b [|c [|]]]]; try done.
  simpl in L0, L1, L2. congruence.
Qed.

(** [generateHanoiSteps] solves the puzzle: it returns (no [pop] finds a peg
    empty), its first step shows all disks on peg A, and its last step shows
    them all on peg C, in the same order. *)
Theorem hanoi_solves (n : nat) :
  ∃ t,
    generateHanoiSteps n = Some t
    ∧ (λ s, pegs (data s)) <$> head t = Some [initialPeg n; []; []]
    ∧ (λ s, pegs (data s)) <$> last t = Some [[]; []; initialPeg n].
Proof.
  destruct (generateHanoiSteps_spec n)
    as (first & ext & Hgen & -> & Hlast & _ & _).
  exists (mkHanoiStep 0 (mkHanoiState [initialPeg n; []; []] (-1) (-1) None 0) true
          :: ext).
  by repeat split.
Qed.

(** Every step of the trace is a legal move ([isValid] is [true]) and shows
    pegs on which no disk lies on a smaller one. *)
Theorem hanoi_steps_legal (n : nat) :
  ∃ t, generateHanoiSteps n = Some t ∧ Forall legal t.
Proof.
  destruct (generateHanoiSteps_spec n)
    as (first & ext & Hgen & -> & _ & _ & Hlegal).
  eexists. split; [exact Hgen|]. constructor; [|done].
  split; [done|]. simpl.
  assert (descending (initialPeg n)) as Hd.
  { rewrite initialPeg_stack. apply (base_stack _ n []), base_nil. }
  destruct (base_nil 0) as [Hnil _].
  constructor; [done|]. constructor; [done|]. constructor; [done|constructor].
Qed.

Lemma hanoi_ids_aux (n : nat) :
  ∃ t, generateHanoiSteps n = Some t ∧ Z.of_nat (length t) = 2 ^ Z.of_nat n.
Proof.
  destruct (generateHanoiSteps_spec n)
    as (first & ext & Hgen & _ & _ & Hids & _).
  eexists. split; [exact Hgen|].
  assert (0 < 2 ^ Z.of_nat n) as Hpos by (apply Z.pow_pos_nonneg; lia).
  simpl. rewrite <- (length_fmap id), Hids, length_seqZ. lia.
Qed.

(** The trace has [2^n] steps, the first one and [2^n - 1] moves, with the
    ids [0], [1], ... in order. *)
Theorem hanoi_step_ids (n : nat) :
  ∃ t,
    generateHanoiSteps n = Some t
    ∧ id <$> t = seqZ 0 (2 ^ Z.of_nat n)
    ∧ Z.of_nat (length t) = 2 ^ Z.of_nat n.
Proof.
  destruct (generateHanoiSteps_spec n)
    as (first & ext & Hgen & -> & _ & Hids & _).
  eexists. split; [exact Hgen|].
  assert (0 < 2 ^ Z.of_nat n) as Hpos by (apply Z.pow_pos_nonneg; lia).
  assert (id <$> mkHanoiStep 0 (mkHanoiState [initialPeg n; []; []] (-1) (-1) None 0)
                   true :: ext
          = seqZ 0 (2 ^ Z.of_nat n)) as Hall.
  { rewrite fmap_cons, Hids. rewrite (seqZ_cons 0) by lia. done. }
  split; [done|].
  rewrite <- (length_fmap id), Hall, length_seqZ. lia.
Qed.

(** [handleStart] never fails, uses between 1 and 8 disks, and the two
    numbers of moves of its result agree: [steps.length - 1] is
    [Math.pow(2, n) - 1]. *)
Theorem hanoi_reported_moves (parsed : option Z) :
  ∃ r,
    handleStart parsed = Some r
    ∧ 1 ≤ diskCountOf parsed ≤ 8
    ∧ generateHanoiSteps (Z.to_nat (diskCountOf parsed)) = Some (started r)
    ∧ iterations r = moves r
    ∧ moves r = 2 ^ diskCountOf parsed - 1.
Proof.
  assert (1 ≤ diskCountOf parsed ≤ 8) as Hn by (unfold diskCountOf; lia).
  unfold handleStart.
  destruct (hanoi_ids_aux (Z.to_nat (diskCountOf parsed)))
    as (t & Hgen & Hlen).
  rewrite Hgen. cbn [mbind option_bind]. eexists. split; [done|].
  split; [done|]. split; [done|]. simpl. rewrite Z2Nat.id in Hlen by lia.
  split; [lia|done].
Qed.

End HanoiFacts.

(** * Properties of the tables *)

Module TableFacts.
Import Table.
Local Open Scope Z_scope.

Section Table.
Variables (rows cols : nat) (f : nat → nat → Z).
Hypothesis Hrow0 : ∀ c, f 0%nat c = 0.
Hypothesis Hcol0 : ∀ r, f r 0%nat = 0.

Lemma cellAt_inv i w t (r : nat) (c : Z) :
  tableInv rows cols f i w t → (r < rows)%nat → 0 ≤ c < Z.of_nat cols →
  cellAt t (Z.of_nat r) c = Some (expectedCell f i w r (Z.to_nat c)).
Proof.
  intros (Hlen & _ & Hcells) Hr Hc. unfold cellAt.
  destruct (Z.ltb_spec (Z.of_nat r) 0); [lia|].
  destruct (Z.ltb_spec c 0); [lia|]. simpl. rewrite Nat2Z.id.
  destruct (lookup_lt_is_Some_2 t r) as [row Hrow]; [lia|].
  rewrite Hrow. simpl. apply (Hcells r); [done|lia].
Qed.

(** A cell of a row above the one being filled, or to the left in it. *)
Lemma cellAt_filled i w t (r : nat) (c : Z) :
  tableInv rows cols f i w t → (r < rows)%nat → 0 ≤ c < Z.of_nat cols →
  (r < i)%nat ∨ (r = i ∧ c < w) →
  cellAt t (Z.of_nat r) c = Some (f r (Z.to_nat c)).
Proof.
  intros Hinv Hr Hc Hdone. rewrite (cellAt_inv i w) by done.
  f_equal. unfold expectedCell.
  destruct Hdone as [Hlt|[-> Hlt]].
  - by destruct (Nat.ltb_spec r i); [|lia].
  - rewrite Nat.eqb_refl, Z2Nat.id by lia.
    destruct (Z.ltb_spec c w); [|lia]. by rewrite orb_true_r.
Qed.

Lemma setCell_inv (i : nat) w t :
  tableInv rows cols f i w t → (i < rows)%nat → 0 ≤ w < Z.of_nat cols →
  ∃ t', setCell t (Z.of_nat i) w (f i (Z.to_nat w)) = Some t'
        ∧ tableInv rows cols f i (w + 1) t'.
Proof.
  intros (Hlen & Hrows & Hcells) Hi Hw. unfold setCell. rewrite Nat2Z.id.
  destruct (lookup_lt_is_Some_2 t i) as [row Hrow]; [lia|].
  rewrite Hrow. simpl. eexists. split; [done|].
  split; [by rewrite length_insert|]. split.
  - intros r row'. destruct (decide (r = i)) as [->|Hne].
    + rewrite list_lookup_insert_eq by lia. intros [= <-].
      rewrite length_insert. by apply (Hrows i).
    + rewrite list_lookup_insert_ne by done. apply Hrows.
  - intros r c row'. destruct (decide (r = i)) as [->|Hne].
    + rewrite list_lookup_insert_eq by lia. intros [= <-] Hc.
      pose proof (Hrows i row Hrow) as Hlenrow.
      destruct (decide (c = Z.to_nat w)) as [->|Hcw].
      * rewrite list_lookup_insert_eq by lia. unfold expectedCell.
        rewrite Nat.eqb_refl, Z2Nat.id by lia.
        destruct (Z.ltb_spec w (w + 1)); [|lia].
        by rewrite orb_true_r.
      * rewrite list_lookup_insert_ne by done.
        rewrite (Hcells i c row Hrow Hc). f_equal. unfold expectedCell.
        rewrite Nat.eqb_refl. simpl.
        destruct (Z.ltb_spec (Z.of_nat c) w), (Z.ltb_spec (Z.of_nat c) (w + 1));
          try done; lia.
    + rewrite list_lookup_insert_ne by done. intros Hrow' Hc.
      rewrite (Hcells r c row' Hrow' Hc). f_equal. unfold expectedCell.
      destruct (Nat.eqb_spec r i); [done|]. by rewrite !andb_false_l.
Qed.

(** A row filled to its end is the start of the next one. *)
Lemma tableInv_next_row i t :
  tableInv rows cols f i (Z.of_nat cols) t → tableInv rows cols f (S i) 1 t.
Proof.
  intros (Hlen & Hrows & Hcells).
  split; [done|]. split; [done|]. intros r c row Hrow Hc.
  rewrite (Hcells r c row Hrow Hc). f_equal. unfold expectedCell.
  destruct (Nat.ltb_spec r i), (Nat.ltb_spec r (S i)),
    (Nat.eqb_spec r i), (Nat.eqb_spec r (S i)); try lia; simpl; try done.
  - destruct (Z.ltb_spec (Z.of_nat c) (Z.of_nat cols)); first [done|lia].
  - destruct (Z.ltb_spec (Z.of_nat c) 1); [|done].
    replace c with 0%nat by lia. by rewrite Hcol0.
Qed.

Lemma tableInv_zeros : tableInv rows cols f 1 1 (zeros rows cols).
Proof.
  unfold zeros. split; [by rewrite length_replicate|]. split.
  - intros r row [-> _]%lookup_replicate. by rewrite length_replicate.
  - intros r c row [-> Hr]%lookup_replicate Hc.
    rewrite lookup_replicate_2 by done. f_equal. unfold expectedCell.
    destruct (Nat.ltb_spec r 1); simpl.
    + replace r with 0%nat by lia. by rewrite Hrow0.
    + destruct (Nat.eqb_spec r 1), (Z.ltb_spec (Z.of_nat c) 1); simpl; try done.
      replace c with 0%nat by lia. by rewrite Hcol0.
Qed.

(** Every cell of a table whose rows are all filled. *)
Lemma cellAt_full t (r : nat) (c : Z) :
  tableInv rows cols f rows 1 t → (r < rows)%nat → 0 ≤ c < Z.of_nat cols →
  cellAt t (Z.of_nat r) c = Some (f r (Z.to_nat c)).
Proof. intros Hinv Hr Hc. apply (cellAt_filled rows 1); [done..|by left]. Qed.

End Table.

End TableFacts.

(** * Properties of the 0/1 knapsack table *)

Module KnapsackFacts.
Import Js JsFacts Table TableFacts Knapsack.
Local Open Scope Z_scope.

Lemma totalWeight_app l k : totalWeight (l ++ k) = totalWeight l + totalWeight k.
Proof. induction l as [|x l IH]; simpl; [done|]. rewrite IH. lia. Qed.

Lemma totalValue_app l k : totalValue (l ++ k) = totalValue l + totalValue k.
Proof. induction l as [|x l IH]; simpl; [done|]. rewrite IH. lia. Qed.

Lemma mass_app l k : mass (l ++ k) = mass l + mass k.
Proof. induction l as [|x l IH]; simpl; [done|]. rewrite IH. lia. Qed.

Lemma mass_nonneg l : 0 ≤ mass l.
Proof. induction l as [|x l IH]; simpl; lia. Qed.

Lemma totalWeight_nonneg l : Forall (λ it, 1 ≤ weight it) l → 0 ≤ totalWeight l.
Proof. induction 1 as [|x l Hx _ IH]; simpl; lia. Qed.

Lemma bestRev_bounds l w : 0 ≤ bestRev l w ≤ mass l.
Proof.
  revert w. induction l as [|it l IH]; intros w; simpl; [lia|].
  pose proof (IH w). pose proof (IH (w - weight it)).
  destruct (weight it <=? w); lia.
Qed.

Lemma bestRev_no_room l w :
  Forall (λ it, 1 ≤ weight it) l → w ≤ 0 → bestRev l w = 0.
Proof.
  intros Hl Hw. induction Hl as [|it l Hit _ IH]; simpl; [done|].
  destruct (Z.leb_spec (weight it) w); [lia|done].
Qed.

Section Items.
Variables (its : list Item) (capacity : Z).
Hypothesis Hweights : Forall (λ it, 1 ≤ weight it) its.
Hypothesis Hmass : mass its ≤ MAX_EXACT.
Hypothesis Hcap : 0 ≤ capacity.

Lemma best_0 w : best its 0 w = 0.
Proof. done. Qed.

Lemma best_S i it w :
  its !! i = Some it →
  best its (S i) w
  = if weight it <=? w
    then Z.max (best its i (w - weight it) + value it) (best its i w)
    else best its i w.
Proof.
  intros Hi. unfold best. by rewrite (take_S_r _ _ _ Hi), reverse_snoc.
Qed.

Lemma prefix_weights i : Forall (λ it, 1 ≤ weight it) (reverse (take i its)).
Proof.
  apply Forall_reverse. eapply Forall_take, Hweights.
Qed.

Lemma best_no_room i w : w ≤ 0 → best its i w = 0.
Proof. intros Hw. apply bestRev_no_room; [apply prefix_weights|done]. Qed.

Lemma best_bounds i w : 0 ≤ best its i w ≤ mass (take i its).
Proof.
  unfold best. pose proof (bestRev_bounds (reverse (take i its)) w) as H.
  assert (mass (reverse (take i its)) = mass (take i its)) as <-; [|done].
  generalize (take i its). intros l. induction l as [|x l IH]; [done|].
  rewrite reverse_cons, mass_app, IH. simpl. lia.
Qed.

Lemma mass_take i : mass (take i its) ≤ mass its.
Proof.
  rewrite <- (take_drop i its) at 2. rewrite mass_app.
  pose proof (mass_nonneg (drop i its)). lia.
Qed.

(** No selection among the first [i] items that fits in [w] is worth more
    than [best its i w]. *)
Lemma best_optimal i :
  ∀ sel w, sel `sublist_of` take i its → totalWeight sel ≤ w →
           totalValue sel ≤ best its i w.
Proof.
  induction i as [|i IH]; intros sel w Hsub Hw.
  { apply sublist_nil_r in Hsub as ->. done. }
  destruct (its !! i) as [it|] eqn:Hi.
  - rewrite (take_S_r _ _ _ Hi) in Hsub. rewrite (best_S _ _ _ Hi).
    apply sublist_app_r in Hsub as (k1 & k2 & -> & Hk1 & Hk2).
    rewrite totalWeight_app in Hw. rewrite totalValue_app.
    assert (0 ≤ totalWeight k1) as Hk1w.
    { apply totalWeight_nonneg. apply Forall_forall. intros x Hx.
      apply sublist_subseteq in Hk1. apply Hk1 in Hx.
      apply (sublist_subseteq _ _ (sublist_take its i)) in Hx.
      by apply (proj1 (Forall_forall _ _) Hweights). }
    assert (1 ≤ weight it) as Hit
      by (apply (proj1 (Forall_forall _ _) Hweights); by eapply list_elem_of_lookup_2).
    apply sublist_cons_r in Hk2 as [Hk2|(k' & -> & Hk')].
    + apply sublist_nil_r in Hk2 as ->. simpl in *.
      pose proof (IH k1 w Hk1 ltac:(lia)).
      destruct (weight it <=? w); lia.
    + apply sublist_nil_r in Hk' as ->. simpl in *.
      pose proof (IH k1 (w - weight it) Hk1 ltac:(lia)).
      destruct (Z.leb_spec (weight it) w); lia.
  - rewrite take_ge in Hsub by (apply lookup_ge_None in Hi; lia).
    rewrite <- (take_ge its i) in Hsub by (by apply lookup_ge_None).
    unfold best. rewrite take_ge by (apply lookup_ge_None in Hi; lia).
    rewrite <- (take_ge its i) by (by apply lookup_ge_None).
    by apply IH.
Qed.

(** *** The table *)

Lemma bestCell_row0 c : bestCell its 0 c = 0.
Proof. done. Qed.

Lemma bestCell_col0 r : bestCell its r 0 = 0.
Proof. apply best_no_room. lia. Qed.

Lemma knapsack_fillCell_inv (i : nat) w b :
  (1 ≤ i ≤ length its)%nat → 1 ≤ w ≤ capacity →
  knapsackInv its capacity i w (table b) →
  ∃ b', fillCell its (Z.of_nat i) w b = Some b'
        ∧ knapsackInv its capacity i (w + 1) (table b').
Proof.
  intros Hi Hw Hinv. unfold fillCell.
  destruct (lookup_lt_is_Some_2 its (i - 1)) as [it Hit]; [lia|].
  replace (Z.to_nat (Z.of_nat i - 1)) with (i - 1)%nat by lia.
  rewrite Hit. simpl.
  assert (1 ≤ weight it) as Hwt
    by (apply (proj1 (Forall_forall _ _) Hweights); by eapply list_elem_of_lookup_2).
  assert (best its i w
          = if weight it <=? w
            then Z.max (best its (i - 1) (w - weight it) + value it)
                       (best its (i - 1) w)
            else best its (i - 1) w) as Hbest.
  { replace i with (S (i - 1)) at 1 by lia. by apply best_S. }
  assert (∀ c, 0 ≤ c ≤ capacity →
               cellAt (table b) (Z.of_nat i - 1) c = Some (best its (i - 1) c))
    as Habove.
  { intros c Hc. replace (Z.of_nat i - 1) with (Z.of_nat (i - 1)) by lia.
    rewrite (cellAt_filled _ _ _ i w) by (done || lia).
    unfold bestCell. by rewrite Z2Nat.id by lia. }
  destruct (setCell_inv _ _ _ i w (table b) Hinv) as (t' & Hset & Hinv');
    [lia|lia|].
  unfold bestCell in Hset. rewrite Z2Nat.id in Hset by lia.
  destruct (Z.leb_spec (weight it) w) as [Hfit|Hnofit].
  - rewrite (Habove (w - weight it)) by lia. cbn [mbind option_bind].
    assert (exactAdd (best its (i - 1) (w - weight it)) (value it)
            = Some (best its (i - 1) (w - weight it) + value it)) as ->.
    { unfold exactAdd, numAdd.
      pose proof (best_bounds (i - 1) (w - weight it)).
      pose proof (mass_take i).
      assert (mass (take i its) = mass (take (i - 1) its) + Z.abs (value it)) as Hm.
      { replace i with (S (i - 1)) at 1 by lia.
        rewrite (take_S_r _ _ _ Hit), mass_app. simpl. lia. }
      destruct (Z.leb_spec
                  (Z.abs (best its (i - 1) (w - weight it) + value it))
                  MAX_EXACT); [done|lia]. }
    cbn [mbind option_bind]. rewrite (Habove w) by lia.
    cbn [mbind option_bind]. rewrite <- Hbest, Hset. cbn [mbind option_bind].
    assert (is_Some (cellAt t' (Z.of_nat i) w)) as [cur ->]
      by (rewrite (cellAt_inv _ _ _ i (w + 1)) by (done || lia); eauto).
    assert (is_Some (cellAt t' (Z.of_nat i - 1) w)) as [above ->].
    { replace (Z.of_nat i - 1) with (Z.of_nat (i - 1)) by lia.
      rewrite (cellAt_inv _ _ _ i (w + 1)) by (done || lia). eauto. }
    simpl. destruct (bool_decide (cur ≠ above)); eauto.
  - rewrite (Habove w) by lia. cbn [mbind option_bind].
    rewrite <- Hbest, Hset. cbn [mbind option_bind]. eauto.
Qed.

Lemma knapsack_fillRow_inv (i : nat) b :
  (1 ≤ i ≤ length its)%nat →
  knapsackInv its capacity i 1 (table b) →
  ∃ b', fillRow its capacity (Z.of_nat i) b = Some b'
        ∧ knapsackInv its capacity (S i) 1 (table b').
Proof.
  intros Hi Hinv. unfold fillRow.
  destruct (forLoopM_invariant
              (λ w b, 1 ≤ w ∧ knapsackInv its capacity i w (table b))
              (fillCell its (Z.of_nat i)) (capacity + 1))
    with (count := Z.to_nat capacity) (i := 1) (s := b)
    as (b' & Hloop & _ & Hinv').
  { intros w s Hw [Hw1 Hs].
    destruct (knapsack_fillCell_inv i w s) as (s' & Hs' & Hinv''); [done|lia|done|].
    exists s'. split; [done|]. split; [lia|done]. }
  { lia. }
  { done. }
  exists b'. split; [done|].
  apply tableInv_next_row; [apply bestCell_col0|].
  by replace (1 + Z.of_nat (Z.to_nat capacity))
    with (Z.of_nat (Z.to_nat (capacity + 1))) in Hinv' by lia.
Qed.

Lemma knapsack_table_filled b :
  knapsackInv its capacity 1 1 (table b) →
  ∃ b', forLoopM (length its) 1 (fillRow its capacity) b = Some b'
        ∧ knapsackInv its capacity (S (length its)) 1 (table b').
Proof.
  intros Hinv.
  destruct (forLoopM_invariant
              (λ i b, 1 ≤ i ∧ knapsackInv its capacity (Z.to_nat i) 1 (table b))
              (fillRow its capacity) (Z.of_nat (length its) + 1))
    with (count := length its) (i := 1) (s := b)
    as (b' & Hloop & _ & Hinv').
  { intros i s Hi [Hi1 Hs].
    destruct (knapsack_fillRow_inv (Z.to_nat i) s) as (s' & Hs' & Hinv''); [lia|done|].
    rewrite Z2Nat.id in Hs' by lia.
    exists s'. split; [done|]. split; [lia|].
    by replace (Z.to_nat (i + 1)) with (S (Z.to_nat i)) by lia. }
  { lia. }
  { done. }
  exists b'. split; [done|].
  by replace (Z.to_nat (1 + Z.of_nat (length its))) with (S (length its))
    in Hinv' by lia.
Qed.

Lemma cell_best t (r : nat) (c : Z) :
  knapsackInv its capacity (S (length its)) 1 t →
  (r ≤ length its)%nat → 0 ≤ c ≤ capacity →
  cellAt t (Z.of_nat r) c = Some (best its r c).
Proof.
  intros Hinv Hr Hc. rewrite (cellAt_full _ _ _ t r c Hinv) by lia.
  unfold bestCell. by rewrite Z2Nat.id by lia.
Qed.

(** *** Backtracking *)

Lemma pick_snoc sel (j : nat) it :
  its !! j = Some it → pick its (sel ++ [Z.of_nat j]) = pick its sel ++ [it].
Proof.
  intros Hj. unfold pick. rewrite omap_app. simpl.
  by rewrite Nat2Z.id, Hj.
Qed.

Lemma descendingIndices_weaken lo lo' hi sel :
  lo' ≤ lo → descendingIndices lo hi sel → descendingIndices lo' hi sel.
Proof.
  intros Hlo [Hrange Hdesc]. split; [|done].
  eapply Forall_impl; [exact Hrange|]. simpl. lia.
Qed.

Lemma descendingIndices_snoc lo hi sel j :
  j < lo → j < hi →
  descendingIndices lo hi sel → descendingIndices j hi (sel ++ [j]).
Proof.
  intros Hlo Hhi [Hrange Hdesc]. split.
  - apply Forall_app. split.
    + eapply Forall_impl; [exact Hrange|]. simpl. lia.
    + constructor; [lia|constructor].
  - intros p q a b Hpq Hp Hq.
    assert (q < length (sel ++ [j]))%nat as Hlen by by eapply lookup_lt_Some.
    rewrite length_app in Hlen. simpl in Hlen.
    rewrite lookup_app_l in Hp by lia.
    destruct (decide (q < length sel)%nat).
    + rewrite lookup_app_l in Hq by done. by apply (Hdesc p q).
    + rewrite lookup_app_r in Hq by lia.
      replace (q - length sel)%nat with 0%nat in Hq by lia. injection Hq as <-.
      rewrite Forall_lookup in Hrange. specialize (Hrange p a Hp). simpl in Hrange.
      lia.
Qed.

Lemma knapsack_backtrack_inv (i : nat) :
  ∀ w sel b,
    (i ≤ length its)%nat →
    knapsackInv its capacity (S (length its)) 1 (table b) →
    selecting its capacity i w sel →
    ∃ w' sel' b',
      backtrack its i w sel b = Some (w', sel', b')
      ∧ table b' = table b
      ∧ achieves its capacity sel' (best its (length its) capacity).
Proof.
  induction i as [|i IH];
    intros w sel b Hi Hinv (Hsub & Hlen & Hw & Hv & Hw0 & Hidx).
  { exists w, sel, b. simpl. split; [done|]. split; [done|].
    split; [done|]. split; [done|]. split; [done|]. split; [lia|].
    by rewrite best_0, Z.add_0_r in Hv. }
  cbn [backtrack]. destruct (Z.gtb_spec w 0) as [Hpos|Hle].
  2:{ exists w, sel, b. split; [done|]. split; [done|].
      split; [by apply (descendingIndices_weaken (Z.of_nat (S i))); [lia|]|].
      split; [by etrans; [exact Hsub|apply sublist_drop]|].
      split; [done|]. split; [lia|].
      by rewrite best_no_room, Z.add_0_r in Hv by lia. }
  assert (∀ r : nat, (r ≤ length its)%nat →
            cellAt (table b) (Z.of_nat r) w = Some (best its r w)) as Hcell
    by (intros r Hr; apply cell_best; [done|done|lia]).
  rewrite Hcell by lia.
  replace (Z.of_nat (S i) - 1) with (Z.of_nat i) by lia.
  rewrite Hcell by lia. cbn [mbind option_bind].
  destruct (lookup_lt_is_Some_2 its i) as [it Hit]; [lia|].
  assert (1 ≤ weight it) as Hwt
    by (apply (proj1 (Forall_forall _ _) Hweights); by eapply list_elem_of_lookup_2).
  pose proof (best_S i it w Hit) as Hbest.
  assert (drop i its = it :: drop (S i) its) as Hdrop
    by (by apply drop_S).
  case_bool_decide as Hne.
  - rewrite Hit. cbn [mbind option_bind].
    destruct (Z.leb_spec (weight it) w) as [Hfit|Hnofit]; [|congruence].
    set (b1 := pushStep _ b).
    destruct (IH (w - weight it) (sel ++ [Z.of_nat i]) b1)
      as (w' & sel' & b' & Hback & Htable & Hres); [lia|done| |].
    { unfold selecting.
      rewrite (pick_snoc _ _ _ Hit), reverse_snoc, totalWeight_app,
        totalValue_app, !length_app, Hlen. simpl.
      split; [rewrite Hdrop; by apply sublist_skip|].
      split; [done|]. split; [lia|]. split; [lia|]. split; [lia|].
      apply (descendingIndices_snoc (Z.of_nat (S i))); [lia|lia|done]. }
    exists w', sel', b'. split; [done|]. by split.
  - destruct (IH w sel b) as (w' & sel' & b' & Hback & Htable & Hres);
      [lia|done| |].
    { split; [rewrite Hdrop; by apply sublist_cons|].
      split; [done|]. split; [done|].
      split; [|split; [done|]].
      - assert (best its (S i) w = best its i w) as <-; [|done].
        by destruct (decide (best its (S i) w = best its i w)).
      - by apply (descendingIndices_weaken (Z.of_nat (S i))); [lia|]. }
    exists w', sel', b'. split; [done|]. by split.
Qed.

End Items.

(** The run of [generateKnapsackSteps]: its last step holds the filled
    table and the selection found by backtracking. *)
Lemma generateKnapsackSteps_spec (its : list Item) (capacity : Z) :
  Forall (λ it, 1 ≤ weight it) its →
  mass its ≤ MAX_EXACT →
  0 ≤ capacity < 2 ^ 32 - 1 →
  ∃ t final,
    generateKnapsackSteps its capacity = Some (t ++ [final])
    ∧ phase (data final) = done
    ∧ knapsackInv its capacity (S (length its)) 1 (dp (data final))
    ∧ achieves its capacity (selectedItems (data final))
               (best its (length its) capacity).
Proof.
  intros Hweights Hmass Hcap. unfold generateKnapsackSteps.
  destruct (Z.ltb_spec (capacity + 1) 0); [lia|].
  destruct (Z.gtb_spec (capacity + 1) (2 ^ 32 - 1)); [lia|]. simpl.
  set (t0 := zeros _ _). set (b0 := pushStep _ _).
  destruct (knapsack_table_filled its capacity Hweights Hmass ltac:(lia) b0)
    as (b1 & -> & Hinv).
  { apply tableInv_zeros; [apply bestCell_row0|by apply bestCell_col0]. }
  cbn [mbind option_bind].
  destruct (knapsack_backtrack_inv its capacity Hweights ltac:(lia)
              (length its) capacity [] b1)
    as (w' & sel' & b2 & -> & Htable & Hres); [done|done| |].
  { split; [apply sublist_nil_l|]. split; [done|]. split; [simpl; lia|].
    split; [simpl; lia|]. split; [lia|]. split; [constructor|].
    intros p q a b _ Hp. by rewrite lookup_nil in Hp. }
  cbn [mbind option_bind]. unfold pushStep. cbn [steps].
  eexists _, _. split; [reflexivity|]. simpl. split; [done|].
  split; [by rewrite Htable|done].
Qed.

(** The table is optimal: the cell [dp[n][capacity]] of the last step holds
    a value that no selection of items fitting in the capacity exceeds. *)
Theorem knapsack_value_optimal (its : list Item) (capacity : Z) :
  Forall (λ it, 1 ≤ weight it) its →
  mass its ≤ MAX_EXACT →
  0 ≤ capacity < 2 ^ 32 - 1 →
  ∃ t final opt,
    generateKnapsackSteps its capacity = Some (t ++ [final])
    ∧ phase (data final) = done
    ∧ cellAt (dp (data final)) (Z.of_nat (length its)) capacity = Some opt
    ∧ ∀ sel, sel `sublist_of` its → totalWeight sel ≤ capacity →
             totalValue sel ≤ opt.
Proof.
  intros Hweights Hmass Hcap.
  destruct (generateKnapsackSteps_spec its capacity Hweights Hmass Hcap)
    as (t & final & Hgen & Hdone & Hinv & _).
  exists t, final, (best its (length its) capacity).
  split; [done|]. split; [done|]. split.
  - apply (cell_best its capacity); [lia|done|lia|lia].
  - intros sel Hsub Hw. apply best_optimal; [done| |done].
    by rewrite take_ge.
Qed.

Lemma knapsack_value_optimal_witness :
  ∃ t final opt,
    generateKnapsackSteps [mkItem 2 3; mkItem 3 4; mkItem 4 5; mkItem 5 6] 8
    = Some (t ++ [final])
    ∧ cellAt (dp (data final)) 4 8 = Some opt
    ∧ ∀ sel, sel `sublist_of` [mkItem 2 3; mkItem 3 4; mkItem 4 5; mkItem 5 6] →
             totalWeight sel ≤ 8 → totalValue sel ≤ opt.
Proof.
  destruct (knapsack_value_optimal
              [mkItem 2 3; mkItem 3 4; mkItem 4 5; mkItem 5 6] 8)
    as (t & final & opt & Hgen & _ & Hcell & Hopt).
  - repeat constructor; simpl; lia.
  - vm_compute. by intros.
  - lia.
  - exists t, final, opt. split; [exact Hgen|]. split; [exact Hcell|exact Hopt].
Defined.

(** Backtracking recovers a selection that achieves the value of the table:
    the indices in [selectedItems] of the last step are indices of items,
    listed in strictly decreasing order, so that no item is taken twice;
    the items at these indices fit in the capacity and their values add up
    to [dp[n][capacity]]. *)
Theorem knapsack_selection_achieves (its : list Item) (capacity : Z) :
  Forall (λ it, 1 ≤ weight it) its →
  mass its ≤ MAX_EXACT →
  0 ≤ capacity < 2 ^ 32 - 1 →
  ∃ t final opt,
    generateKnapsackSteps its capacity = Some (t ++ [final])
    ∧ cellAt (dp (data final)) (Z.of_nat (length its)) capacity = Some opt
    ∧ achieves its capacity (selectedItems (data final)) opt.
Proof.
  intros Hweights Hmass Hcap.
  destruct (generateKnapsackSteps_spec its capacity Hweights Hmass Hcap)
    as (t & final & Hgen & Hdone & Hinv & Hach).
  exists t, final, (best its (length its) capacity).
  split; [done|]. split; [|done].
  apply (cell_best its capacity); [lia|done|lia|lia].
Qed.

Lemma knapsack_selection_achieves_witness :
  ∃ t final opt,
    generateKnapsackSteps [mkItem 2 3; mkItem 3 4; mkItem 4 5; mkItem 5 6] 8
    = Some (t ++ [final])
    ∧ cellAt (dp (data final)) 4 8 = Some opt
    ∧ achieves [mkItem 2 3; mkItem 3 4; mkItem 4 5; mkItem 5 6] 8
               (selectedItems (data final)) opt.
Proof.
  apply (knapsack_selection_achieves
           [mkItem 2 3; mkItem 3 4; mkItem 4 5; mkItem 5 6] 8).
  - repeat constructor; simpl; lia.
  - vm_compute. by intros.
  - lia.
Defined.

(** A selection that [achieves] takes no item twice. *)
Remark achieves_NoDup (its : list Item) (capacity : Z) (sel : list Z) (opt : Z) :
  achieves its capacity sel opt → NoDup sel.
Proof.
  intros [[_ Hdesc] _]. apply NoDup_alt. intros p q a Hp Hq.
  destruct (lt_eq_lt_dec p q) as [[Hlt|Heq]|Hlt]; [|done|].
  - specialize (Hdesc p q a a Hlt Hp Hq). lia.
  - specialize (Hdesc q p a a Hlt Hq Hp). lia.
Qed.

End KnapsackFacts.

(** * Properties of the longest-common-subsequence table *)

Module LcsFacts.
Import Js JsFacts Table TableFacts Lcs.
Local Open Scope Z_scope.

Lemma sublist_reverse {A} (l k : list A) :
  l `sublist_of` k → reverse l `sublist_of` reverse k.
Proof.
  induction 1 as [|x l k _ IH|x l k _ IH].
  - done.
  - rewrite !reverse_cons. by apply sublist_app.
  - rewrite reverse_cons. by apply sublist_inserts_r.
Qed.

Lemma omap_cons_Some {A B} (f : A → option B) x l y :
  f x = Some y → omap f (x :: l) = y :: omap f l.
Proof. intros Hx. simpl. by rewrite Hx. Qed.

Lemma lcsRev_nil_r xs : lcsRev xs [] = 0.
Proof. by destruct xs. Qed.

Lemma lcsRev_cons x xs y ys :
  lcsRev (x :: xs) (y :: ys)
  = if bool_decide (x = y) then lcsRev xs ys + 1
    else Z.max (lcsRev xs (y :: ys)) (lcsRev (x :: xs) ys).
Proof. done. Qed.

Lemma lcsRev_nonneg xs ys : 0 ≤ lcsRev xs ys.
Proof.
  revert ys. induction xs as [|x xs IHx]; intros ys; [done|].
  induction ys as [|y ys IHy]; [done|].
  rewrite lcsRev_cons. pose proof (IHx ys). pose proof (IHx (y :: ys)).
  case_bool_decide; lia.
Qed.

(** No common subsequence is longer than [lcsRev]. *)
Lemma lcsRev_optimal xs :
  ∀ ys s, s `sublist_of` xs → s `sublist_of` ys →
          Z.of_nat (length s) ≤ lcsRev xs ys.
Proof.
  induction xs as [|x xs IHx]; intros ys s Hx Hy.
  { apply sublist_nil_r in Hx as ->. done. }
  induction ys as [|y ys IHy].
  { apply sublist_nil_r in Hy as ->. done. }
  rewrite lcsRev_cons.
  apply sublist_cons_r in Hx as [Hx|(s' & -> & Hx)].
  - pose proof (IHx (y :: ys) s Hx Hy).
    case_bool_decide as Heq; [|lia].
    apply sublist_cons_r in Hy as [Hy|(s' & -> & Hy)].
    + pose proof (IHx ys s Hx Hy). lia.
    + assert (s' `sublist_of` xs) as Hx'
        by (by apply sublist_cons_l in Hx as (k1 & k2 & -> & ?);
            apply sublist_inserts_l, sublist_cons).
      pose proof (IHx ys s' Hx' Hy). simpl. lia.
  - apply sublist_cons_r in Hy as [Hy|(s'' & Heq & Hy)].
    + pose proof (IHy Hy).
      case_bool_decide as Heq; [|lia].
      subst y.
      assert (s' `sublist_of` ys) as Hy'
        by (by apply sublist_cons_l in Hy as (k1 & k2 & -> & ?);
            apply sublist_inserts_l, sublist_cons).
      pose proof (IHx ys s' Hx Hy'). simpl. lia.
    + injection Heq as <- <-. rewrite bool_decide_true by done.
      pose proof (IHx ys s' Hx Hy). simpl. lia.
Qed.

Section Strings.
Variables (s1 s2 : list Z).

Lemma lcsLen_row0 c : lcsLen s1 s2 0 c = 0.
Proof. done. Qed.

Lemma lcsLen_col0 r : lcsLen s1 s2 r 0 = 0.
Proof. apply lcsRev_nil_r. Qed.

Lemma lcsLen_S i j x y :
  s1 !! i = Some x → s2 !! j = Some y →
  lcsLen s1 s2 (S i) (S j)
  = if bool_decide (x = y) then lcsLen s1 s2 i j + 1
    else Z.max (lcsLen s1 s2 i (S j)) (lcsLen s1 s2 (S i) j).
Proof.
  intros Hi Hj. unfold lcsLen.
  by rewrite (take_S_r _ _ _ Hi), (take_S_r _ _ _ Hj), !reverse_snoc.
Qed.

Lemma lcsLen_optimal s :
  s `sublist_of` s1 → s `sublist_of` s2 →
  Z.of_nat (length s) ≤ lcsLen s1 s2 (length s1) (length s2).
Proof.
  intros H1 H2. unfold lcsLen. rewrite !take_ge by done.
  rewrite <- length_reverse. by apply lcsRev_optimal; apply sublist_reverse.
Qed.

Lemma charAt_lookup s (i : nat) : charAt s (Z.of_nat i) = s !! i.
Proof.
  unfold charAt. destruct (Z.ltb_spec (Z.of_nat i) 0); [lia|].
  by rewrite Nat2Z.id.
Qed.

(** *** The table *)

Lemma lcs_fillCell_inv (i : nat) j b :
  (1 ≤ i ≤ length s1)%nat → 1 ≤ j ≤ Z.of_nat (length s2) →
  lcsInv s1 s2 i j (table b) →
  ∃ b', fillCell s1 s2 (Z.of_nat i) j b = Some b'
        ∧ lcsInv s1 s2 i (j + 1) (table b').
Proof.
  intros Hi Hj Hinv. unfold fillCell.
  destruct (lookup_lt_is_Some_2 s1 (i - 1)) as [x Hx]; [lia|].
  destruct (lookup_lt_is_Some_2 s2 (Z.to_nat j - 1)) as [y Hy]; [lia|].
  assert (charAt s1 (Z.of_nat i - 1) = Some x) as ->.
  { replace (Z.of_nat i - 1) with (Z.of_nat (i - 1)) by lia.
    by rewrite charAt_lookup. }
  assert (charAt s2 (j - 1) = Some y) as ->.
  { replace (j - 1) with (Z.of_nat (Z.to_nat j - 1)) by lia.
    by rewrite charAt_lookup. }
  assert (cellAt (table b) (Z.of_nat i - 1) (j - 1)
          = Some (lcsLen s1 s2 (i - 1) (Z.to_nat j - 1))) as Hdiag.
  { replace (Z.of_nat i - 1) with (Z.of_nat (i - 1)) by lia.
    rewrite (cellAt_filled _ _ _ i j) by (done || lia).
    do 2 f_equal. lia. }
  assert (cellAt (table b) (Z.of_nat i - 1) j
          = Some (lcsLen s1 s2 (i - 1) (Z.to_nat j))) as Hup.
  { replace (Z.of_nat i - 1) with (Z.of_nat (i - 1)) by lia.
    by rewrite (cellAt_filled _ _ _ i j) by (done || lia). }
  assert (cellAt (table b) (Z.of_nat i) (j - 1)
          = Some (lcsLen s1 s2 i (Z.to_nat j - 1))) as Hleft.
  { rewrite (cellAt_filled _ _ _ i j) by (done || lia).
    do 2 f_equal. lia. }
  pose proof (lcsLen_S (i - 1) (Z.to_nat j - 1) x y Hx Hy) as Hlen.
  replace (S (i - 1)) with i in Hlen by lia.
  replace (S (Z.to_nat j - 1)) with (Z.to_nat j) in Hlen by lia.
  destruct (setCell_inv _ _ _ i j (table b) Hinv) as (t' & Hset & Hinv');
    [lia|lia|].
  rewrite Hlen in Hset.
  destruct (decide (x = y)) as [->|Hne].
  - rewrite bool_decide_true in Hset by done.
    rewrite bool_decide_true by done.
    rewrite Hdiag. cbn [mbind option_bind]. rewrite Hset.
    cbn [mbind option_bind]. eauto.
  - rewrite bool_decide_false in Hset by done.
    rewrite bool_decide_false by congruence.
    rewrite Hup, Hleft. cbn [mbind option_bind]. rewrite Hset.
    cbn [mbind option_bind]. eauto.
Qed.

Lemma lcs_fillRow_inv (i : nat) b :
  (1 ≤ i ≤ length s1)%nat →
  lcsInv s1 s2 i 1 (table b) →
  ∃ b', fillRow s1 s2 (Z.of_nat i) b = Some b'
        ∧ lcsInv s1 s2 (S i) 1 (table b').
Proof.
  intros Hi Hinv. unfold fillRow.
  destruct (forLoopM_invariant
              (λ j b, 1 ≤ j ∧ lcsInv s1 s2 i j (table b))
              (fillCell s1 s2 (Z.of_nat i)) (Z.of_nat (length s2) + 1))
    with (count := length s2) (i := 1) (s := b)
    as (b' & Hloop & _ & Hinv').
  { intros j s Hj [Hj1 Hs].
    destruct (lcs_fillCell_inv i j s) as (s' & Hs' & Hinv''); [done|lia|done|].
    exists s'. split; [done|]. split; [lia|done]. }
  { lia. }
  { done. }
  exists b'. split; [done|].
  apply tableInv_next_row; [apply lcsLen_col0|].
  by replace (1 + Z.of_nat (length s2)) with (Z.of_nat (S (length s2)))
    in Hinv' by lia.
Qed.

Lemma lcs_table_filled b :
  lcsInv s1 s2 1 1 (table b) →
  ∃ b', forLoopM (length s1) 1 (fillRow s1 s2) b = Some b'
        ∧ lcsInv s1 s2 (S (length s1)) 1 (table b').
Proof.
  intros Hinv.
  destruct (forLoopM_invariant
              (λ i b, 1 ≤ i ∧ lcsInv s1 s2 (Z.to_nat i) 1 (table b))
              (fillRow s1 s2) (Z.of_nat (length s1) + 1))
    with (count := length s1) (i := 1) (s := b)
    as (b' & Hloop & _ & Hinv').
  { intros i s Hi [Hi1 Hs].
    destruct (lcs_fillRow_inv (Z.to_nat i) s) as (s' & Hs' & Hinv''); [lia|done|].
    rewrite Z2Nat.id in Hs' by lia.
    exists s'. split; [done|]. split; [lia|].
    by replace (Z.to_nat (i + 1)) with (S (Z.to_nat i)) by lia. }
  { lia. }
  { done. }
  exists b'. split; [done|].
  by replace (Z.to_nat (1 + Z.of_nat (length s1))) with (S (length s1))
    in Hinv' by lia.
Qed.

Lemma cell_lcsLen t (r c : nat) :
  lcsInv s1 s2 (S (length s1)) 1 t →
  (r ≤ length s1)%nat → (c ≤ length s2)%nat →
  cellAt t (Z.of_nat r) (Z.of_nat c) = Some (lcsLen s1 s2 r c).
Proof.
  intros Hinv Hr Hc. rewrite (cellAt_full _ _ _ t r _ Hinv) by lia.
  by rewrite Nat2Z.id.
Qed.

(** *** Backtracking *)

Lemma lcs_backtrack_inv (fuel : nat) :
  ∀ i j l matched b,
    (Z.to_nat i + Z.to_nat j ≤ fuel)%nat →
    lcsInv s1 s2 (S (length s1)) 1 (table b) →
    tracing s1 s2 i j l matched →
    ∃ l' matched' b',
      backtrack s1 s2 fuel i j l matched b = Some (l', matched', b')
      ∧ table b' = table b
      ∧ traced s1 s2 l' matched' (lcsLen s1 s2 (length s1) (length s2)).
Proof.
  assert (∀ i j l matched,
            tracing s1 s2 i j l matched → (i >? 0) && (j >? 0) = false →
            traced s1 s2 l matched (lcsLen s1 s2 (length s1) (length s2)))
    as Hstop.
  { intros i j l matched (Hi & Hj & H1 & H2 & Hlen & Hm1 & Hm2 & Hml) Hcond.
    split; [by etrans; [exact H1|apply sublist_drop]|].
    split; [by etrans; [exact H2|apply sublist_drop]|].
    split; [|done].
    assert (lcsLen s1 s2 (Z.to_nat i) (Z.to_nat j) = 0) as Hz; [|lia].
    apply andb_false_iff in Hcond as [Hc|Hc].
    - replace (Z.to_nat i) with 0%nat by lia. apply lcsLen_row0.
    - replace (Z.to_nat j) with 0%nat by lia. apply lcsLen_col0. }
  induction fuel as [|fuel IH]; intros i j l matched b Hfuel Hinv Htr.
  { exists l, matched, b.
    assert ((i >? 0) && (j >? 0) = false) as Hcond.
    { destruct Htr as (Hi & Hj & _).
      destruct (Z.gtb_spec i 0), (Z.gtb_spec j 0); try done. lia. }
    simpl. rewrite Hcond. split; [done|]. split; [done|]. by eapply Hstop. }
  cbn [backtrack].
  destruct ((i >? 0) && (j >? 0)) eqn:Hcond.
  2:{ exists l, matched, b. split; [done|]. split; [done|]. by eapply Hstop. }
  apply andb_true_iff in Hcond as [Hi0 Hj0].
  destruct Htr as (Hi & Hj & H1 & H2 & Hlen & Hm1 & Hm2 & Hml).
  assert (0 < i ∧ 0 < j) as [Hipos Hjpos] by lia.
  set (i' := (Z.to_nat i - 1)%nat). set (j' := (Z.to_nat j - 1)%nat).
  destruct (lookup_lt_is_Some_2 s1 i') as [x Hx]; [lia|].
  destruct (lookup_lt_is_Some_2 s2 j') as [y Hy]; [lia|].
  assert (charAt s1 (i - 1) = Some x) as Hcx.
  { replace (i - 1) with (Z.of_nat i') by lia. by rewrite charAt_lookup. }
  assert (charAt s2 (j - 1) = Some y) as Hcy.
  { replace (j - 1) with (Z.of_nat j') by lia. by rewrite charAt_lookup. }
  rewrite Hcx, Hcy.
  pose proof (lcsLen_S i' j' x y Hx Hy) as HS.
  replace (S i') with (Z.to_nat i) in HS by lia.
  replace (S j') with (Z.to_nat j) in HS by lia.
  assert (drop i' s1 = x :: drop (Z.to_nat i) s1) as Hd1.
  { replace (Z.to_nat i) with (S i') by lia. by apply drop_S. }
  assert (drop j' s2 = y :: drop (Z.to_nat j) s2) as Hd2.
  { replace (Z.to_nat j) with (S j') by lia. by apply drop_S. }
  assert (Z.to_nat (i - 1) = i' ∧ Z.to_nat (j - 1) = j') as [Hi' Hj'] by lia.
  destruct (decide (x = y)) as [->|Hne].
  - rewrite bool_decide_true by done. cbn [mbind option_bind].
    rewrite bool_decide_true in HS by done.
    set (b1 := pushStep _ b).
    destruct (IH (i - 1) (j - 1) (y :: l) ((i - 1, j - 1) :: matched) b1)
      as (l' & matched' & b' & Hback & Htable & Hres); [lia|done| |].
    { split; [lia|]. split; [lia|]. rewrite Hi', Hj', Hd1, Hd2.
      split; [by apply sublist_skip|]. split; [by apply sublist_skip|].
      split; [simpl length; lia|].
      split; [by rewrite (omap_cons_Some _ _ _ y), <- Hm1|].
      split; [by rewrite (omap_cons_Some _ _ _ y), <- Hm2|].
      simpl. by rewrite Hml. }
    exists l', matched', b'. split; [done|]. by split.
  - rewrite bool_decide_false by congruence.
    rewrite bool_decide_false in HS by done.
    assert (cellAt (table b) (i - 1) j = Some (lcsLen s1 s2 i' (Z.to_nat j)))
      as ->.
    { replace (i - 1) with (Z.of_nat i') by lia.
      replace j with (Z.of_nat (Z.to_nat j)) at 1 by lia.
      apply cell_lcsLen; [done|lia|lia]. }
    assert (cellAt (table b) i (j - 1) = Some (lcsLen s1 s2 (Z.to_nat i) j'))
      as ->.
    { replace (j - 1) with (Z.of_nat j') by lia.
      replace i with (Z.of_nat (Z.to_nat i)) at 1 by lia.
      apply cell_lcsLen; [done|lia|lia]. }
    cbn [mbind option_bind].
    destruct (Z.gtb_spec (lcsLen s1 s2 i' (Z.to_nat j))
                         (lcsLen s1 s2 (Z.to_nat i) j')) as [Hgt|Hle].
    + destruct (IH (i - 1) j l matched b)
        as (l' & matched' & b' & Hback & Htable & Hres); [lia|done| |].
      { split; [lia|]. split; [lia|]. rewrite Hi', Hd1.
        split; [by apply sublist_cons|]. split; [done|].
        split; [lia|done]. }
      exists l', matched', b'. split; [done|]. by split.
    + destruct (IH i (j - 1) l matched b)
        as (l' & matched' & b' & Hback & Htable & Hres); [lia|done| |].
      { split; [lia|]. split; [lia|]. rewrite Hj', Hd2.
        split; [done|]. split; [by apply sublist_cons|].
        split; [lia|done]. }
      exists l', matched', b'. split; [done|]. by split.
Qed.

End Strings.

(** The run of [generateLCSSteps]: its last step holds the filled table and
    the subsequence found by backtracking. *)
Lemma generateLCSSteps_spec (s1 s2 : list Z) :
  Z.of_nat (length s1) < 2 ^ 32 - 1 →
  Z.of_nat (length s2) < 2 ^ 32 - 1 →
  ∃ t final,
    generateLCSSteps s1 s2 = Some (t ++ [final])
    ∧ phase (data final) = done
    ∧ lcsInv s1 s2 (S (length s1)) 1 (dp (data final))
    ∧ traced s1 s2 (lcs (data final)) (matchedIndices (data final))
             (lcsLen s1 s2 (length s1) (length s2)).
Proof.
  intros H1 H2. unfold generateLCSSteps.
  destruct (Z.gtb_spec (Z.of_nat (length s1) + 1) (2 ^ 32 - 1)); [lia|].
  destruct (Z.gtb_spec (Z.of_nat (length s2) + 1) (2 ^ 32 - 1)); [lia|]. simpl.
  set (t0 := zeros _ _). set (b0 := pushStep _ _).
  destruct (lcs_table_filled s1 s2 b0) as (b1 & -> & Hinv).
  { apply tableInv_zeros; [apply lcsLen_row0|apply lcsLen_col0]. }
  cbn [mbind option_bind].
  destruct (lcs_backtrack_inv s1 s2 (length s1 + length s2)
              (Z.of_nat (length s1)) (Z.of_nat (length s2)) [] [] b1)
    as (l & matched & b2 & -> & Htable & Hres); [lia|done| |].
  { split; [lia|]. split; [lia|]. rewrite !Nat2Z.id.
    split; [apply sublist_nil_l|]. split; [apply sublist_nil_l|].
    split; [simpl; lia|done]. }
  cbn [mbind option_bind]. unfold pushStep. cbn [steps].
  eexists _, _. split; [reflexivity|]. simpl. split; [done|].
  split; [by rewrite Htable|done].
Qed.

(** The string [lcs] of the last step is a common subsequence of both
    strings, found at the indices listed in [matchedIndices], and its length
    is the cell [dp[m][n]] of the table. *)
Theorem lcs_is_common_subsequence (s1 s2 : list Z) :
  Z.of_nat (length s1) < 2 ^ 32 - 1 →
  Z.of_nat (length s2) < 2 ^ 32 - 1 →
  ∃ t final len,
    generateLCSSteps s1 s2 = Some (t ++ [final])
    ∧ phase (data final) = done
    ∧ cellAt (dp (data final)) (Z.of_nat (length s1)) (Z.of_nat (length s2))
      = Some len
    ∧ traced s1 s2 (lcs (data final)) (matchedIndices (data final)) len.
Proof.
  intros H1 H2.
  destruct (generateLCSSteps_spec s1 s2 H1 H2)
    as (t & final & Hgen & Hdone & Hinv & Hres).
  exists t, final, (lcsLen s1 s2 (length s1) (length s2)).
  split; [done|]. split; [done|]. split; [|done].
  by apply cell_lcsLen.
Qed.

Lemma lcs_is_common_subsequence_witness :
  ∃ t final len,
    generateLCSSteps [65; 71; 71; 84; 65; 66] [71; 88; 84; 88; 65; 89; 66]
    = Some (t ++ [final])
    ∧ cellAt (dp (data final)) 6 7 = Some len
    ∧ traced [65; 71; 71; 84; 65; 66] [71; 88; 84; 88; 65; 89; 66]
             (lcs (data final)) (matchedIndices (data final)) len.
Proof.
  destruct (lcs_is_common_subsequence
              [65; 71; 71; 84; 65; 66] [71; 88; 84; 88; 65; 89; 66])
    as (t & final & len & Hgen & _ & Hcell & Hres); [simpl; lia|simpl; lia|].
  exists t, final, len. split; [exact Hgen|]. split; [exact Hcell|exact Hres].
Defined.

(** The string [lcs] of the last step is a longest one: no common
    subsequence of the two strings is longer. *)
Theorem lcs_is_longest (s1 s2 : list Z) :
  Z.of_nat (length s1) < 2 ^ 32 - 1 →
  Z.of_nat (length s2) < 2 ^ 32 - 1 →
  ∃ t final,
    generateLCSSteps s1 s2 = Some (t ++ [final])
    ∧ lcs (data final) `sublist_of` s1
    ∧ lcs (data final) `sublist_of` s2
    ∧ ∀ s, s `sublist_of` s1 → s `sublist_of` s2 →
           (length s ≤ length (lcs (data final)))%nat.
Proof.
  intros H1 H2.
  destruct (generateLCSSteps_spec s1 s2 H1 H2)
    as (t & final & Hgen & _ & _ & (Hsub1 & Hsub2 & Hlen & _)).
  exists t, final. split; [done|]. split; [done|]. split; [done|].
  intros s Hs1 Hs2. pose proof (lcsLen_optimal s1 s2 s Hs1 Hs2). lia.
Qed.

Lemma lcs_is_longest_witness :
  ∃ t final,
    generateLCSSteps [65; 71; 71; 84; 65; 66] [71; 88; 84; 88; 65; 89; 66]
    = Some (t ++ [final])
    ∧ ∀ s, s `sublist_of` [65; 71; 71; 84; 65; 66] →
           s `sublist_of` [71; 88; 84; 88; 65; 89; 66] →
           (length s ≤ length (lcs (data final)))%nat.
Proof.
  destruct (lcs_is_longest
              [65; 71; 71; 84; 65; 66] [71; 88; 84; 88; 65; 89; 66])
    as (t & final & Hgen & _ & _ & Hopt); [simpl; lia|simpl; lia|].
  exists t, final. split; [exact Hgen|exact Hopt].
Defined.

End LcsFacts.

(** * Properties of the input panels *)

Module PanelFacts.
Local Open Scope Z_scope.

(** The N-Queens panel checks what the runner checks: on a text that parses
    to an integer, [handleApply] passes the input on exactly when
    [nQueensRunner.validateInput] accepts it, and otherwise shows the error
    of [validateInput]. *)
Theorem queens_panel_checks_as_runner (nValue maxSolutions : Z)
    (mode : NQueens.Mode) (useBitmask : bool) :
  QueensPanel.handleApply (Some nValue) maxSolutions mode useBitmask
  = checked NQueens.validateInput
      (NQueens.Input.mk nValue (Some maxSolutions) (Some mode) (Some useBitmask)).
Proof.
  unfold QueensPanel.handleApply, checked, NQueens.validateInput,
    NQueens.MAX_N. simpl.
  destruct (Z.eqb_spec nValue 0), (Z.ltb_spec nValue 1); simpl; try done;
    try lia.
  destruct (nValue >? 20); [done|].
  by destruct ((maxSolutions <? 1) || (maxSolutions >? 100)).
Qed.

(** A preset of the N-Queens panel spells out the settings that the runner
    derives by itself: the run of the preset is the run of the input that
    gives the board size only. *)
Theorem queens_preset_is_runner_default (preset : Z) :
  NQueens.generateSteps (QueensPanel.handlePreset preset)
  = NQueens.generateSteps (NQueens.Input.mk preset None None None).
Proof.
  unfold NQueens.generateSteps, QueensPanel.handlePreset,
    NQueens.effectiveMode, NQueens.effectiveUseBitmask,
    NQueens.effectiveMaxSolutions, NQueens.effectiveN, NQueens.MAX_N.
  simpl.
  assert ((if preset <=? 12 then NQueens.full
           else if preset <=? 16 then NQueens.sampling else NQueens.fast_solve)
          = (if Z.min preset 20 <=? 12 then NQueens.full
             else if Z.min preset 20 <=? 16 then NQueens.sampling
                  else NQueens.fast_solve)) as ->.
  { destruct (Z.leb_spec preset 12), (Z.leb_spec (Z.min preset 20) 12);
      try lia; [done|].
    destruct (Z.leb_spec preset 16), (Z.leb_spec (Z.min preset 20) 16);
      try lia; done. }
  assert ((preset >? 12) = (Z.min preset 20 >? 12)) as ->; [|done].
  destruct (Z.gtb_spec preset 12), (Z.gtb_spec (Z.min preset 20) 12);
    try lia; done.
Qed.

(** The Fibonacci panel checks [n] as the runner does; with a detail level
    in the range of the slider, [handleApply] passes the input on exactly
    when [fibonacciRunner.validateInput] accepts it, and otherwise shows the
    error of [validateInput]. *)
Theorem fibonacci_panel_checks_as_runner (nValue detailLevel : Z)
    (strategy : Fibonacci.Strategy) (mode : Fibonacci.Mode) :
  0 ≤ detailLevel ≤ 100 →
  FibonacciPanel.handleApply (Some nValue) strategy detailLevel mode
  = checked Fibonacci.validateInput
      (Fibonacci.Input.mk nValue (Some strategy) (Some detailLevel) (Some mode)).
Proof.
  intros Hd.
  unfold FibonacciPanel.handleApply, checked,
    Fibonacci.validateInput. simpl.
  destruct (nValue <? 0); [done|]. destruct (nValue >? 1000000); [done|].
  destruct (Z.ltb_spec detailLevel 0), (Z.gtb_spec detailLevel 100);
    simpl; try lia; done.
Qed.

Lemma fibonacci_panel_checks_as_runner_witness :
  FibonacciPanel.handleApply (Some 2000000) Fibonacci.dp_array 50 Fibonacci.full
  = Rejected "N must be less than 1,000,000 for safety".
Proof.
  rewrite (fibonacci_panel_checks_as_runner 2000000 50); [done|lia].
Defined.

End PanelFacts.
